(** * genieclust: the Genie+ merge engine over a sorted minimum spanning tree

    A shallow embedding of [genieclust/disjoint_sets.h] (class
    [DisjointSets]) and of [genieclust/c_genie.h]
    ([Cget_graph_node_degrees] and the template class [CGenie]), followed
    by the properties of the engine that are stated in the specification.

    Conventions of the embedding.
    - [ssize_t] and [unsigned long long] values are integers of [Z].  Every
      value the code computes is an index, a count bounded by the number of
      points, or one of the sentinels [-1] and [n-1], so no 64-bit
      wrap-around is reachable apart from [k -= 1] in [merge], which is
      written out.
    - The only [int] that the code computes with is the label counter of
      [get_labels].  Incrementing it at [INT_MAX] is a signed overflow,
      undefined behaviour in C++, and the outcome [Err int_overflow] here;
      every label stored in an [int] cell is below the counter.
    - [std::vector] and raw arrays are lists; [operator[]] outside the
      bounds is undefined behaviour in C++ and is the outcome
      [Err out_of_bounds] here.
    - A C++ exception is the outcome [Err e]; a function that mutates the
      object returns the new object. *)

From Stdlib Require Import ZArith QArith Lia.
From stdpp Require Import base list sorting.

Open Scope Z_scope.

(** ** Outcomes *)

Inductive error : Set :=
| domain_error       (* std::domain_error *)
| invalid_argument   (* std::invalid_argument *)
| runtime_error      (* std::runtime_error *)
| length_error       (* std::length_error: a vector of negative size *)
| out_of_bounds      (* undefined behaviour: index outside an array *)
| int_overflow       (* undefined behaviour: signed overflow of an int *)
| no_termination.    (* the recursion or the loop does not come back *)

Inductive result (A : Type) : Type :=
| Ok (a : A)
| Err (e : error).
Arguments Ok {A} a.
Arguments Err {A} e.

Definition bind {A B : Type} (r : result A) (f : A → result B) : result B :=
  match r with
  | Ok a => f a
  | Err e => Err e
  end.

Notation "x <- r ;; k" := (bind r (fun x => k))
  (at level 100, r at next level, right associativity).

(** ** Arrays indexed by [ssize_t] *)

Definition vget {A : Type} (v : list A) (i : Z) : result A :=
  if i <? 0 then Err out_of_bounds
  else match v !! Z.to_nat i with
       | Some a => Ok a
       | None => Err out_of_bounds
       end.

Definition upd {A : Type} (v : list A) (i : Z) (a : A) : list A :=
  <[Z.to_nat i := a]> v.

Definition vset {A : Type} (v : list A) (i : Z) (a : A) : result (list A) :=
  if (i <? 0) || (Z.of_nat (length v) <=? i) then Err out_of_bounds
  else Ok (upd v i a).

(** [for (i = lo; i < hi; ++i) body] over a loop state [S]. *)
Fixpoint for_count {S : Type} (cnt : nat) (i : Z)
    (body : Z → S → result S) (s : S) : result S :=
  match cnt with
  | O => Ok s
  | Datatypes.S c => s' <- body i s ;; for_count c (i + 1) body s'
  end.

Definition for_range {S : Type} (lo hi : Z)
    (body : Z → S → result S) (s : S) : result S :=
  for_count (Z.to_nat (hi - lo)) lo body s.

(** ** disjoint_sets.h: class DisjointSets *)

Module DisjointSets.

Record t : Type := mk {
  n : Z;          (* number of distinct elements *)
  k : Z;          (* number of subsets *)
  par : list Z    (* par[i] is the id of the parent of the i-th element *)
}.

(** [DisjointSets(ulonglong n)]: n singletons. *)
Definition new (n0 : Z) : t :=
  {| n := n0; k := n0; par := seqZ 0 n0 |}.

Definition get_k (ds : t) : Z := k ds.
Definition get_n (ds : t) : Z := n ds.

(** [find], recursive as in the source.  [depth] bounds the number of
    nested calls; a parent chain that never reaches a root makes the C++
    recursion run away, which is [Err no_termination].  The parameter is
    unsigned in the source: a negative [ssize_t] argument arrives as a
    value above [n] and is rejected by the same range test. *)
Fixpoint find_rec (depth : nat) (ds : t) (x : Z) : t * result Z :=
  match depth with
  | O => (ds, Err no_termination)
  | S d =>
    if (x <? 0) || (n ds <=? x) then (ds, Err domain_error)
    else
      match vget (par ds) x with
      | Err e => (ds, Err e)
      | Ok p =>
        if p =? x then (ds, Ok p)
        else
          match find_rec d ds p with
          | (ds1, Err e) => (ds1, Err e)
          | (ds1, Ok r) =>
            match vset (par ds1) x r with
            | Err e => (ds1, Err e)
            | Ok par' => ({| n := n ds1; k := k ds1; par := par' |}, Ok r)
            end
          end
      end
  end.

(** A chain of distinct elements has at most [n] nodes. *)
Definition find (ds : t) (x : Z) : t * result Z :=
  find_rec (S (length (par ds))) ds x.

Definition merge (ds : t) (x y : Z) : t * result Z :=
  match find ds x with
  | (ds1, Err e) => (ds1, Err e)
  | (ds1, Ok x1) =>
    match find ds1 y with
    | (ds2, Err e) => (ds2, Err e)
    | (ds2, Ok y1) =>
      if x1 =? y1 then (ds2, Err invalid_argument)
      else
        let '(x2, y2) := if y1 <? x1 then (y1, x1) else (x1, y1) in
        match vset (par ds2) y2 x2 with
        | Err e => (ds2, Err e)
        | Ok par' =>
          ({| n := n ds2; k := (k ds2 - 1) mod 2 ^ 64; par := par' |}, Ok x2)
        end
    end
  end.

(** *** Abstract view: the root of an element, as a pure function *)

Fixpoint root_rec (depth : nat) (p : list Z) (x : Z) : Z :=
  match depth with
  | O => x
  | S d =>
    match vget p x with
    | Ok y => if y =? x then x else root_rec d p y
    | Err _ => x
    end
  end.

Definition root (p : list Z) (x : Z) : Z := root_rec (length p) p x.

(** The nodes a call [find(x)] visits, from [x] up to the root. *)
Fixpoint path_rec (depth : nat) (p : list Z) (x : Z) : list Z :=
  match depth with
  | O => [x]
  | S d =>
    match vget p x with
    | Ok y => if y =? x then [x] else x :: path_rec d p y
    | Err _ => [x]
    end
  end.

Definition path (p : list Z) (x : Z) : list Z := path_rec (length p) p x.

(** The representation invariant of the class. *)
Definition wf (ds : t) : Prop :=
  Z.of_nat (length (par ds)) = n ds ∧
  ∀ i p : Z, vget (par ds) i = Ok p → 0 ≤ p ≤ i.

(** [par[i] ≤ i] for a bare parent vector. *)
Definition wfp (p : list Z) : Prop := ∀ i q, vget p i = Ok q → 0 ≤ q ≤ i.

(** The parent vector in which every node of the list points at [r]. *)
Definition compress (p : list Z) (nodes : list Z) (r : Z) : list Z :=
  foldr (λ y acc, upd acc y r) p nodes.

(** The calls a client can make on an object, and a sequence of them;
    a call that throws leaves the object as it was at the throw. *)
Inductive op : Set :=
| op_find (x : Z)
| op_merge (x y : Z).

Definition run_op (ds : t) (o : op) : t :=
  match o with
  | op_find x => (find ds x).1
  | op_merge x y => (merge ds x y).1
  end.

Definition run_ops (ds : t) (ops : list op) : t := foldl run_op ds ops.

End DisjointSets.

(** ** c_gini_disjoint_sets.h: class CGiniDisjointSets *)

Module GiniDisjointSets.

(** Modelled from the spec: the header [c_gini_disjoint_sets.h], which
    declares [CGiniDisjointSets], is not among the sources.  The
    specification (section 4.4) describes it as a plain union-find, with
    the union policy of [DisjointSets::merge], that answers three
    queries about the current partition: [get_count(x)], the size of the
    set containing [x]; [get_smallest_count()], the minimum size
    present; [get_gini()], the Gini index
    [Σ_{i=1..k} (2i - k - 1) s_i / ((k-1) Σ_i s_i)] of the sizes
    [s_1 ≤ … ≤ s_k] sorted ascendingly, and 0 when [k = 1].  The
    queries are computed here from the parent vector, and the Gini index
    is an exact rational. *)
Definition t : Type := DisjointSets.t.

(** Modelled from the spec: the constructor of [CGiniDisjointSets], which
    starts from the partition into [n0] singletons. *)
Definition new (n0 : Z) : t := DisjointSets.new n0.

(** Modelled from the spec: [CGiniDisjointSets::merge], with the union
    policy and the failure modes of [DisjointSets::merge]. *)
Definition merge (ds : t) (x y : Z) : t * result Z :=
  DisjointSets.merge ds x y.

Definition elements (ds : t) : list Z := seqZ 0 (DisjointSets.n ds).

(** The current roots, in ascending order, and the size of the set of a
    root: the multiset of set-sizes of the specification. *)
Definition roots (ds : t) : list Z :=
  filter (λ r, DisjointSets.root (DisjointSets.par ds) r = r) (elements ds).

Definition size_of (ds : t) (r : Z) : Z :=
  Z.of_nat (length
    (filter (λ y, DisjointSets.root (DisjointSets.par ds) y = r) (elements ds))).

Definition sizes (ds : t) : list Z := size_of ds <$> roots ds.

(** Modelled from the spec: [get_count(x)], the size of the set containing
    [x]; an [x] out of range is a domain error, as in [find]. *)
Definition get_count (ds : t) (x : Z) : result Z :=
  if (x <? 0) || (DisjointSets.n ds <=? x) then Err domain_error
  else Ok (size_of ds (DisjointSets.root (DisjointSets.par ds) x)).

(** Modelled from the spec: [get_smallest_count()], the minimum size
    present. *)
Definition get_smallest_count (ds : t) : Z :=
  match sizes ds with
  | [] => 0
  | s :: l => foldr Z.min s l
  end.

(** [Σ (2i - k - 1) s_i] over the sizes from rank [i] on. *)
Fixpoint gini_numerator (k i : Z) (s : list Z) : Z :=
  match s with
  | [] => 0
  | si :: s' => (2 * i - k - 1) * si + gini_numerator k (i + 1) s'
  end.

Definition sum_sizes (s : list Z) : Z := foldr Z.add 0 s.

(** Modelled from the spec: [get_gini()], the Gini index of the sizes
    sorted ascendingly, 0 for a single set. *)
Definition get_gini (ds : t) : Q :=
  let s := merge_sort Z.le (sizes ds) in
  let k := Z.of_nat (length s) in
  if k <=? 1 then 0%Q
  else Qmake (gini_numerator k 1 s) (Z.to_pos ((k - 1) * sum_sizes s)).

End GiniDisjointSets.

(** [a > b] on the exact Gini index and the threshold. *)
Definition Qgt_bool (a b : Q) : bool := negb (Qle_bool a b).

(** ** c_genie.h *)

(** [ind[2*i+0]] and [ind[2*i+1]]. *)
Definition edge_u (ind : list Z) (i : Z) : result Z := vget ind (2 * i + 0).
Definition edge_v (ind : list Z) (i : Z) : result Z := vget ind (2 * i + 1).

(** The body of the second loop of [Cget_graph_node_degrees]. *)
Definition degree_step (ind : list Z) (n : Z) (i : Z) (deg : list Z)
    : result (list Z) :=
  u <- edge_u ind i ;;
  v <- edge_v ind i ;;
  if (u <? 0) || (v <? 0) then Ok deg
  else if (n <=? u) || (n <=? v) then Err domain_error
  else if u =? v then Err domain_error
  else
    du <- vget deg u ;;
    deg1 <- vset deg u (du + 1) ;;
    dv <- vget deg1 v ;;
    vset deg1 v (dv + 1).

Definition Cget_graph_node_degrees (ind : list Z) (num_edges n : Z)
    (deg : list Z) : result (list Z) :=
  deg0 <- for_range 0 n (λ i deg, vset deg i 0) deg ;;
  for_range 0 num_edges (degree_step ind n) deg0.

(** The words of the contract of the degree computer: an edge slot with a
    negative endpoint is no edge; an edge is rejected when an endpoint is
    [≥ n] or when it is a self-loop; an accepted edge touches its two
    endpoints. *)
Definition edge_absent (u v : Z) : bool := (u <? 0) || (v <? 0).

Definition edge_rejected (ind : list Z) (n i : Z) : bool :=
  match edge_u ind i, edge_v ind i with
  | Ok u, Ok v => negb (edge_absent u v) && ((n <=? u) || (n <=? v) || (u =? v))
  | _, _ => false
  end.

Definition edge_touches (ind : list Z) (x i : Z) : bool :=
  match edge_u ind i, edge_v ind i with
  | Ok u, Ok v => negb (edge_absent u v) && ((u =? x) || (v =? x))
  | _, _ => false
  end.

(** The number of indices among [lo, lo+1, ..., lo+len-1] that satisfy [P]. *)
Definition count_range (P : Z → bool) (lo len : Z) : Z :=
  Z.of_nat (length (filter (λ i, P i = true) (seqZ lo len))).

(** The number of edges among [lo, ..., lo+len-1] that touch [x]. *)
Definition incident_count (ind : list Z) (x lo len : Z) : Z :=
  count_range (edge_touches ind x) lo len.

(** A leaf has degree 1; the vertices of degree above 1 are the inner
    vertices of a tree. *)
Definition is_leaf (dg : list Z) (x : Z) : bool :=
  match vget dg x with
  | Ok d => d =? 1
  | Err _ => false
  end.

Definition is_inner (dg : list Z) (x : Z) : bool :=
  match vget dg x with
  | Ok d => 1 <? d
  | Err _ => false
  end.

Definition leaf_count (dg : list Z) (n : Z) : Z := count_range (is_leaf dg) 0 n.
Definition inner_count (dg : list Z) (n : Z) : Z := count_range (is_inner dg) 0 n.

(** Edge [i] joins two inner vertices. *)
Definition inner_edge (dg ind : list Z) (i : Z) : bool :=
  match edge_u ind i, edge_v ind i with
  | Ok u, Ok v => is_inner dg u && is_inner dg v
  | _, _ => false
  end.

(** The edge list of the interface: [n-1] pairs of distinct vertices of
    [0..n-1]. *)
Definition edges_in_range (ind : list Z) (n : Z) : Prop :=
  ∀ j, 0 ≤ j < n - 1 →
    ∃ u v, edge_u ind j = Ok u ∧ edge_v ind j = Ok v ∧
      0 ≤ u < n ∧ 0 ≤ v < n ∧ u ≠ v.

Section Genie.

(** The template parameter [T] of the weights, with its [operator>]. *)
Context {T : Type} (T_gt : T → T → bool).

Record CGenie : Type := mkCGenie {
  mst_d : list T;              (* n-1 weights *)
  mst_i : list Z;              (* n-1 edges, given by (n-1)*2 indices *)
  n : Z;                       (* number of points *)
  noise_leaves : bool;         (* mark leaves as noise points? *)
  deg : list Z;
  noise_count : Z;
  denoise_index : list Z;
  denoise_index_rev : list Z;
  next_edge : list Z;
  prev_edge : list Z;
  curidx : Z;
  lastidx : Z;
  ds : GiniDisjointSets.t
}.

Definition set_skiplist (g : CGenie) (nxt prv : list Z) (cur last : Z) : CGenie :=
  {| mst_d := mst_d g; mst_i := mst_i g; n := n g;
     noise_leaves := noise_leaves g; deg := deg g;
     noise_count := noise_count g; denoise_index := denoise_index g;
     denoise_index_rev := denoise_index_rev g;
     next_edge := nxt; prev_edge := prv; curidx := cur; lastidx := last;
     ds := ds g |}.

Definition set_ds (g : CGenie) (d : GiniDisjointSets.t) : CGenie :=
  {| mst_d := mst_d g; mst_i := mst_i g; n := n g;
     noise_leaves := noise_leaves g; deg := deg g;
     noise_count := noise_count g; denoise_index := denoise_index g;
     denoise_index_rev := denoise_index_rev g;
     next_edge := next_edge g; prev_edge := prev_edge g;
     curidx := curidx g; lastidx := lastidx g;
     ds := d |}.

(** The weights [i-1] and [i] are in the wrong order. *)
Definition unsorted_at (d : list T) (i : Z) : bool :=
  match vget d (i - 1), vget d i with
  | Ok a, Ok b => T_gt a b
  | _, _ => false
  end.

(** The loop of the constructor that rejects unsorted weights. *)
Definition check_sorted (d : list T) (n0 : Z) : result unit :=
  for_range 1 (n0 - 1) (λ i _,
    a <- vget d (i - 1) ;;
    b <- vget d i ;;
    if T_gt a b then Err domain_error else Ok tt) tt.

(** The loop of the constructor that builds the translation table of the
    non-noise points; the loop state is
    [(noise_count, j, denoise_index, denoise_index_rev)]. *)
Definition denoise_loop (dg : list Z) (n0 : Z) (zeros : list Z)
    : result (Z * Z * list Z * list Z) :=
  for_range 0 n0 (λ i '(nc, j, di, dir),
    d <- vget dg i ;;
    if d =? 1 then
      dir' <- vset dir i (-1) ;;
      Ok (nc + 1, j, di, dir')
    else
      di' <- vset di j i ;;
      dir' <- vset dir i j ;;
      Ok (nc, j + 1, di', dir')) (0, 0, zeros, zeros).

Definition identity_loop (n0 : Z) (zeros : list Z)
    : result (list Z * list Z) :=
  for_range 0 n0 (λ i '(di, dir),
    di' <- vset di i i ;;
    dir' <- vset dir i i ;;
    Ok (di', dir')) (zeros, zeros).

(** [CGenie(mst_d, mst_i, n, noise_leaves)].  The five vectors are
    created with [n] zeros; [curidx] and [lastidx] are not initialised
    by the constructor (0 here) and are set by [skiplist_init]. *)
Definition CGenie_new (d : list T) (ind : list Z) (n0 : Z) (nl : bool)
    : result CGenie :=
  if n0 <? 0 then Err length_error
  else
    let zeros := replicate (Z.to_nat n0) 0 in
    _ <- check_sorted d n0 ;;
    dg <- Cget_graph_node_degrees ind (n0 - 1) n0 zeros ;;
    if nl then
      st <- denoise_loop dg n0 zeros ;;
      let '(nc, j, di, dir) := st in
      if negb (2 <=? nc) then Err runtime_error
      else if negb (j + nc =? n0) then Err runtime_error
      else Ok (mkCGenie d ind n0 nl dg nc di dir zeros zeros 0 0
                 (GiniDisjointSets.new 0))
    else
      st <- identity_loop n0 zeros ;;
      let '(di, dir) := st in
      Ok (mkCGenie d ind n0 nl dg 0 di dir zeros zeros 0 0
            (GiniDisjointSets.new 0)).

(** The noise-leaves loop of [skiplist_init]; the loop state is
    [(curidx, lastidx, next_edge, prev_edge)]. *)
Definition skiplist_noise_loop (g : CGenie)
    : result (Z * Z * list Z * list Z) :=
  for_range 0 (n g - 1) (λ i '(cur, last, nxt, prv),
    i1 <- edge_u (mst_i g) i ;;
    i2 <- edge_v (mst_i g) i ;;
    d1 <- vget (deg g) i1 ;;
    both <- (if 1 <? d1 then d2 <- vget (deg g) i2 ;; Ok (1 <? d2)
             else Ok false) ;;
    if both : bool then
      if cur <? 0 then
        prv' <- vset prv i (-1) ;;
        Ok (i, i, nxt, prv')
      else
        nxt' <- vset nxt last i ;;
        prv' <- vset prv i last ;;
        Ok (cur, i, nxt', prv')
    else Ok (cur, last, nxt, prv))
    (-1, -1, next_edge g, prev_edge g).

(** The loop of [skiplist_init] without noise leaves; the loop state is
    [(next_edge, prev_edge)]. *)
Definition skiplist_chain_loop (g : CGenie) : result (list Z * list Z) :=
  for_range 0 (n g - 1) (λ i '(nxt, prv),
    nxt' <- vset nxt i (i + 1) ;;
    prv' <- vset prv i (i - 1) ;;
    Ok (nxt', prv')) (next_edge g, prev_edge g).

Definition skiplist_init (g : CGenie) : result CGenie :=
  if noise_leaves g then
    st <- skiplist_noise_loop g ;;
    let '(cur, last, nxt, prv) := st in
    nxt' <- vset nxt last (n g - 1) ;;
    Ok (set_skiplist g nxt' prv cur cur)
  else
    st <- skiplist_chain_loop g ;;
    let '(nxt, prv) := st in
    Ok (set_skiplist g nxt prv 0 0).

(** [ds.get_count(denoise_index_rev[v])]. *)
Definition count_of (g : CGenie) (v : Z) : result Z :=
  a <- vget (denoise_index_rev g) v ;;
  GiniDisjointSets.get_count (ds g) a.

(** The [while] loop of the Genie branch: the forward walk from
    [lastidx] to the first edge with an endpoint in a cluster of size
    [m].  The result is the final [lastidx]. *)
Fixpoint genie_walk (fuel : nat) (g : CGenie) (m last : Z) : result Z :=
  match fuel with
  | O => Err no_termination
  | S f =>
    i1 <- edge_u (mst_i g) last ;;
    c1 <- count_of g i1 ;;
    if negb (c1 =? m) then
      i2 <- edge_v (mst_i g) last ;;
      c2 <- count_of g i2 ;;
      if negb (c2 =? m) then
        nx <- vget (next_edge g) last ;;
        genie_walk f g m nx
      else Ok last
    else Ok last
  end.

(** The Genie branch up to the choice of the edge: the result is the
    chosen pair [(i1, i2)], the engine with the edge taken out of the
    skip-list, and [m]. *)
Definition genie_branch (g : CGenie) (lastm : Z)
    : result (Z * Z * CGenie * Z) :=
  let m := GiniDisjointSets.get_smallest_count (ds g) in
  let last0 :=
    if negb (m =? lastm) || (lastidx g <? curidx g) then curidx g
    else lastidx g in
  last1 <- genie_walk (S (length (next_edge g))) g m last0 ;;
  i1 <- edge_u (mst_i g) last1 ;;
  i2 <- edge_v (mst_i g) last1 ;;
  g1 <- (if last1 =? curidx g then
           nx <- vget (next_edge g) (curidx g) ;;
           Ok (set_skiplist g (next_edge g) (prev_edge g) nx nx)
         else
           previdx <- vget (prev_edge g) last1 ;;
           last2 <- vget (next_edge g) last1 ;;
           nxt' <- vset (next_edge g) previdx last2 ;;
           prv' <- vset (prev_edge g) last2 previdx ;;
           Ok (set_skiplist g nxt' prv' (curidx g) last2)) ;;
  Ok (i1, i2, g1, m).

Definition single_linkage_branch (g : CGenie) (lastm : Z)
    : result (Z * Z * CGenie * Z) :=
  i1 <- edge_u (mst_i g) (curidx g) ;;
  i2 <- edge_v (mst_i g) (curidx g) ;;
  nx <- vget (next_edge g) (curidx g) ;;
  Ok (i1, i2, set_skiplist g (next_edge g) (prev_edge g) nx (lastidx g), lastm).

(** [ds.merge(denoise_index_rev[i1], denoise_index_rev[i2])]. *)
Definition merge_edge (g : CGenie) (i1 i2 : Z) : result CGenie :=
  a <- vget (denoise_index_rev g) i1 ;;
  b <- vget (denoise_index_rev g) i2 ;;
  match GiniDisjointSets.merge (ds g) a b with
  | (_, Err e) => Err e
  | (d, Ok _) => Ok (set_ds g d)
  end.

(** One iteration of the loop of [do_genie]; the loop state is the
    engine and [lastm]. *)
Definition genie_iteration (gini_threshold : Q) (st : CGenie * Z)
    : result (CGenie * Z) :=
  let '(g, lastm) := st in
  ch <-
    (if Qgt_bool (GiniDisjointSets.get_gini (ds g)) gini_threshold
     then genie_branch g lastm
     else single_linkage_branch g lastm) ;;
  let '(i1, i2, g1, lastm1) := ch in
  g2 <- merge_edge g1 i1 i2 ;;
  Ok (g2, lastm1).

Definition do_genie (g : CGenie) (n_clusters : Z) (gini_threshold : Q)
    : result CGenie :=
  if n g - noise_count g - n_clusters <=? 0 then Err runtime_error
  else
    let g0 := set_ds g (GiniDisjointSets.new (n g - noise_count g)) in
    st <- for_range 0 (n g - noise_count g - n_clusters)
            (λ _ st, genie_iteration gini_threshold st) (g0, 0) ;;
    Ok (fst st).

(** The largest value of an [int], 32 bits wide. *)
Definition INT_MAX : Z := 2 ^ 31 - 1.

(** The body of the loop of [get_labels]; the loop state is
    [(ds, res_cluster_id, c, res)].  [++c] on an [int] that holds
    [INT_MAX] overflows. *)
Definition label_step (g : CGenie) (i : Z)
    (st : DisjointSets.t * list Z * Z * list Z)
    : result (DisjointSets.t * list Z * Z * list Z) :=
  let '(d, rci, c, res) := st in
  r <- vget (denoise_index_rev g) i ;;
  if 0 <=? r then
    match DisjointSets.find d r with
    | (_, Err e) => Err e
    | (d1, Ok f) =>
      j <- vget (denoise_index g) f ;;
      cid <- vget rci j ;;
      up <- (if cid <? 0
             then rci' <- vset rci j c ;;
                  if c <? INT_MAX then Ok (rci', c + 1) else Err int_overflow
             else Ok (rci, c)) ;;
      lab <- vget (fst up) j ;;
      res1 <- vset res i lab ;;
      Ok (d1, fst up, snd up, res1)
    end
  else
    res1 <- vset res i (-1) ;;
    Ok (d, rci, c, res1).

Definition get_labels (g : CGenie) (res : list Z)
    : result (CGenie * list Z) :=
  st <- for_range 0 (n g) (label_step g)
          (ds g, replicate (Z.to_nat (n g)) (-1), 0, res) ;;
  let '(d, _, _, res') := st in
  Ok (set_ds g d, res').

(** [apply_genie(n_clusters, gini_threshold, res)]: the result is the
    content of the caller's buffer [res]. *)
Definition apply_genie (g : CGenie) (n_clusters : Z) (gini_threshold : Q)
    (res : list Z) : result (list Z) :=
  g1 <- skiplist_init g ;;
  g2 <- do_genie g1 n_clusters gini_threshold ;;
  gr <- get_labels g2 res ;;
  Ok (snd gr).

End Genie.

(** The whole pipeline on integer weights: construction, then [apply]. *)
Definition genie (d : list Z) (ind : list Z) (n0 : Z) (nl : bool)
    (n_clusters : Z) (gini_threshold : Q) : result (list Z) :=
  g <- CGenie_new Z.gtb d ind n0 nl ;;
  apply_genie g n_clusters gini_threshold (replicate (Z.to_nat n0) 0).

(** ** Single linkage, in the words of the specification *)

(** Two vertices are connected by the edges [0, ..., m-1]. *)
Inductive connected (ind : list Z) (m : Z) : Z → Z → Prop :=
| connected_refl a : connected ind m a a
| connected_edge j u v :
    0 ≤ j < m → edge_u ind j = Ok u → edge_v ind j = Ok v →
    connected ind m u v
| connected_sym a b : connected ind m a b → connected ind m b a
| connected_trans a b c :
    connected ind m a b → connected ind m b c → connected ind m a c.

(** The [n-1] edges close no cycle: no edge joins two vertices that the
    edges before it connect.  With [edges_in_range] this makes the edge
    list a spanning tree of [0..n-1]. *)
Definition forest (ind : list Z) (n : Z) : Prop :=
  ∀ j u v, 0 ≤ j < n - 1 → edge_u ind j = Ok u → edge_v ind j = Ok v →
    ¬ connected ind j u v.

(** The union-find [d] over [n0] elements is the partition into the
    components of the edges [0, ..., m-1]. *)
Definition partition_of (ind : list Z) (m : Z) (d : DisjointSets.t) (n0 : Z)
    : Prop :=
  DisjointSets.wf d ∧ DisjointSets.n d = n0 ∧
  (∀ a b, connected ind m a b →
     DisjointSets.root (DisjointSets.par d) a
       = DisjointSets.root (DisjointSets.par d) b) ∧
  (∀ a b, 0 ≤ a < n0 → 0 ≤ b < n0 →
     DisjointSets.root (DisjointSets.par d) a
       = DisjointSets.root (DisjointSets.par d) b →
     connected ind m a b).

(** The cut of pure single linkage: merge the endpoints of the edges
    [0, ..., m-1] in this order, starting from the singletons. *)
Definition cut_step (ind : list Z) (j : Z) (d : DisjointSets.t)
    : result DisjointSets.t :=
  u <- edge_u ind j ;;
  v <- edge_v ind j ;;
  match DisjointSets.merge d u v with
  | (_, Err e) => Err e
  | (d', Ok _) => Ok d'
  end.

Definition single_linkage_cut (ind : list Z) (n m : Z) : result DisjointSets.t :=
  for_range 0 m (cut_step ind) (DisjointSets.new n).

(** ** The scenarios of the specification *)

(** The path on five vertices, edges in the order of their weights. *)
Definition path5 : list Z := [0; 1; 1; 2; 2; 3; 3; 4].

(** The star on five vertices with centre 0. *)
Definition star5 : list Z := [0; 1; 0; 2; 0; 3; 0; 4].

(** The path on five vertices whose middle edge [(1,2)] is the third
    lightest: the engine after construction and [skiplist_init]. *)
Definition path5_middle_last : @CGenie Z :=
  mkCGenie [1; 2; 3; 4] [0; 1; 2; 3; 1; 2; 3; 4] 5 false [1; 2; 2; 2; 1] 0
    [0; 1; 2; 3; 4] [0; 1; 2; 3; 4] [1; 2; 3; 4; 0] [-1; 0; 1; 2; 0] 0 0
    (DisjointSets.new 0).

(** The same engine after two iterations of a run with threshold 0:
    [{0,1}], [{2,3}] and [{4}] are the clusters, the edges [(0,1)] and
    [(2,3)] are consumed, and the last Genie step looked for a cluster of
    size 1. *)
Definition path5_two_pairs : @CGenie Z :=
  mkCGenie [1; 2; 3; 4] [0; 1; 2; 3; 1; 2; 3; 4] 5 false [1; 2; 2; 2; 1] 0
    [0; 1; 2; 3; 4] [0; 1; 2; 3; 4] [1; 2; 3; 4; 0] [-1; 0; 1; 2; 0] 2 2
    (DisjointSets.mk 5 3 [0; 0; 2; 2; 4]).

(** One iteration later: the edge [(3,4)] was spliced out of the
    skip-list, past the edge [(1,2)], and [{4}] joined [{2,3}]. *)
Definition path5_pair_and_triple : @CGenie Z :=
  mkCGenie [1; 2; 3; 4] [0; 1; 2; 3; 1; 2; 3; 4] 5 false [1; 2; 2; 2; 1] 0
    [0; 1; 2; 3; 4] [0; 1; 2; 3; 4] [1; 2; 4; 4; 0] [-1; 0; 1; 2; 2] 2 4
    (DisjointSets.mk 5 2 [0; 0; 2; 2; 2]).

(** ** Notions used by the further properties *)

(** The number of sets of the partition: the elements that are their own
    root. *)
Definition set_count (ds : DisjointSets.t) : Z :=
  count_range (λ r, DisjointSets.root (DisjointSets.par ds) r =? r)
    0 (DisjointSets.n ds).

(** The sum of the cells of an array. *)
Definition zsum (v : list Z) : Z := foldr Z.add 0 v.

(** Edge slot [i] holds an edge: both endpoints are non-negative. *)
Definition edge_present (ind : list Z) (i : Z) : bool :=
  match edge_u ind i, edge_v ind i with
  | Ok u, Ok v => negb (edge_absent u v)
  | _, _ => false
  end.

(** Cell [r] of [res_cluster_id] holds a label. *)
Definition labelled (rci : list Z) (r : Z) : bool :=
  match vget rci r with
  | Ok l => 0 <=? l
  | Err _ => false
  end.

(** No edge strictly between [a] and [b] joins two inner vertices. *)
Definition inner_gap (dg ind : list Z) (a b : Z) : Prop :=
  ∀ j, a < j < b → inner_edge dg ind j = false.

(** ** Notions used by the total correctness of the merge driver *)

(** The size of the set of [x]: the answer of [get_count(x)]. *)
Definition set_size (d : DisjointSets.t) (x : Z) : Z :=
  GiniDisjointSets.size_of d (DisjointSets.root (DisjointSets.par d) x).

(** A set of edges without the edge [e]. *)
Definition without (alive : Z → bool) (e : Z) : Z → bool :=
  λ j, alive j && negb (j =? e).

(** The union-find after an attempt to merge the endpoints [ea j] and
    [eb j] of every edge [j < m] that satisfies [K], in ascending order;
    an attempt that throws leaves the object as it was at the throw. *)
Fixpoint merge_upto (K : Z → bool) (ea eb : Z → Z) (d : DisjointSets.t)
    (m : nat) : DisjointSets.t :=
  match m with
  | O => d
  | S m' =>
    let d1 := merge_upto K ea eb d m' in
    if K (Z.of_nat m')
    then (DisjointSets.merge d1 (ea (Z.of_nat m')) (eb (Z.of_nat m'))).1
    else d1
  end.

(** The state of the merges on a tree: [d] is a well-formed union-find
    over [N] elements with [N - i] sets; the edges of [alive] are edges of
    the tree [K], [N - 1 - i] in number, and every other edge of the tree
    has its endpoints in one set. *)
Definition tree_state (K : Z → bool) (ea eb : Z → Z) (M N : Z)
    (d : DisjointSets.t) (alive : Z → bool) (i : Z) : Prop :=
  DisjointSets.wf d ∧ DisjointSets.n d = N ∧ set_count d = N - i ∧
  (∀ j, alive j = true → K j = true) ∧
  count_range alive 0 M = N - 1 - i ∧
  (∀ j, K j = true → alive j = false →
     DisjointSets.root (DisjointSets.par d) (ea j)
       = DisjointSets.root (DisjointSets.par d) (eb j)).

(** The union-find elements of the endpoints of edge [j]:
    [denoise_index_rev[mst_i[2*j+0]]] and [denoise_index_rev[mst_i[2*j+1]]]. *)
Definition elem_u (ind dir : list Z) (j : Z) : Z :=
  match edge_u ind j with
  | Ok u => match vget dir u with Ok a => a | Err _ => 0 end
  | Err _ => 0
  end.

Definition elem_v (ind dir : list Z) (j : Z) : Z :=
  match edge_v ind j with
  | Ok v => match vget dir v with Ok b => b | Err _ => 0 end
  | Err _ => 0
  end.

(** The skip-list threads the edges of [alive] in ascending order:
    [cur] is the first of them, [nxt] leads from each to the next one and
    from the last one to the sentinel [M], and [prv] leads from each but
    the first to the one before. *)
Definition skip_inv (M : Z) (alive : Z → bool) (nxt prv : list Z) (cur : Z)
    : Prop :=
  Z.of_nat (length nxt) = M + 1 ∧ Z.of_nat (length prv) = M + 1 ∧
  (∀ j, alive j = true → 0 ≤ j < M) ∧
  0 ≤ cur ≤ M ∧ (∀ j, j < cur → alive j = false) ∧
  (cur < M → alive cur = true) ∧
  (∀ e, alive e = true →
     ∃ e', vget nxt e = Ok e' ∧ e < e' ≤ M ∧
       (∀ j, e < j < e' → alive j = false) ∧ (e' < M → alive e' = true)) ∧
  (∀ e, alive e = true → cur < e →
     ∃ e', vget prv e = Ok e' ∧ cur ≤ e' < e ∧ alive e' = true ∧
       (∀ j, e' < j < e → alive j = false)).

(** What the driver remembers of its last walk: unless [last] is behind
    the cursor, it is on the skip-list, and no edge of the skip-list
    before it touches a set of size [lastm]. *)
Definition last_inv (M : Z) (alive : Z → bool) (d : DisjointSets.t)
    (ea eb : Z → Z) (cur last lastm : Z) : Prop :=
  last < cur ∨
  (last ≤ M ∧ (last < M → alive last = true) ∧
   ∀ j, alive j = true → j < last →
     set_size d (ea j) ≠ lastm ∧ set_size d (eb j) ≠ lastm).

(** The invariant of the loop of [do_genie] on a tree: the state after
    [i] iterations. *)
Definition genie_inv {T : Type} (ind dir : list Z) (K : Z → bool) (M N : Z)
    (g : @CGenie T) (lastm i : Z) : Prop :=
  mst_i g = ind ∧ denoise_index_rev g = dir ∧
  ∃ alive,
    tree_state K (elem_u ind dir) (elem_v ind dir) M N (ds g) alive i ∧
    skip_inv M alive (next_edge g) (prev_edge g) (curidx g) ∧
    (∀ x, 0 ≤ x < N → lastm ≤ set_size (ds g) x) ∧
    last_inv M alive (ds g) (elem_u ind dir) (elem_v ind dir)
      (curidx g) (lastidx g) lastm.

(** The edges that [skiplist_init] threads: all of them without noise
    leaves, the edges between two inner vertices with noise leaves. *)
Definition kept_edge (nl : bool) (dg ind : list Z) (j : Z) : bool :=
  if nl then inner_edge dg ind j else true.

(** The kept edges among the [n - 1] edges of the input. *)
Definition tree_edge (nl : bool) (dg ind : list Z) (n j : Z) : bool :=
  (0 <=? j) && (j <? n - 1) && kept_edge nl dg ind j.

(** The endpoints of edge [j], as points. *)
Definition end_u (ind : list Z) (j : Z) : Z :=
  match edge_u ind j with Ok u => u | Err _ => 0 end.

Definition end_v (ind : list Z) (j : Z) : Z :=
  match edge_v ind j with Ok v => v | Err _ => 0 end.

(** An edge among the first [m] that touches [x]. *)
Fixpoint touching (ind : list Z) (x : Z) (m : nat) : option Z :=
  match m with
  | O => None
  | S m' =>
    if edge_touches ind x (Z.of_nat m') then Some (Z.of_nat m')
    else touching ind x m'
  end.

(** A function on the inner vertices, extended to the leaves: a leaf
    takes the value of the other end of its edge, and 0 when that is a
    leaf too. *)
Definition extend_to_leaves (f : Z → Z) (dg ind : list Z) (m : nat) (x : Z)
    : Z :=
  if is_leaf dg x then
    match touching ind x m with
    | Some j =>
      if is_leaf dg (end_u ind j) && is_leaf dg (end_v ind j) then 0
      else if is_leaf dg (end_u ind j) then f (end_v ind j)
      else f (end_u ind j)
    | None => 0
    end
  else f x.

(** The edges of [K] that are below [m] taken away from the edges of
    [A]. *)
Definition but_below (A K : Z → bool) (m : Z) : Z → bool :=
  λ j, A j && negb (K j && (j <? m)).


(** * Properties *)

(** ** Arrays and loops *)

Section Arrays.
Context {A : Type}.
Implicit Types (v : list A) (i j : Z) (a : A).

Lemma vget_Ok v i a :
  vget v i = Ok a ↔ 0 ≤ i ∧ v !! Z.to_nat i = Some a.
Proof.
  unfold vget. destruct (Z.ltb_spec i 0).
  - split; [discriminate | lia].
  - destruct (v !! Z.to_nat i) eqn:E; split; intros H1;
      try discriminate; try (destruct H1; congruence).
    split; [lia | congruence].
Qed.

Lemma vget_range v i a : vget v i = Ok a → 0 ≤ i < Z.of_nat (length v).
Proof.
  intros [H1 H2]%vget_Ok. apply lookup_lt_Some in H2. lia.
Qed.

Lemma vget_total v i :
  0 ≤ i < Z.of_nat (length v) → ∃ a, vget v i = Ok a.
Proof.
  intros H. destruct (lookup_lt_is_Some_2 v (Z.to_nat i)) as [a Ha]; [lia|].
  exists a. apply vget_Ok. split; [lia | done].
Qed.

Lemma vget_Err v i e :
  vget v i = Err e → e = out_of_bounds ∧ ¬ 0 ≤ i < Z.of_nat (length v).
Proof.
  intros H. split.
  - unfold vget in H. destruct (i <? 0); [congruence|].
    destruct (v !! Z.to_nat i); congruence.
  - intros Hr. destruct (vget_total v i Hr) as [a Ha]. congruence.
Qed.

Lemma length_upd v i a : length (upd v i a) = length v.
Proof. apply length_insert. Qed.

Lemma vset_Ok v i a v' :
  vset v i a = Ok v' ↔ 0 ≤ i < Z.of_nat (length v) ∧ v' = upd v i a.
Proof.
  unfold vset.
  destruct (Z.ltb_spec i 0); destruct (Z.leb_spec (Z.of_nat (length v)) i);
    simpl; split; intros H1; try discriminate; try lia.
  - split; [lia | congruence].
  - destruct H1; congruence.
Qed.

Lemma vset_total v i a :
  0 ≤ i < Z.of_nat (length v) → vset v i a = Ok (upd v i a).
Proof. intros H. by apply vset_Ok. Qed.

Lemma vget_upd_eq v i a :
  0 ≤ i < Z.of_nat (length v) → vget (upd v i a) i = Ok a.
Proof.
  intros H. apply vget_Ok. split; [lia|].
  apply list_lookup_insert_eq. lia.
Qed.

Lemma vget_upd_ne v i j a :
  0 ≤ i → i ≠ j → vget (upd v i a) j = vget v j.
Proof.
  intros Hi Hne. unfold vget, upd. destruct (Z.ltb_spec j 0); [done|].
  rewrite list_lookup_insert_ne; [done | lia].
Qed.

Lemma upd_id v i a : vget v i = Ok a → upd v i a = v.
Proof. intros [_ H]%vget_Ok. by apply list_insert_id. Qed.

Lemma vget_replicate (m : nat) a i :
  0 ≤ i < Z.of_nat m → vget (replicate m a) i = Ok a.
Proof.
  intros H. apply vget_Ok. split; [lia|].
  apply lookup_replicate_2. lia.
Qed.
End Arrays.

Lemma bind_Ok {A B : Type} (r : result A) (f : A → result B) (b : B) :
  bind r f = Ok b ↔ ∃ a, r = Ok a ∧ f a = Ok b.
Proof.
  destruct r as [a|e]; simpl; split.
  - eauto.
  - by intros (a' & [= <-] & H).
  - discriminate.
  - by intros (a' & H & _).
Qed.

(** The rule of a counted loop: an invariant that every iteration
    re-establishes holds at the exit, and the loop does come back. *)
Lemma for_range_inv {S : Type} (Inv : Z → S → Prop) (lo hi : Z)
    (body : Z → S → result S) (s : S) :
  lo ≤ hi →
  Inv lo s →
  (∀ i s0, lo ≤ i < hi → Inv i s0 → ∃ s1, body i s0 = Ok s1 ∧ Inv (i + 1) s1) →
  ∃ s', for_range lo hi body s = Ok s' ∧ Inv hi s'.
Proof.
  unfold for_range. intros Hle.
  remember (Z.to_nat (hi - lo)) as c eqn:Hc.
  revert lo s Hle Hc. induction c as [|c IH]; intros lo s Hle Hc H0 Hstep.
  - simpl. exists s. split; [done|]. by replace hi with lo by lia.
  - simpl. destruct (Hstep lo s) as (s1 & -> & H1); [lia | done |].
    simpl. apply IH; [lia | lia | done |].
    intros i s0 Hi. apply Hstep. lia.
Qed.

(** The same rule for a loop whose iterations may stop with a known
    failure: the loop comes back with the invariant, or with that failure. *)
Lemma for_range_inv_err {S : Type} (Inv : Z → S → Prop) (E : error → Prop)
    (lo hi : Z) (body : Z → S → result S) (s : S) :
  lo ≤ hi →
  Inv lo s →
  (∀ i s0, lo ≤ i < hi → Inv i s0 →
     (∃ s1, body i s0 = Ok s1 ∧ Inv (i + 1) s1) ∨
     (∃ e, body i s0 = Err e ∧ E e)) →
  (∃ s', for_range lo hi body s = Ok s' ∧ Inv hi s') ∨
  (∃ e, for_range lo hi body s = Err e ∧ E e).
Proof.
  unfold for_range. intros Hle.
  remember (Z.to_nat (hi - lo)) as c eqn:Hc.
  revert lo s Hle Hc. induction c as [|c IH]; intros lo s Hle Hc H0 Hstep.
  - simpl. left. exists s. split; [done|]. by replace hi with lo by lia.
  - simpl. destruct (Hstep lo s) as [(s1 & -> & H1)|(e & -> & He)]; [lia | done | |].
    + simpl. apply IH; [lia | lia | done |].
      intros i s0 Hi. apply Hstep. lia.
    + simpl. right. by exists e.
Qed.

Lemma for_range_empty {S : Type} (lo hi : Z) (body : Z → S → result S) (s : S) :
  hi ≤ lo → for_range lo hi body s = Ok s.
Proof.
  intros H. unfold for_range. by replace (Z.to_nat (hi - lo)) with O by lia.
Qed.

Lemma Z_strong_ind (P : Z → Prop) :
  (∀ x, 0 ≤ x → (∀ y, 0 ≤ y < x → P y) → P x) → ∀ x, 0 ≤ x → P x.
Proof.
  intros H x Hx.
  apply (Z_lt_induction (λ z, 0 ≤ z → P z)); [|done|done].
  intros z IH Hz. apply H; [done|]. intros y Hy. apply IH; lia.
Qed.

(** ** The union-find: roots, path compression, union *)

Module DisjointSetsFacts.
Import DisjointSets.

Lemma wf_wfp ds : wf ds → wfp (par ds).
Proof. by intros [_ H]. Qed.

Lemma wf_new m : 0 ≤ m → wf (new m).
Proof.
  intros Hm. split; simpl.
  - rewrite length_seqZ. lia.
  - intros i p [Hi Hp]%vget_Ok. apply lookup_seqZ in Hp. lia.
Qed.

Lemma vget_new m i : 0 ≤ i < m → vget (par (new m)) i = Ok i.
Proof.
  intros H. apply vget_Ok. split; [lia|]. simpl.
  apply lookup_seqZ. lia.
Qed.

Lemma root_rec_irrel d1 d2 p x :
  wfp p → x < Z.of_nat d1 → x < Z.of_nat d2 →
  root_rec d1 p x = root_rec d2 p x.
Proof.
  intros Hw. revert d2 x. induction d1 as [|d1 IH]; intros d2 x H1 H2.
  - destruct d2 as [|d2]; simpl; [done|].
    destruct (vget p x) as [y|] eqn:E; [|done]. apply vget_range in E. lia.
  - destruct d2 as [|d2]; simpl.
    + destruct (vget p x) as [y|] eqn:E; [|done]. apply vget_range in E. lia.
    + destruct (vget p x) as [y|] eqn:E; [|done].
      destruct (Z.eqb_spec y x); [done|].
      pose proof (Hw _ _ E). apply IH; lia.
Qed.

Lemma root_rec_S d p x :
  root_rec (S d) p x =
    match vget p x with
    | Ok y => if y =? x then x else root_rec d p y
    | Err _ => x
    end.
Proof. done. Qed.

Lemma root_step p x y :
  wfp p → vget p x = Ok y → root p x = if y =? x then x else root p y.
Proof.
  intros Hw E. unfold root. pose proof (vget_range _ _ _ E) as Hr.
  destruct (length p) as [|d] eqn:El; [lia|].
  rewrite (root_rec_S d p x), E.
  destruct (Z.eqb_spec y x); [done|].
  pose proof (Hw _ _ E). apply root_rec_irrel; [done | lia | lia].
Qed.

Lemma root_outside p x :
  ¬ 0 ≤ x < Z.of_nat (length p) → root p x = x.
Proof.
  intros H. unfold root. destruct (length p) eqn:El; simpl; [done|].
  destruct (vget p x) as [y|] eqn:E; [|done]. apply vget_range in E. lia.
Qed.

Lemma root_self p x : vget p x = Ok x → root p x = x.
Proof.
  intros E. unfold root. destruct (length p); simpl; [done|].
  rewrite E. by rewrite Z.eqb_refl.
Qed.

Lemma root_bounds p x : wfp p → 0 ≤ x → 0 ≤ root p x ≤ x.
Proof.
  intros Hw Hx. revert x Hx. apply (Z_strong_ind (λ x, 0 ≤ root p x ≤ x)).
  intros x Hx IH. destruct (vget p x) as [y|e] eqn:E.
  - rewrite (root_step _ _ _ Hw E). destruct (Z.eqb_spec y x); [lia|].
    pose proof (Hw _ _ E). specialize (IH y). lia.
  - rewrite root_outside; [lia|]. by apply vget_Err in E as [_ ?].
Qed.

Lemma root_is_root p x :
  wfp p → 0 ≤ x < Z.of_nat (length p) → vget p (root p x) = Ok (root p x).
Proof.
  intros Hw [Hx Hl]. revert x Hx Hl.
  apply (Z_strong_ind
    (λ x, x < Z.of_nat (length p) → vget p (root p x) = Ok (root p x))).
  intros x Hx IH Hl.
  destruct (vget_total p x) as [y E]; [lia|].
  rewrite (root_step _ _ _ Hw E). destruct (Z.eqb_spec y x) as [->|Hne].
  - done.
  - pose proof (Hw _ _ E). apply IH; lia.
Qed.

Lemma root_root p x : wfp p → 0 ≤ x → root p (root p x) = root p x.
Proof.
  intros Hw Hx. destruct (Z.lt_ge_cases x (Z.of_nat (length p))).
  - apply root_self, root_is_root; [done | lia].
  - rewrite (root_outside p x); [|lia]. apply root_outside. lia.
Qed.

Lemma root_parent p x y : wfp p → vget p x = Ok y → root p y = root p x.
Proof.
  intros Hw E. rewrite (root_step _ _ _ Hw E).
  destruct (Z.eqb_spec y x) as [->|]; [|done]. by apply root_self.
Qed.

(** Two parent vectors of the same length in which every parent was
    either kept or replaced by the root have the same roots. *)
Lemma root_compressed p p' :
  wfp p → wfp p' → length p' = length p →
  (∀ y q, vget p' y = Ok q → vget p y = Ok q ∨ q = root p y) →
  ∀ y, root p' y = root p y.
Proof.
  intros Hw Hw' Hlen Hc y. destruct (Z.lt_ge_cases y 0) as [Hneg|Hpos].
  { rewrite !root_outside; [done | lia | lia]. }
  revert y Hpos. apply (Z_strong_ind (λ y, root p' y = root p y)).
  intros y Hy IH. destruct (vget p' y) as [q|e] eqn:E.
  - rewrite (root_step _ _ _ Hw' E). pose proof (Hw' _ _ E) as Hq.
    destruct (Hc _ _ E) as [E0 | ->].
    + rewrite (root_step _ _ _ Hw E0).
      destruct (Z.eqb_spec q y); [done|]. apply IH. lia.
    + destruct (Z.eqb_spec (root p y) y) as [Heq|Hne]; [done|].
      rewrite IH; [|lia]. apply root_root; [done | lia].
  - apply vget_Err in E as [_ E]. rewrite !root_outside; [done | lia | lia].
Qed.

(** *** The path of [find] *)

Lemma path_rec_irrel d1 d2 p x :
  wfp p → x < Z.of_nat d1 → x < Z.of_nat d2 →
  path_rec d1 p x = path_rec d2 p x.
Proof.
  intros Hw. revert d2 x. induction d1 as [|d1 IH]; intros d2 x H1 H2.
  - destruct d2 as [|d2]; simpl; [done|].
    destruct (vget p x) as [y|] eqn:E; [|done]. apply vget_range in E. lia.
  - destruct d2 as [|d2]; simpl.
    + destruct (vget p x) as [y|] eqn:E; [|done]. apply vget_range in E. lia.
    + destruct (vget p x) as [y|] eqn:E; [|done].
      destruct (Z.eqb_spec y x); [done|].
      pose proof (Hw _ _ E). f_equal. apply IH; lia.
Qed.

Lemma path_rec_S d p x :
  path_rec (S d) p x =
    match vget p x with
    | Ok y => if y =? x then [x] else x :: path_rec d p y
    | Err _ => [x]
    end.
Proof. done. Qed.

Lemma path_step p x y :
  wfp p → vget p x = Ok y →
  path p x = if y =? x then [x] else x :: path p y.
Proof.
  intros Hw E. unfold path. pose proof (vget_range _ _ _ E) as Hr.
  destruct (length p) as [|d] eqn:El; [lia|].
  rewrite (path_rec_S d p x), E.
  destruct (Z.eqb_spec y x); [done|].
  pose proof (Hw _ _ E). f_equal. apply path_rec_irrel; [done | lia | lia].
Qed.

Lemma path_head p x : x ∈ path p x.
Proof.
  unfold path. destruct (length p); simpl; [apply list_elem_of_here|].
  destruct (vget p x); [|apply list_elem_of_here].
  destruct (_ =? _); apply list_elem_of_here.
Qed.

(** Every node of the path is an element between the root and [x], and
    has the root of [x]. *)
Lemma path_nodes p x y :
  wfp p → 0 ≤ x < Z.of_nat (length p) → y ∈ path p x →
  0 ≤ y ≤ x ∧ root p y = root p x.
Proof.
  intros Hw [Hx Hl]. revert x Hx Hl y.
  apply (Z_strong_ind (λ x, x < Z.of_nat (length p) → ∀ y,
    y ∈ path p x → 0 ≤ y ≤ x ∧ root p y = root p x)).
  intros x Hx IH Hl y. destruct (vget_total p x) as [q E]; [lia|].
  rewrite (path_step _ _ _ Hw E). pose proof (Hw _ _ E) as Hq.
  destruct (Z.eqb_spec q x) as [->|Hne].
  - intros ->%list_elem_of_singleton. split; [lia | done].
  - intros [->|Hin]%elem_of_cons; [split; [lia | done]|].
    destruct (IH q) with (y := y) as [H1 H2]; [lia | lia | done |].
    split; [lia|]. rewrite H2. by apply root_parent.
Qed.

Lemma path_root p x :
  wfp p → 0 ≤ x < Z.of_nat (length p) → root p x ∈ path p x.
Proof.
  intros Hw [Hx Hl]. revert x Hx Hl.
  apply (Z_strong_ind (λ x, x < Z.of_nat (length p) →
    root p x ∈ path p x)).
  intros x Hx IH Hl. destruct (vget_total p x) as [q E]; [lia|].
  rewrite (path_step _ _ _ Hw E), (root_step _ _ _ Hw E).
  pose proof (Hw _ _ E) as Hq.
  destruct (Z.eqb_spec q x) as [->|Hne]; [apply list_elem_of_here|].
  apply list_elem_of_further, IH; lia.
Qed.

Lemma length_compress p nodes r : length (compress p nodes r) = length p.
Proof.
  induction nodes as [|y l IH]; simpl; [done|]. by rewrite length_upd.
Qed.

Lemma vget_compress p nodes r y :
  Forall (λ z, 0 ≤ z) nodes → 0 ≤ y < Z.of_nat (length p) →
  vget (compress p nodes r) y = if decide (y ∈ nodes) then Ok r else vget p y.
Proof.
  intros Hn Hy. induction Hn as [|z l Hz Hl IH]; simpl.
  - destruct (decide (y ∈ [])) as [H%elem_of_nil|]; done.
  - destruct (decide (z = y)) as [->|Hne].
    + rewrite vget_upd_eq; [|by rewrite length_compress].
      destruct (decide (y ∈ y :: l)) as [|H]; [done|].
      exfalso. apply H, list_elem_of_here.
    + rewrite vget_upd_ne; [|done|done]. rewrite IH.
      destruct (decide (y ∈ l)), (decide (y ∈ z :: l)) as [H|H]; try done.
      * exfalso. apply H. by apply list_elem_of_further.
      * apply elem_of_cons in H as [->|]; done.
Qed.

Lemma compress_root_only p r : vget p r = Ok r → compress p [r] r = p.
Proof. intros H. simpl. by apply upd_id. Qed.

(** [find] on a well-formed object: the result is the root, and the new
    parent vector is the old one compressed along the path. *)
Lemma find_rec_spec d ds x :
  wf ds → 0 ≤ x < n ds → x < Z.of_nat d →
  find_rec d ds x =
    ({| n := n ds; k := k ds;
        par := compress (par ds) (path (par ds) x) (root (par ds) x) |},
     Ok (root (par ds) x)).
Proof.
  intros [Hlen Hw]. revert x. induction d as [|d IH]; intros x Hx Hd; [lia|].
  simpl. destruct (Z.ltb_spec x 0); [lia|].
  destruct (Z.leb_spec (n ds) x); [lia|]. simpl.
  destruct (vget_total (par ds) x) as [q E]; [lia|]. rewrite E.
  rewrite (path_step _ _ _ Hw E), (root_step _ _ _ Hw E).
  pose proof (Hw _ _ E) as Hq.
  destruct (Z.eqb_spec q x) as [->|Hne].
  - rewrite compress_root_only; [|done]. by destruct ds.
  - rewrite IH; [|lia|lia]. simpl.
    rewrite vset_total; [done|]. rewrite length_compress. lia.
Qed.

Lemma find_spec ds x :
  wf ds → 0 ≤ x < n ds →
  find ds x =
    ({| n := n ds; k := k ds;
        par := compress (par ds) (path (par ds) x) (root (par ds) x) |},
     Ok (root (par ds) x)).
Proof.
  intros Hwf Hx. apply find_rec_spec; [done | done |].
  destruct Hwf as [Hlen _]. lia.
Qed.

Lemma find_domain_error ds x :
  ¬ 0 ≤ x < n ds → find ds x = (ds, Err domain_error).
Proof.
  intros H. unfold find. simpl.
  destruct (Z.ltb_spec x 0); [done|].
  destruct (Z.leb_spec (n ds) x); [done | lia].
Qed.

Lemma path_nonneg p x :
  wfp p → 0 ≤ x < Z.of_nat (length p) → Forall (λ z, 0 ≤ z) (path p x).
Proof.
  intros Hw Hx. apply Forall_forall. intros y Hy.
  by destruct (path_nodes p x y Hw Hx Hy) as [[? _] _].
Qed.

(** What [find(x)] leaves in the parent vector. *)
Lemma vget_find_par p x y :
  wfp p → 0 ≤ x < Z.of_nat (length p) → 0 ≤ y < Z.of_nat (length p) →
  vget (compress p (path p x) (root p x)) y =
    if decide (y ∈ path p x) then Ok (root p x) else vget p y.
Proof.
  intros Hw Hx Hy. apply vget_compress; [by apply path_nonneg | done].
Qed.

Lemma wfp_find p x :
  wfp p → 0 ≤ x < Z.of_nat (length p) →
  wfp (compress p (path p x) (root p x)).
Proof.
  intros Hw Hx y q E. pose proof (vget_range _ _ _ E) as Hy.
  rewrite length_compress in Hy. rewrite vget_find_par in E; [|done..].
  destruct (decide (y ∈ path p x)) as [Hin|_]; [|by apply Hw].
  injection E as <-. destruct (path_nodes p x y Hw Hx Hin) as [_ <-].
  apply root_bounds; [done | lia].
Qed.

Lemma root_find p x :
  wfp p → 0 ≤ x < Z.of_nat (length p) →
  ∀ y, root (compress p (path p x) (root p x)) y = root p y.
Proof.
  intros Hw Hx. apply root_compressed;
    [done | by apply wfp_find | apply length_compress |].
  intros y q E. pose proof (vget_range _ _ _ E) as Hy.
  rewrite length_compress in Hy. rewrite vget_find_par in E; [|done..].
  destruct (decide (y ∈ path p x)) as [Hin|_]; [|by left].
  right. injection E as <-. by destruct (path_nodes p x y Hw Hx Hin) as [_ ->].
Qed.

(** [find] keeps the invariant, the size and the roots. *)
Lemma find_wf ds x : wf ds → wf (find ds x).1.
Proof.
  intros Hwf. destruct (decide (0 ≤ x < n ds)) as [Hx|Hx].
  - rewrite find_spec; [|done..]. destruct Hwf as [Hlen Hw]. split; simpl.
    + by rewrite length_compress.
    + apply wfp_find; [done | lia].
  - by rewrite find_domain_error.
Qed.

Lemma find_n ds x : wf ds → n (find ds x).1 = n ds.
Proof.
  intros Hwf. destruct (decide (0 ≤ x < n ds)) as [Hx|Hx].
  - by rewrite find_spec.
  - by rewrite find_domain_error.
Qed.

Lemma find_root ds x y :
  wf ds → root (par (find ds x).1) y = root (par ds) y.
Proof.
  intros Hwf. destruct (decide (0 ≤ x < n ds)) as [Hx|Hx].
  - rewrite find_spec; [|done..]. destruct Hwf as [Hlen Hw]. simpl.
    apply root_find; [done | lia].
  - by rewrite find_domain_error.
Qed.

Lemma find_result ds x :
  wf ds →
  (find ds x).2 =
    if decide (0 ≤ x < n ds) then Ok (root (par ds) x) else Err domain_error.
Proof.
  intros Hwf. destruct (decide (0 ≤ x < n ds)) as [Hx|Hx].
  - by rewrite find_spec.
  - by rewrite find_domain_error.
Qed.

Lemma find_facts ds x ds1 r :
  wf ds → find ds x = (ds1, r) →
  wf ds1 ∧ n ds1 = n ds ∧ (∀ y, root (par ds1) y = root (par ds) y) ∧
  r = if decide (0 ≤ x < n ds) then Ok (root (par ds) x) else Err domain_error.
Proof.
  intros Hwf F.
  pose proof (find_wf ds x Hwf) as H1. pose proof (find_n ds x Hwf) as H2.
  pose proof (find_result ds x Hwf) as H4.
  pose proof (λ y, find_root ds x y Hwf) as H3.
  rewrite F in H1, H2, H3, H4. done.
Qed.

(** *** Union: the larger root adopts the smaller *)

Lemma wfp_link p a b : wfp p → 0 ≤ a → a < b → wfp (upd p b a).
Proof.
  intros Hw Ha Hab i q E. destruct (decide (i = b)) as [->|Hne].
  - pose proof (vget_range _ _ _ E) as Hr. rewrite length_upd in Hr.
    rewrite vget_upd_eq in E; [|done]. injection E as <-. lia.
  - rewrite vget_upd_ne in E; [|lia|done]. by apply Hw.
Qed.

Lemma root_link p a b z :
  wfp p → vget p a = Ok a → vget p b = Ok b → a < b →
  root (upd p b a) z = if decide (root p z = b) then a else root p z.
Proof.
  intros Hw Ea Eb Hab.
  pose proof (vget_range _ _ _ Ea) as Ha. pose proof (vget_range _ _ _ Eb) as Hb.
  assert (wfp (upd p b a)) as Hw' by (apply wfp_link; [done | lia | done]).
  destruct (Z.lt_ge_cases z 0) as [Hneg|Hpos].
  { rewrite !root_outside; [|lia|rewrite length_upd; lia].
    destruct (decide (z = b)); [lia | done]. }
  revert z Hpos. apply (Z_strong_ind (λ z, root (upd p b a) z =
    if decide (root p z = b) then a else root p z)).
  intros z Hz IH. destruct (decide (z = b)) as [->|Hne].
  - rewrite (root_self p b Eb).
    destruct (decide (b = b)); [|done].
    rewrite (root_step (upd p b a) b a Hw'); [|by apply vget_upd_eq].
    destruct (Z.eqb_spec a b); [lia|].
    rewrite IH; [|lia]. rewrite (root_self p a Ea).
    destruct (decide (a = b)); [lia | done].
  - destruct (vget p z) as [q|e] eqn:E.
    + assert (vget (upd p b a) z = Ok q) as E'
        by (rewrite vget_upd_ne; [done | lia | done]).
      rewrite (root_step _ _ _ Hw' E'), (root_step _ _ _ Hw E).
      pose proof (Hw _ _ E).
      destruct (Z.eqb_spec q z).
      * destruct (decide (z = b)); done.
      * apply IH. lia.
    + apply vget_Err in E as [_ E].
      rewrite !root_outside; [|done|by rewrite length_upd].
      destruct (decide (z = b)); done.
Qed.

(** [merge] of two elements of different sets. *)
Lemma merge_spec ds x y :
  wf ds → 0 ≤ x < n ds → 0 ≤ y < n ds →
  root (par ds) x ≠ root (par ds) y →
  let rx := root (par ds) x in
  let ry := root (par ds) y in
  ∃ ds', merge ds x y = (ds', Ok (Z.min rx ry)) ∧ wf ds' ∧ n ds' = n ds ∧
    vget (par ds') (Z.max rx ry) = Ok (Z.min rx ry) ∧
    ∀ z, root (par ds') z =
         if decide (root (par ds) z = Z.max rx ry) then Z.min rx ry
         else root (par ds) z.
Proof.
  intros Hwf Hx Hy Hne rx ry. unfold merge.
  destruct (find ds x) as [ds1 r1] eqn:F1.
  destruct (find_facts _ _ _ _ Hwf F1) as (Hwf1 & Hn1 & Hr1 & ->).
  destruct (decide (0 ≤ x < n ds)); [|done].
  destruct (find ds1 y) as [ds2 r2] eqn:F2.
  destruct (find_facts _ _ _ _ Hwf1 F2) as (Hwf2 & Hn2 & Hr2 & ->).
  destruct (decide (0 ≤ y < n ds1)); [|lia].
  rewrite Hr1. fold rx ry. destruct (Z.eqb_spec rx ry); [done|].
  destruct Hwf2 as [Hlen2 Hw2]. destruct Hwf as [Hlen Hw].
  assert (0 ≤ rx ≤ x) as Hbx by (apply root_bounds; [done | lia]).
  assert (0 ≤ ry ≤ y) as Hby by (apply root_bounds; [done | lia]).
  assert (vget (par ds2) rx = Ok rx) as Ex.
  { unfold rx. rewrite <- Hr1, <- Hr2. apply root_is_root; [done | lia]. }
  assert (vget (par ds2) ry = Ok ry) as Ey.
  { unfold ry. rewrite <- Hr1, <- Hr2. apply root_is_root; [done | lia]. }
  assert (∀ a b, vget (par ds2) a = Ok a → vget (par ds2) b = Ok b → a < b →
    ∃ ds', (match vset (par ds2) b a with
            | Err e => (ds2, Err e)
            | Ok par' =>
              ({| n := n ds2; k := (k ds2 - 1) mod 2 ^ 64; par := par' |}, Ok a)
            end) = (ds', Ok a) ∧ wf ds' ∧ n ds' = n ds ∧
           vget (par ds') b = Ok a ∧
           ∀ z, root (par ds') z =
             if decide (root (par ds) z = b) then a else root (par ds) z)
    as Hlink.
  { intros u v Ea Eb Hab. pose proof (vget_range _ _ _ Ea).
    pose proof (vget_range _ _ _ Eb).
    rewrite vset_total; [|done]. eexists. split; [done|].
    split; [|split; [|split]]; simpl.
    - split; simpl; [by rewrite length_upd|]. apply wfp_link; [done|lia|done].
    - lia.
    - by apply vget_upd_eq.
    - intros z. rewrite root_link; [|done..]. by rewrite Hr2, Hr1. }
  destruct (Z.ltb_spec ry rx).
  - rewrite Z.min_r, Z.max_l by lia. apply Hlink; [done | done | lia].
  - rewrite Z.min_l, Z.max_r by lia. apply Hlink; [done | done | lia].
Qed.

(** [merge] keeps the invariant whatever its outcome. *)
Lemma merge_wf ds x y : wf ds → wf (merge ds x y).1.
Proof.
  intros Hwf. unfold merge.
  destruct (find ds x) as [ds1 r1] eqn:F1.
  destruct (find_facts _ _ _ _ Hwf F1) as (Hwf1 & Hn1 & Hr1 & ->).
  destruct (decide (0 ≤ x < n ds)) as [Hx|]; [|done].
  destruct (find ds1 y) as [ds2 r2] eqn:F2.
  destruct (find_facts _ _ _ _ Hwf1 F2) as (Hwf2 & Hn2 & Hr2 & ->).
  destruct (decide (0 ≤ y < n ds1)) as [Hy|]; [|done].
  rewrite Hr1. destruct (Z.eqb_spec (root (par ds) x) (root (par ds) y)) as [|Hne];
    [done|].
  destruct (merge_spec ds x y Hwf Hx ltac:(lia) Hne) as (ds' & Hm & Hwf' & _).
  unfold merge in Hm. rewrite F1, F2, Hr1 in Hm.
  destruct (Z.eqb_spec (root (par ds) x) (root (par ds) y)); [done|].
  by rewrite Hm.
Qed.

Lemma merge_Ok_inv ds x y ds' r :
  wf ds → merge ds x y = (ds', Ok r) →
  0 ≤ x < n ds ∧ 0 ≤ y < n ds ∧ root (par ds) x ≠ root (par ds) y.
Proof.
  intros Hwf. unfold merge.
  destruct (find ds x) as [ds1 r1] eqn:F1.
  destruct (find_facts _ _ _ _ Hwf F1) as (Hwf1 & Hn1 & Hr1 & ->).
  destruct (decide (0 ≤ x < n ds)) as [Hx|]; [|done].
  destruct (find ds1 y) as [ds2 r2] eqn:F2.
  destruct (find_facts _ _ _ _ Hwf1 F2) as (Hwf2 & Hn2 & Hr2 & ->).
  destruct (decide (0 ≤ y < n ds1)) as [Hy|]; [|done].
  rewrite Hr1.
  destruct (Z.eqb_spec (root (par ds) x) (root (par ds) y)) as [|Hne]; [done|].
  intros _. split; [done|]. split; [lia | done].
Qed.

Lemma run_ops_wf ds ops : wf ds → wf (run_ops ds ops).
Proof.
  revert ds. induction ops as [|o ops IH]; intros ds Hwf; [done|].
  simpl. apply IH. destruct o; simpl; [by apply find_wf | by apply merge_wf].
Qed.

Lemma find_rec_mono d d' ds x ds' r :
  find_rec d ds x = (ds', Ok r) → (d ≤ d')%nat →
  find_rec d' ds x = (ds', Ok r).
Proof.
  revert d' ds x ds' r.
  induction d as [|d IH]; intros d' ds x ds' r H Hle; [done|].
  destruct d' as [|d']; [lia|]. simpl in *.
  destruct ((x <? 0) || (n ds <=? x)); [done|].
  destruct (vget (par ds) x) as [q|]; [|done].
  destruct (q =? x); [done|].
  destruct (find_rec d ds q) as [ds1 [r1|e]] eqn:F; [|done].
  rewrite (IH d' _ _ _ _ F); [done | lia].
Qed.

Lemma wf_concrete_4 : wf (mk 4 1 [0; 0; 1; 2]).
Proof.
  split; [done|]. intros i q E. pose proof (vget_range _ _ _ E) as Hr.
  simpl in Hr.
  assert (i = 0 ∨ i = 1 ∨ i = 2 ∨ i = 3) as [-> | [-> | [-> | ->] ] ] by lia;
    injection E as <-; lia.
Qed.

End DisjointSetsFacts.

(** C4.  Starting from the partition into singletons, after every sequence
    of [find] and [merge] calls (also calls that throw) each parent is at
    most its element: [par[i] ≤ i].  A [merge] that succeeds returns the
    smaller of the two roots and makes it the parent of the larger one;
    [find] leaves each parent as it was or replaces it by the root it
    returns, which is not above the element. *)
Theorem par_le_self_invariant (m : Z) (ops : list DisjointSets.op) :
  0 ≤ m →
  let ds := DisjointSets.run_ops (DisjointSets.new m) ops in
  (∀ i p, vget (DisjointSets.par ds) i = Ok p → 0 ≤ p ≤ i) ∧
  (∀ x y ds' r, DisjointSets.merge ds x y = (ds', Ok r) →
     let rx := DisjointSets.root (DisjointSets.par ds) x in
     let ry := DisjointSets.root (DisjointSets.par ds) y in
     r = Z.min rx ry ∧ r < Z.max rx ry ∧
     vget (DisjointSets.par ds') (Z.max rx ry) = Ok r) ∧
  (∀ x ds' r i p, DisjointSets.find ds x = (ds', Ok r) →
     vget (DisjointSets.par ds') i = Ok p →
     vget (DisjointSets.par ds) i = Ok p ∨ (p = r ∧ p ≤ i)).
Proof.
  intros Hm ds.
  assert (DisjointSets.wf ds) as Hwf
    by (apply DisjointSetsFacts.run_ops_wf, DisjointSetsFacts.wf_new; lia).
  split; [by destruct Hwf|]. split.
  - intros x y ds' r Hmerge rx ry.
    destruct (DisjointSetsFacts.merge_Ok_inv _ _ _ _ _ Hwf Hmerge)
      as (Hx & Hy & Hne).
    destruct (DisjointSetsFacts.merge_spec ds x y Hwf Hx Hy Hne)
      as (ds1 & Hm1 & _ & _ & Hpar & _).
    rewrite Hmerge in Hm1. injection Hm1 as <- ->.
    fold rx ry in Hpar |- *. fold rx ry in Hne. split; [done|]. split; [lia | done].
  - intros x ds' r i p Hfind E.
    destruct (decide (0 ≤ x < DisjointSets.n ds)) as [Hx|Hx];
      [|by rewrite DisjointSetsFacts.find_domain_error in Hfind].
    rewrite DisjointSetsFacts.find_spec in Hfind; [|done..].
    injection Hfind as <- <-. simpl in E.
    destruct Hwf as [Hlen Hw].
    pose proof (vget_range _ _ _ E) as Hi.
    rewrite DisjointSetsFacts.length_compress in Hi.
    rewrite DisjointSetsFacts.vget_find_par in E; [|done|lia|done].
    destruct (decide (i ∈ _)) as [Hin|_]; [|by left].
    right. injection E as <-. split; [done|].
    destruct (DisjointSetsFacts.path_nodes _ x i Hw ltac:(lia) Hin) as [_ <-].
    apply DisjointSetsFacts.root_bounds; [done | lia].
Qed.

Lemma par_le_self_invariant_witness :
  let ds := DisjointSets.run_ops (DisjointSets.new 4)
              [DisjointSets.op_merge 3 2; DisjointSets.op_merge 2 1;
               DisjointSets.op_find 3; DisjointSets.op_merge 0 7] in
  DisjointSets.par ds = [0; 1; 1; 1] ∧
  (∀ i p, vget (DisjointSets.par ds) i = Ok p → 0 ≤ p ≤ i).
Proof.
  split; [reflexivity|].
  apply (par_le_self_invariant 4
           [DisjointSets.op_merge 3 2; DisjointSets.op_merge 2 1;
            DisjointSets.op_find 3; DisjointSets.op_merge 0 7]).
  lia.
Defined.

(** C9.  On a well-formed object and for [x] in [0,n), [find(x)] returns
    the root of the set of [x], and afterwards every node it visited on
    the way from [x] to the root has the root as its parent, the other
    parents being unchanged.  A second [find(x)] right after returns the
    same root, leaves the parent vector as it is, and follows at most one
    parent link: two nested calls are enough. *)
Theorem find_compresses_and_repeats (ds : DisjointSets.t) (x : Z) :
  DisjointSets.wf ds → 0 ≤ x < DisjointSets.n ds →
  let p := DisjointSets.par ds in
  let r := DisjointSets.root p x in
  ∃ ds',
    DisjointSets.find ds x = (ds', Ok r) ∧
    vget p r = Ok r ∧ r ∈ DisjointSets.path p x ∧
    (∀ y, y ∈ DisjointSets.path p x → vget (DisjointSets.par ds') y = Ok r) ∧
    (∀ y, y ∉ DisjointSets.path p x →
       vget (DisjointSets.par ds') y = vget p y) ∧
    DisjointSets.find_rec 2 ds' x = (ds', Ok r) ∧
    DisjointSets.find ds' x = (ds', Ok r).
Proof.
  intros Hwf Hx p r. pose proof Hwf as [Hlen Hw]. fold p in Hlen, Hw.
  eexists. split; [by apply DisjointSetsFacts.find_spec|]. fold p r.
  assert (vget p r = Ok r) as Hr
    by (apply DisjointSetsFacts.root_is_root; [done | lia]).
  assert (r ∈ DisjointSets.path p x) as Hrin
    by (apply DisjointSetsFacts.path_root; [done | lia]).
  set (p' := DisjointSets.compress p (DisjointSets.path p x) r).
  assert (length p' = length p) as Hlen'
    by apply DisjointSetsFacts.length_compress.
  assert (∀ y, y ∈ DisjointSets.path p x → vget p' y = Ok r) as Hin.
  { intros y Hy.
    destruct (DisjointSetsFacts.path_nodes p x y Hw ltac:(lia) Hy) as [Hy1 _].
    unfold p', r. rewrite DisjointSetsFacts.vget_find_par; [|done|lia|lia].
    by destruct (decide (y ∈ _)). }
  assert (∀ y, y ∉ DisjointSets.path p x → vget p' y = vget p y) as Hout.
  { intros y Hy. destruct (decide (0 ≤ y < Z.of_nat (length p))) as [Hy1|Hy1].
    - unfold p', r. rewrite DisjointSetsFacts.vget_find_par; [|done|lia|lia].
      by destruct (decide (y ∈ _)).
    - destruct (vget p' y) as [q|e] eqn:E.
      { apply vget_range in E. lia. }
      destruct (vget p y) as [q|e0] eqn:E0.
      { apply vget_range in E0. lia. }
      apply vget_Err in E as [-> _]. by apply vget_Err in E0 as [-> _]. }
  split; [done|]. split; [done|]. split; [done|]. split; [done|].
  assert (DisjointSets.find_rec 2
            {| DisjointSets.n := DisjointSets.n ds;
               DisjointSets.k := DisjointSets.k ds; DisjointSets.par := p' |} x
          = ({| DisjointSets.n := DisjointSets.n ds;
                DisjointSets.k := DisjointSets.k ds; DisjointSets.par := p' |},
             Ok r)) as H2.
  { pose proof (DisjointSetsFacts.root_bounds p x Hw ltac:(lia)) as Hb.
    fold r in Hb. simpl.
    destruct (Z.ltb_spec x 0); [lia|].
    destruct (Z.leb_spec (DisjointSets.n ds) x); [lia|]. simpl.
    rewrite (Hin x (DisjointSetsFacts.path_head p x)).
    destruct (Z.eqb_spec r x); [done|].
    destruct (Z.ltb_spec r 0); [lia|].
    destruct (Z.leb_spec (DisjointSets.n ds) r); [lia|]. simpl.
    rewrite (Hin r Hrin), Z.eqb_refl.
    cbn [DisjointSets.par DisjointSets.n DisjointSets.k].
    rewrite vset_total; [|lia].
    rewrite upd_id; [done|]. apply Hin, DisjointSetsFacts.path_head. }
  split; [done|].
  apply (DisjointSetsFacts.find_rec_mono 2); [done|].
  cbn [DisjointSets.par]. lia.
Qed.

Lemma find_compresses_and_repeats_witness :
  ∃ ds',
    DisjointSets.find (DisjointSets.mk 4 1 [0; 0; 1; 2]) 3 = (ds', Ok 0) ∧
    DisjointSets.par ds' = [0; 0; 0; 0] ∧
    DisjointSets.find_rec 2 ds' 3 = (ds', Ok 0).
Proof.
  destruct (find_compresses_and_repeats (DisjointSets.mk 4 1 [0; 0; 1; 2]) 3
              DisjointSetsFacts.wf_concrete_4 ltac:(simpl; lia))
    as (ds' & H1 & _ & _ & _ & _ & H2 & _).
  exists ds'. split; [exact H1|]. split; [|exact H2].
  vm_compute in H1. by injection H1 as <-.
Defined.

(** ** Counting over a range of indices *)

Lemma count_range_cons (P : Z → bool) lo (c : nat) :
  count_range P lo (Z.of_nat (S c)) =
    (if P lo then 1 else 0) + count_range P (lo + 1) (Z.of_nat c).
Proof.
  unfold count_range. rewrite seqZ_cons by lia.
  replace (Z.pred (Z.of_nat (S c))) with (Z.of_nat c) by lia.
  replace (Z.succ lo) with (lo + 1) by lia.
  rewrite filter_cons. destruct (P lo); simpl.
  - destruct (decide (true = true)); [|done]. simpl. lia.
  - destruct (decide (false = true)); [done|]. lia.
Qed.

Lemma count_range_snoc (P : Z → bool) lo len :
  0 ≤ len →
  count_range P lo (len + 1) =
    count_range P lo len + (if P (lo + len) then 1 else 0).
Proof.
  intros Hlen. unfold count_range. rewrite seqZ_app by lia.
  rewrite filter_app, length_app.
  change (seqZ (lo + len) 1) with [lo + len]. rewrite filter_cons, filter_nil.
  destruct (P (lo + len)); simpl.
  - destruct (decide (true = true)); [|done]. simpl. lia.
  - destruct (decide (false = true)); [done|]. simpl. lia.
Qed.

Lemma count_range_bounds (P : Z → bool) lo len :
  0 ≤ len → 0 ≤ count_range P lo len ≤ len.
Proof.
  intros Hlen. unfold count_range. split; [lia|].
  pose proof (length_filter (λ i, P i = true) (seqZ lo len)) as H.
  rewrite length_seqZ in H. lia.
Qed.

Lemma count_range_zero (P : Z → bool) lo len :
  (∀ i, lo ≤ i < lo + len → P i = false) → count_range P lo len = 0.
Proof.
  intros H. unfold count_range.
  replace (filter (λ i, P i = true) (seqZ lo len)) with (@nil Z); [done|].
  symmetry. apply elem_of_nil_inv.
  intros i [Hp Hi%elem_of_seqZ]%list_elem_of_filter.
  rewrite H in Hp; done.
Qed.

(** A search over a range either finds an index or fails everywhere. *)
Lemma bounded_search (P : Z → bool) lo (c : nat) :
  (∃ j, lo ≤ j < lo + Z.of_nat c ∧ P j = true) ∨
  (∀ j, lo ≤ j < lo + Z.of_nat c → P j = false).
Proof.
  revert lo. induction c as [|c IH]; intros lo.
  - right. intros j Hj. lia.
  - destruct (P lo) eqn:E.
    + left. exists lo. split; [lia | done].
    + destruct (IH (lo + 1)) as [(j & Hj & Pj)|Hall].
      * left. exists j. split; [lia | done].
      * right. intros j Hj. destruct (decide (j = lo)) as [->|]; [done|].
        apply Hall. lia.
Qed.

Lemma for_count_preserves {S : Type} (P : S → Prop) (c : nat) (i : Z)
    (body : Z → S → result S) (s s' : S) :
  (∀ j s0 s1, body j s0 = Ok s1 → P s0 → P s1) →
  for_count c i body s = Ok s' → P s → P s'.
Proof.
  intros Hbody. revert i s. induction c as [|c IH]; intros i s; simpl.
  - by intros [= <-].
  - intros (s1 & H1 & H2)%bind_Ok Hs. eapply IH; [done|]. by eapply Hbody.
Qed.

Lemma for_count_S {S : Type} (c : nat) (i : Z)
    (body : Z → S → result S) (s : S) :
  for_count (Datatypes.S c) i body s =
    (s' <- body i s ;; for_count c (i + 1) body s').
Proof. done. Qed.

Lemma for_count_snoc {S : Type} (c : nat) (i : Z)
    (body : Z → S → result S) (s : S) :
  for_count (Datatypes.S c) i body s =
    (s' <- for_count c i body s ;; body (i + Z.of_nat c) s').
Proof.
  revert i s. induction c as [|c IH]; intros i s.
  - simpl. rewrite Z.add_0_r. by destruct (body i s).
  - rewrite (for_count_S (Datatypes.S c)), (for_count_S c).
    destruct (body i s) as [s1|]; [|done]. cbn [bind].
    rewrite IH. by replace (i + 1 + Z.of_nat c) with (i + Z.of_nat (Datatypes.S c)) by lia.
Qed.

Lemma for_range_snoc {S : Type} (lo hi : Z) (body : Z → S → result S) (s : S) :
  lo ≤ hi →
  for_range lo (hi + 1) body s = (s' <- for_range lo hi body s ;; body hi s').
Proof.
  intros H. unfold for_range.
  replace (Z.to_nat (hi + 1 - lo)) with (Datatypes.S (Z.to_nat (hi - lo))) by lia.
  rewrite for_count_snoc. by replace (lo + Z.of_nat (Z.to_nat (hi - lo))) with hi by lia.
Qed.

(** ** The degree computer *)

Section Degrees.
Variables (ind : list Z) (n : Z).
Hypothesis n_nonneg : 0 ≤ n.

Lemma zero_loop (deg : list Z) :
  n ≤ Z.of_nat (length deg) →
  ∃ deg0, for_range 0 n (λ i d, vset d i 0) deg = Ok deg0 ∧
    length deg0 = length deg ∧ ∀ x, 0 ≤ x < n → vget deg0 x = Ok 0.
Proof.
  intros Hlen.
  destruct (for_range_inv
    (λ i d, length d = length deg ∧ ∀ x, 0 ≤ x < i → vget d x = Ok 0)
    0 n (λ i d, vset d i 0) deg) as (deg0 & H & H1 & H2); [done | | | by eauto].
  - split; [done | lia].
  - intros i d Hi [Hl Hz]. exists (upd d i 0).
    split; [apply vset_total; lia|]. split; [by rewrite length_upd|].
    intros x Hx. destruct (decide (x = i)) as [->|Hne].
    + apply vget_upd_eq. lia.
    + rewrite vget_upd_ne; [|lia|done]. apply Hz. lia.
Qed.

Lemma edge_available i :
  0 ≤ i → 2 * (i + 1) ≤ Z.of_nat (length ind) →
  ∃ u v, edge_u ind i = Ok u ∧ edge_v ind i = Ok v.
Proof.
  intros Hi Hl. unfold edge_u, edge_v.
  destruct (vget_total ind (2 * i + 0)) as [u ->]; [lia|].
  destruct (vget_total ind (2 * i + 1)) as [v ->]; [lia|]. eauto.
Qed.

Lemma incident_count_nil x lo : incident_count ind x lo 0 = 0.
Proof. done. Qed.

Lemma incident_count_cons x lo (c : nat) :
  incident_count ind x lo (Z.of_nat (S c)) =
    (if edge_touches ind x lo then 1 else 0)
    + incident_count ind x (lo + 1) (Z.of_nat c).
Proof. apply count_range_cons. Qed.

(** One iteration of the loop over the edges. *)
Lemma degree_step_spec i deg :
  0 ≤ i → 2 * (i + 1) ≤ Z.of_nat (length ind) → n ≤ Z.of_nat (length deg) →
  if edge_rejected ind n i then degree_step ind n i deg = Err domain_error
  else ∃ deg', degree_step ind n i deg = Ok deg' ∧ length deg' = length deg ∧
    ∀ x d, vget deg x = Ok d →
      vget deg' x = Ok (d + if edge_touches ind x i then 1 else 0).
Proof.
  intros Hi Hl Hd. destruct (edge_available i Hi Hl) as (u & v & Eu & Ev).
  unfold edge_rejected, edge_touches, degree_step, edge_absent.
  rewrite Eu, Ev. simpl.
  destruct (Z.ltb_spec u 0); simpl.
  { exists deg. split; [done|]. split; [done|]. intros x d ->. f_equal. lia. }
  destruct (Z.ltb_spec v 0); simpl.
  { exists deg. split; [done|]. split; [done|]. intros x d ->. f_equal. lia. }
  destruct (Z.leb_spec n u); simpl; [done|].
  destruct (Z.leb_spec n v); simpl; [done|].
  destruct (Z.eqb_spec u v); simpl; [done|].
  destruct (vget_total deg u) as [du Edu]; [lia|]. rewrite Edu. simpl.
  rewrite vset_total by lia. simpl.
  destruct (vget_total deg v) as [dv Edv]; [lia|].
  rewrite vget_upd_ne, Edv by (done || lia). simpl.
  rewrite vset_total by (rewrite length_upd; lia).
  eexists. split; [done|]. split; [by rewrite !length_upd|].
  intros x d Ex.
  destruct (Z.eqb_spec u x) as [->|Hux]; destruct (Z.eqb_spec v x) as [->|Hvx];
    simpl; try lia.
  - rewrite vget_upd_ne, vget_upd_eq by (done || lia). congruence.
  - rewrite vget_upd_eq by (rewrite length_upd; lia). congruence.
  - rewrite !vget_upd_ne by (done || lia). rewrite Ex. f_equal. lia.
Qed.

(** The loop over the edges [i, ..., i+c-1]. *)
Lemma degree_loop_spec (c : nat) i deg :
  0 ≤ i → 2 * (i + Z.of_nat c) ≤ Z.of_nat (length ind) →
  n ≤ Z.of_nat (length deg) →
  ((∃ j, i ≤ j < i + Z.of_nat c ∧ edge_rejected ind n j = true) →
     for_count c i (degree_step ind n) deg = Err domain_error) ∧
  ((∀ j, i ≤ j < i + Z.of_nat c → edge_rejected ind n j = false) →
     ∃ deg', for_count c i (degree_step ind n) deg = Ok deg' ∧
       length deg' = length deg ∧
       ∀ x d, vget deg x = Ok d →
         vget deg' x = Ok (d + incident_count ind x i (Z.of_nat c))).
Proof.
  revert i deg. induction c as [|c IH]; intros i deg Hi Hl Hd.
  - split.
    + intros (j & Hj & _). lia.
    + intros _. exists deg. split; [done|]. split; [done|].
      intros x d ->. rewrite incident_count_nil. f_equal. lia.
  - pose proof (degree_step_spec i deg Hi ltac:(lia) Hd) as Hstep.
    cbn [for_count]. destruct (edge_rejected ind n i) eqn:Ei.
    + rewrite Hstep. split; [done|]. intros Hall. rewrite Hall in Ei; [done | lia].
    + destruct Hstep as (deg1 & -> & Hl1 & Hv1). cbn [bind].
      destruct (IH (i + 1) deg1) as [IH1 IH2]; [lia | lia | lia |]. split.
      * intros (j & Hj & Ej). apply IH1. exists j. split; [|done].
        destruct (decide (j = i)) as [->|]; [congruence | lia].
      * intros Hall. destruct IH2 as (deg' & -> & Hl' & Hv').
        { intros j Hj. apply Hall. lia. }
        exists deg'. split; [done|]. split; [congruence|].
        intros x d Ex. rewrite incident_count_cons.
        rewrite (Hv' x _ (Hv1 x d Ex)). f_equal. lia.
Qed.
End Degrees.

Lemma degree_step_length ind n i deg deg' :
  degree_step ind n i deg = Ok deg' → length deg' = length deg.
Proof.
  unfold degree_step.
  intros (u & _ & (v & _ & H)%bind_Ok)%bind_Ok.
  destruct ((u <? 0) || (v <? 0)); [by injection H as <-|].
  destruct ((n <=? u) || (n <=? v)); [done|]. destruct (u =? v); [done|].
  apply bind_Ok in H as (du & _ & (deg1 & [_ ->]%vset_Ok &
    (dv & _ & [_ ->]%vset_Ok)%bind_Ok)%bind_Ok).
  by rewrite !length_upd.
Qed.

Lemma Cget_graph_node_degrees_length ind num_edges n deg deg' :
  Cget_graph_node_degrees ind num_edges n deg = Ok deg' →
  length deg' = length deg.
Proof.
  unfold Cget_graph_node_degrees, for_range.
  intros (deg0 & H0 & H1)%bind_Ok.
  apply (for_count_preserves (λ d, length d = length deg)) in H0;
    [| by intros j s0 s1 [_ ->]%vset_Ok; rewrite length_upd | done].
  apply (for_count_preserves (λ d, length d = length deg)) in H1; [done | | done].
  intros j s0 s1 Hs%degree_step_length. congruence.
Qed.

(** The two loops of the degree computer together. *)
Lemma Cget_graph_node_degrees_spec (ind : list Z) (num_edges n : Z) (deg : list Z) :
  0 ≤ n → n ≤ Z.of_nat (length deg) → 0 ≤ num_edges →
  2 * num_edges ≤ Z.of_nat (length ind) →
  ((∃ j, 0 ≤ j < num_edges ∧ edge_rejected ind n j = true) →
     Cget_graph_node_degrees ind num_edges n deg = Err domain_error) ∧
  ((∀ j, 0 ≤ j < num_edges → edge_rejected ind n j = false) →
     ∃ deg', Cget_graph_node_degrees ind num_edges n deg = Ok deg' ∧
       length deg' = length deg ∧
       ∀ x, 0 ≤ x < n → vget deg' x = Ok (incident_count ind x 0 num_edges)).
Proof.
  intros Hn Hd Hm Hl. unfold Cget_graph_node_degrees.
  destruct (zero_loop n Hn deg Hd) as (deg0 & -> & Hl0 & Hz). cbn [bind].
  unfold for_range. rewrite Z.sub_0_r.
  destruct (degree_loop_spec ind n (Z.to_nat num_edges) 0 deg0)
    as [H1 H2]; [lia | lia | lia |].
  rewrite Z2Nat.id in H1, H2 by done. split; [done|].
  intros Hall. destruct (H2 Hall) as (deg' & -> & Hl' & Hv).
  exists deg'. split; [done|]. split; [congruence|].
  intros x Hx. rewrite (Hv x 0 (Hz x Hx)). f_equal.
Qed.

(** C7.  The degree computer on [num_edges] edges and an output array of
    [n] cells.  An edge slot with a negative endpoint is skipped, whatever
    its other endpoint; an edge with an endpoint [≥ n], or with equal
    endpoints, raises a domain error; otherwise the call returns and
    [deg[x]] is the number of accepted edges incident to [x], for every
    vertex [x]. *)
Theorem degree_computer_contract (ind : list Z) (num_edges n : Z) (deg : list Z) :
  0 ≤ n → n ≤ Z.of_nat (length deg) → 0 ≤ num_edges →
  2 * num_edges ≤ Z.of_nat (length ind) →
  (∀ j u v, 0 ≤ j < num_edges → edge_u ind j = Ok u → edge_v ind j = Ok v →
     u < 0 ∨ v < 0 → edge_rejected ind n j = false ∧
       ∀ x, edge_touches ind x j = false) ∧
  ((∃ j u v, 0 ≤ j < num_edges ∧ edge_u ind j = Ok u ∧ edge_v ind j = Ok v ∧
      0 ≤ u ∧ 0 ≤ v ∧ (n ≤ u ∨ n ≤ v ∨ u = v)) →
     Cget_graph_node_degrees ind num_edges n deg = Err domain_error) ∧
  ((∀ j, 0 ≤ j < num_edges → edge_rejected ind n j = false) →
     ∃ deg', Cget_graph_node_degrees ind num_edges n deg = Ok deg' ∧
       length deg' = length deg ∧
       ∀ x, 0 ≤ x < n → vget deg' x = Ok (incident_count ind x 0 num_edges)).
Proof.
  intros Hn Hd Hm Hl.
  destruct (Cget_graph_node_degrees_spec ind num_edges n deg Hn Hd Hm Hl)
    as [Hbad Hgood].
  split; [|split; [|done]].
  - intros j u v Hj Eu Ev Hneg. unfold edge_rejected, edge_touches, edge_absent.
    rewrite Eu, Ev.
    assert ((u <? 0) || (v <? 0) = true) as ->.
    { destruct (Z.ltb_spec u 0); [done|]. destruct (Z.ltb_spec v 0); [done | lia]. }
    done.
  - intros (j & u & v & Hj & Eu & Ev & Hu & Hv & Hr). apply Hbad.
    exists j. split; [done|]. unfold edge_rejected, edge_absent.
    rewrite Eu, Ev. destruct (Z.ltb_spec u 0); [lia|].
    destruct (Z.ltb_spec v 0); [lia|]. simpl.
    destruct (Z.leb_spec n u); [done|]. destruct (Z.leb_spec n v); [done|].
    destruct (Z.eqb_spec u v); [done | lia].
Qed.

Lemma degree_computer_contract_witness :
  (∃ deg', Cget_graph_node_degrees [0; 1; -1; 9; 1; 2; 3; 1] 4 4 [7; 7; 7; 7]
             = Ok deg' ∧ length deg' = 4%nat ∧
     ∀ x, 0 ≤ x < 4 →
       vget deg' x = Ok (incident_count [0; 1; -1; 9; 1; 2; 3; 1] x 0 4)) ∧
  Cget_graph_node_degrees [0; 1; 1; 4] 2 4 [7; 7; 7; 7] = Err domain_error ∧
  Cget_graph_node_degrees [0; 1; 2; 2] 2 4 [7; 7; 7; 7] = Err domain_error.
Proof.
  split; [|split].
  - apply (degree_computer_contract [0; 1; -1; 9; 1; 2; 3; 1] 4 4 [7; 7; 7; 7]);
      [lia | simpl; lia | lia | simpl; lia |].
    intros j Hj.
    assert (j = 0 ∨ j = 1 ∨ j = 2 ∨ j = 3) as [-> | [-> | [-> | ->] ] ] by lia;
      reflexivity.
  - apply (degree_computer_contract [0; 1; 1; 4] 2 4 [7; 7; 7; 7]);
      [lia | simpl; lia | lia | simpl; lia |].
    exists 1, 1, 4. repeat (split; [reflexivity || lia|]). lia.
  - apply (degree_computer_contract [0; 1; 2; 2] 2 4 [7; 7; 7; 7]);
      [lia | simpl; lia | lia | simpl; lia |].
    exists 1, 2, 2. repeat (split; [reflexivity || lia|]). lia.
Defined.

(** ** The constructor *)

Section Constructor.
Context {T : Type} (T_gt : T → T → bool).

Lemma check_sorted_loop (d : list T) (c : nat) i :
  1 ≤ i → i + Z.of_nat c ≤ Z.of_nat (length d) →
  let body := λ (i : Z) (_ : unit),
    a <- vget d (i - 1) ;; b <- vget d i ;;
    if T_gt a b then Err domain_error else Ok tt in
  ((∃ j, i ≤ j < i + Z.of_nat c ∧ unsorted_at T_gt d j = true) →
     for_count c i body tt = Err domain_error) ∧
  ((∀ j, i ≤ j < i + Z.of_nat c → unsorted_at T_gt d j = false) →
     for_count c i body tt = Ok tt).
Proof.
  intros Hi Hl body. revert i Hi Hl. induction c as [|c IH]; intros i Hi Hl.
  - split; [|done]. intros (j & Hj & _). lia.
  - cbn [for_count]. destruct (IH (i + 1)) as [IH1 IH2]; [lia | lia |].
    destruct (vget_total d (i - 1)) as [a Ea]; [lia|].
    destruct (vget_total d i) as [b Eb]; [lia|].
    assert (unsorted_at T_gt d i = T_gt a b) as Eu
      by (unfold unsorted_at; by rewrite Ea, Eb).
    unfold body at 1 3. rewrite Ea, Eb. cbn [bind].
    destruct (T_gt a b) eqn:Eg; cbn [bind].
    + split; [done|]. intros Hall. rewrite Hall in Eu; [done | lia].
    + split.
      * intros (j & Hj & Ej). apply IH1. exists j. split; [|done].
        destruct (decide (j = i)) as [->|]; [congruence | lia].
      * intros Hall. apply IH2. intros j Hj. apply Hall. lia.
Qed.

Lemma check_sorted_spec (d : list T) n0 :
  n0 - 1 ≤ Z.of_nat (length d) →
  ((∃ j, 1 ≤ j < n0 - 1 ∧ unsorted_at T_gt d j = true) →
     check_sorted T_gt d n0 = Err domain_error) ∧
  ((∀ j, 1 ≤ j < n0 - 1 → unsorted_at T_gt d j = false) →
     check_sorted T_gt d n0 = Ok tt).
Proof.
  intros Hl. unfold check_sorted, for_range.
  destruct (Z.le_gt_cases (n0 - 1) 1) as [Hsmall|Hbig].
  { replace (Z.to_nat (n0 - 1 - 1)) with O by lia.
    split; [|done]. intros (j & Hj & _). lia. }
  destruct (check_sorted_loop d (Z.to_nat (n0 - 1 - 1)) 1) as [H1 H2];
    [lia | lia |].
  split.
  - intros (j & Hj & Ej). apply H1. exists j. split; [lia | done].
  - intros Hall. apply H2. intros j Hj. apply Hall. lia.
Qed.

Lemma denoise_loop_spec (dg : list Z) n0 :
  0 ≤ n0 → Z.of_nat (length dg) = n0 →
  ∃ j di dir,
    denoise_loop dg n0 (replicate (Z.to_nat n0) 0)
      = Ok (leaf_count dg n0, j, di, dir) ∧
    j + leaf_count dg n0 = n0 ∧
    Z.of_nat (length di) = n0 ∧ Z.of_nat (length dir) = n0 ∧
    ∀ x, 0 ≤ x < n0 →
      vget dir x = Ok (if is_leaf dg x then -1 else x - leaf_count dg x).
Proof.
  intros Hn Hlen. unfold denoise_loop.
  set (zeros := replicate (Z.to_nat n0) 0).
  assert (Z.of_nat (length zeros) = n0) as Hz
    by (unfold zeros; rewrite length_replicate; lia).
  match goal with |- context [for_range 0 n0 ?b ?s] =>
    destruct (for_range_inv
      (λ i (st : Z * Z * list Z * list Z),
         let '(nc, j, di, dir) := st in
         nc = leaf_count dg i ∧ j + nc = i ∧
         Z.of_nat (length di) = n0 ∧ Z.of_nat (length dir) = n0 ∧
         ∀ x, 0 ≤ x < i →
           vget dir x = Ok (if is_leaf dg x then -1 else x - leaf_count dg x))
      0 n0 b s) as ([[[nc j] di] dir] & Hloop & Hinv)
  end; [done | | |].
  - split; [done|]. split; [done|]. split; [done|]. split; [done|]. lia.
  - intros i [[[nc j] di] dir] Hi (Hnc & Hj & Hdi & Hdir & Hv).
    destruct (vget_total dg i) as [d Ed]; [lia|]. rewrite Ed. cbn [bind].
    pose proof (count_range_bounds (is_leaf dg) 0 i ltac:(lia)) as Hb.
    fold (leaf_count dg i) in Hb.
    assert (leaf_count dg (i + 1) =
            leaf_count dg i + if is_leaf dg i then 1 else 0) as Hs
      by (unfold leaf_count; rewrite count_range_snoc by lia; done).
    assert (is_leaf dg i = (d =? 1)) as El by (unfold is_leaf; by rewrite Ed).
    rewrite El in Hs. destruct (d =? 1).
    + rewrite vset_total by lia. cbn [bind]. eexists. split; [done|].
      split; [lia|]. split; [lia|]. split; [done|].
      split; [rewrite length_upd; lia|].
      intros x Hx. destruct (decide (x = i)) as [->|Hne].
      * rewrite vget_upd_eq by lia. by rewrite El.
      * rewrite vget_upd_ne by (done || lia). apply Hv. lia.
    + rewrite vset_total by lia. cbn [bind].
      rewrite vset_total by lia. cbn [bind]. eexists. split; [done|].
      split; [lia|]. split; [lia|]. split; [rewrite length_upd; lia|].
      split; [rewrite length_upd; lia|].
      intros x Hx. destruct (decide (x = i)) as [->|Hne].
      * rewrite vget_upd_eq by lia. rewrite El. f_equal. lia.
      * rewrite vget_upd_ne by (done || lia). apply Hv. lia.
  - destruct Hinv as (-> & Hj & Hdi & Hdir & Hv).
    exists j, di, dir. done.
Qed.

Lemma identity_loop_spec n0 :
  0 ≤ n0 →
  ∃ di dir,
    identity_loop n0 (replicate (Z.to_nat n0) 0) = Ok (di, dir) ∧
    Z.of_nat (length di) = n0 ∧ Z.of_nat (length dir) = n0 ∧
    ∀ x, 0 ≤ x < n0 → vget di x = Ok x ∧ vget dir x = Ok x.
Proof.
  intros Hn. unfold identity_loop.
  set (zeros := replicate (Z.to_nat n0) 0).
  assert (Z.of_nat (length zeros) = n0) as Hz
    by (unfold zeros; rewrite length_replicate; lia).
  match goal with |- context [for_range 0 n0 ?b ?s] =>
    destruct (for_range_inv
      (λ i (st : list Z * list Z),
         let '(di, dir) := st in
         Z.of_nat (length di) = n0 ∧ Z.of_nat (length dir) = n0 ∧
         ∀ x, 0 ≤ x < i → vget di x = Ok x ∧ vget dir x = Ok x)
      0 n0 b s) as ([di dir] & Hloop & Hinv)
  end; [done | | |].
  - split; [done|]. split; [done|]. lia.
  - intros i [di dir] Hi (Hdi & Hdir & Hv).
    rewrite vset_total by lia. cbn [bind].
    rewrite vset_total by lia. cbn [bind]. eexists. split; [done|].
    split; [rewrite length_upd; lia|]. split; [rewrite length_upd; lia|].
    intros x Hx. destruct (decide (x = i)) as [->|Hne].
    + rewrite !vget_upd_eq by lia. done.
    + rewrite !vget_upd_ne by (done || lia). apply Hv. lia.
  - exists di, dir. done.
Qed.

(** What a successful construction went through. *)
Lemma CGenie_new_inv (d : list T) (ind : list Z) n0 nl g :
  CGenie_new T_gt d ind n0 nl = Ok g →
  0 ≤ n0 ∧ check_sorted T_gt d n0 = Ok tt ∧
  Cget_graph_node_degrees ind (n0 - 1) n0 (replicate (Z.to_nat n0) 0)
    = Ok (deg g) ∧
  mst_d g = d ∧ mst_i g = ind ∧ n g = n0 ∧ noise_leaves g = nl ∧
  next_edge g = replicate (Z.to_nat n0) 0 ∧
  prev_edge g = replicate (Z.to_nat n0) 0 ∧
  if nl then
    ∃ j, denoise_loop (deg g) n0 (replicate (Z.to_nat n0) 0)
           = Ok (noise_count g, j, denoise_index g, denoise_index_rev g) ∧
         2 ≤ noise_count g ∧ j + noise_count g = n0
  else
    noise_count g = 0 ∧
    identity_loop n0 (replicate (Z.to_nat n0) 0)
      = Ok (denoise_index g, denoise_index_rev g).
Proof.
  unfold CGenie_new. destruct (Z.ltb_spec n0 0); [done|].
  destruct (check_sorted T_gt d n0) as [[]|] eqn:Es; [|done]. cbn [bind].
  destruct (Cget_graph_node_degrees _ _ _ _) as [dg|] eqn:Ed; [|done].
  cbn [bind]. destruct nl.
  - destruct (denoise_loop _ _ _) as [[[[nc j] di] dir]|] eqn:El; [|done].
    cbn [bind]. destruct (Z.leb_spec 2 nc); [|done]. cbn [negb].
    destruct (Z.eqb_spec (j + nc) n0); [|done]. cbn [negb].
    intros [= <-]. cbn. repeat (split; [done|]). eauto.
  - destruct (identity_loop _ _) as [[di dir]|] eqn:El; [|done]. cbn [bind].
    intros [= <-]. cbn. done.
Qed.

End Constructor.

Lemma unsorted_at_true {T : Type} (T_gt : T → T → bool) (d : list T) i :
  unsorted_at T_gt d i = true ↔
  ∃ a b, vget d (i - 1) = Ok a ∧ vget d i = Ok b ∧ T_gt a b = true.
Proof.
  unfold unsorted_at. split.
  - destruct (vget d (i - 1)) as [a|]; [|done].
    destruct (vget d i) as [b|]; [|done]. eauto.
  - by intros (a & b & -> & -> & ->).
Qed.

(** C8.  For [n-1] weights and an edge list that the degree computer
    accepts, the construction raises a domain error if and only if some
    adjacent pair of weights is in the wrong order:
    [mst_d[i-1] > mst_d[i]] for some [i] with [1 ≤ i < n-1]. *)
Theorem unsorted_weights_domain_error {T : Type} (T_gt : T → T → bool)
    (d : list T) (ind : list Z) (n0 : Z) (nl : bool) (dg : list Z) :
  n0 - 1 ≤ Z.of_nat (length d) →
  Cget_graph_node_degrees ind (n0 - 1) n0 (replicate (Z.to_nat n0) 0) = Ok dg →
  CGenie_new T_gt d ind n0 nl = Err domain_error ↔
  ∃ i, 1 ≤ i < n0 - 1 ∧
    ∃ a b, vget d (i - 1) = Ok a ∧ vget d i = Ok b ∧ T_gt a b = true.
Proof.
  intros Hl Hdeg.
  destruct (check_sorted_spec T_gt d n0 Hl) as [Hbad Hgood].
  destruct (Z.ltb_spec n0 0) as [Hneg|Hpos].
  { unfold CGenie_new. destruct (Z.ltb_spec n0 0); [|lia].
    split; [done|]. intros (i & Hi & _). lia. }
  destruct (bounded_search (unsorted_at T_gt d) 1 (Z.to_nat (n0 - 1 - 1)))
    as [(j & Hj & Ej)|Hall].
  - assert (1 ≤ j < n0 - 1) as Hj' by lia. split.
    + intros _. exists j. split; [done|]. by apply unsorted_at_true.
    + intros _. unfold CGenie_new. destruct (Z.ltb_spec n0 0); [lia|].
      rewrite Hbad; [done|]. eauto.
  - assert (∀ j, 1 ≤ j < n0 - 1 → unsorted_at T_gt d j = false) as Hall'
      by (intros j Hj; apply Hall; lia).
    split.
    + unfold CGenie_new. destruct (Z.ltb_spec n0 0); [lia|].
      rewrite (Hgood Hall'), Hdeg. cbn [bind].
      pose proof (Cget_graph_node_degrees_length _ _ _ _ _ Hdeg) as Hlen.
      rewrite length_replicate in Hlen. destruct nl.
      * destruct (denoise_loop_spec dg n0) as (j & di & dir & -> & _);
          [lia | lia |]. cbn [bind].
        destruct (negb _); [done|]. destruct (negb _); done.
      * destruct (identity_loop_spec n0) as (di & dir & -> & _); [lia|]. done.
    + intros (i & Hi & Hu%unsorted_at_true). rewrite Hall' in Hu; done.
Qed.

Lemma unsorted_weights_domain_error_witness :
  CGenie_new Z.gtb [1; 3; 2] [0; 1; 1; 2; 2; 3] 4 false = Err domain_error.
Proof.
  apply (unsorted_weights_domain_error Z.gtb [1; 3; 2] [0; 1; 1; 2; 2; 3] 4
           false [1; 2; 2; 1]); [simpl; lia | reflexivity |].
  exists 2. split; [lia|]. exists 3, 2. done.
Defined.

(** C6, as the code has it.  In noise mode, for sorted weights and an
    accepted edge list, the construction fails with a runtime error when
    fewer than two vertices are leaves (degree 1, the noise points), and
    succeeds otherwise, with [noise_count] the number of leaves. *)
Theorem noise_mode_needs_two_leaves {T : Type} (T_gt : T → T → bool)
    (d : list T) (ind : list Z) (n0 : Z) (dg : list Z) :
  0 ≤ n0 →
  check_sorted T_gt d n0 = Ok tt →
  Cget_graph_node_degrees ind (n0 - 1) n0 (replicate (Z.to_nat n0) 0) = Ok dg →
  (leaf_count dg n0 < 2 → CGenie_new T_gt d ind n0 true = Err runtime_error) ∧
  (2 ≤ leaf_count dg n0 →
     ∃ g, CGenie_new T_gt d ind n0 true = Ok g ∧ deg g = dg ∧
       noise_count g = leaf_count dg n0).
Proof.
  intros Hn Hs Hdeg. unfold CGenie_new. destruct (Z.ltb_spec n0 0); [lia|].
  rewrite Hs, Hdeg. cbn [bind].
  pose proof (Cget_graph_node_degrees_length _ _ _ _ _ Hdeg) as Hlen.
  rewrite length_replicate in Hlen.
  destruct (denoise_loop_spec dg n0) as (j & di & dir & -> & Hj & _);
    [lia | lia |]. cbn [bind].
  destruct (Z.leb_spec 2 (leaf_count dg n0)); cbn [negb].
  - split; [lia|]. intros _.
    destruct (Z.eqb_spec (j + leaf_count dg n0) n0); [|lia]. cbn [negb].
    eexists. split; [done|]. done.
  - split; [done | lia].
Qed.

Lemma noise_mode_needs_two_leaves_witness :
  CGenie_new Z.gtb [1; 2] [0; 1; 0; 1] 3 true = Err runtime_error ∧
  ∃ g, CGenie_new Z.gtb [1; 1; 1; 1] star5 5 true = Ok g ∧
    deg g = [4; 1; 1; 1; 1] ∧ noise_count g = leaf_count [4; 1; 1; 1; 1] 5.
Proof.
  split.
  - apply (noise_mode_needs_two_leaves Z.gtb [1; 2] [0; 1; 0; 1] 3 [2; 2; 0]);
      [lia | reflexivity | reflexivity | vm_compute; reflexivity].
  - apply (noise_mode_needs_two_leaves Z.gtb [1; 1; 1; 1]
             star5 5 [4; 1; 1; 1; 1]);
      [lia | reflexivity | reflexivity | vm_compute; discriminate].
Defined.

(** C6, as the specification words it, fails: the star on five vertices
    has a single vertex of degree above 1, fewer than two non-noise
    vertices, and its construction in noise mode succeeds. *)
Lemma one_inner_vertex_is_accepted :
  ¬ (∀ (d ind : list Z) (n0 : Z) (dg : list Z),
       Cget_graph_node_degrees ind (n0 - 1) n0 (replicate (Z.to_nat n0) 0)
         = Ok dg →
       inner_count dg n0 < 2 →
       ∃ e, CGenie_new Z.gtb d ind n0 true = Err e).
Proof.
  intros H.
  destruct (H [1; 1; 1; 1] star5 5 [4; 1; 1; 1; 1])
    as [e He]; [reflexivity | vm_compute; reflexivity |].
  vm_compute in He. discriminate.
Qed.

(** ** The skip-list of the edges *)

Section SkipList.
Context {T : Type} (T_gt : T → T → bool).
Implicit Type g : @CGenie T.

(** The noise-leaves loop comes back, and it leaves [lastidx] at [-1]
    exactly when no edge joins two inner vertices. *)
Lemma skiplist_noise_loop_spec g :
  1 ≤ n g → edges_in_range (mst_i g) (n g) →
  Z.of_nat (length (deg g)) = n g →
  Z.of_nat (length (next_edge g)) = n g →
  Z.of_nat (length (prev_edge g)) = n g →
  ∃ cur last nxt prv,
    skiplist_noise_loop g = Ok (cur, last, nxt, prv) ∧
    Z.of_nat (length nxt) = n g ∧
    ((cur = -1 ∧ last = -1 ∧
      ∀ j, 0 ≤ j < n g - 1 → inner_edge (deg g) (mst_i g) j = false) ∨
     (0 ≤ cur ≤ last ∧ last < n g - 1 ∧
      inner_edge (deg g) (mst_i g) last = true)).
Proof.
  intros Hn He Hdeg Hnxt Hprv. unfold skiplist_noise_loop.
  match goal with |- context [for_range 0 _ ?b ?s] =>
    destruct (for_range_inv
      (λ i (st : Z * Z * list Z * list Z),
         let '(cur, last, nxt, prv) := st in
         Z.of_nat (length nxt) = n g ∧ Z.of_nat (length prv) = n g ∧
         ((cur = -1 ∧ last = -1 ∧
           ∀ j, 0 ≤ j < i → inner_edge (deg g) (mst_i g) j = false) ∨
          (0 ≤ cur ≤ last ∧ last < i ∧
           inner_edge (deg g) (mst_i g) last = true)))
      0 (n g - 1) b s) as ([[[cur last] nxt] prv] & Hloop & Hinv)
  end; [lia | | |].
  - split; [done|]. split; [done|]. left. split; [done|]. split; [done|]. lia.
  - intros i [[[cur last] nxt] prv] Hi (Hl1 & Hl2 & Hcase).
    destruct (He i Hi) as (u & v & Eu & Ev & Hu & Hv & _).
    rewrite Eu, Ev. cbn [bind].
    destruct (vget_total (deg g) u) as [d1 E1]; [lia|].
    destruct (vget_total (deg g) v) as [d2 E2]; [lia|].
    rewrite E1. cbn [bind].
    assert (inner_edge (deg g) (mst_i g) i = (1 <? d1) && (1 <? d2)) as Ei
      by (unfold inner_edge, is_inner; by rewrite Eu, Ev, E1, E2).
    assert ((if 1 <? d1 then d3 <- vget (deg g) v ;; Ok (1 <? d3)
             else Ok false) = Ok (inner_edge (deg g) (mst_i g) i)) as ->.
    { rewrite Ei, E2. by destruct (1 <? d1). }
    cbn [bind]. destruct (inner_edge (deg g) (mst_i g) i) eqn:Eb.
    + destruct (Z.ltb_spec cur 0).
      * rewrite vset_total by lia. cbn [bind]. eexists. split; [done|].
        split; [done|]. split; [rewrite length_upd; lia|]. right.
        split; [lia|]. split; [lia | done].
      * destruct Hcase as [(? & _)|(Hc & Hlast & _)]; [lia|].
        rewrite vset_total by lia. cbn [bind].
        rewrite vset_total by lia. cbn [bind]. eexists. split; [done|].
        split; [rewrite length_upd; lia|].
        split; [rewrite length_upd; lia|]. right.
        split; [lia|]. split; [lia | done].
    + eexists. split; [done|]. split; [done|]. split; [done|].
      destruct Hcase as [(-> & -> & Hall)|(Hc & Hlast & Hin)].
      * left. split; [done|]. split; [done|]. intros j Hj.
        destruct (decide (j = i)) as [->|]; [done|]. apply Hall. lia.
      * right. split; [done|]. split; [lia | done].
  - destruct Hinv as (Hl1 & _ & Hcase). exists cur, last, nxt, prv.
    split; [done|]. split; [done|].
    destruct Hcase as [?|(? & ? & ?)]; [by left | right; done].
Qed.

(** In noise mode [skiplist_init] writes [next_edge[lastidx]] after its
    loop: out of bounds when the loop linked no edge. *)
Lemma skiplist_init_noise g :
  noise_leaves g = true →
  1 ≤ n g → edges_in_range (mst_i g) (n g) →
  Z.of_nat (length (deg g)) = n g →
  Z.of_nat (length (next_edge g)) = n g →
  Z.of_nat (length (prev_edge g)) = n g →
  ((∀ j, 0 ≤ j < n g - 1 → inner_edge (deg g) (mst_i g) j = false) →
     skiplist_init g = Err out_of_bounds) ∧
  ((∃ j, 0 ≤ j < n g - 1 ∧ inner_edge (deg g) (mst_i g) j = true) →
     ∃ g', skiplist_init g = Ok g').
Proof.
  intros Hnl Hn He Hdeg Hnxt Hprv. unfold skiplist_init. rewrite Hnl.
  destruct (skiplist_noise_loop_spec g Hn He Hdeg Hnxt Hprv)
    as (cur & last & nxt & prv & -> & Hl & Hcase). cbn [bind].
  destruct Hcase as [(-> & -> & Hall)|(Hc & Hlast & Hin)].
  - split; [done|]. intros (j & Hj & Ej). rewrite Hall in Ej; done.
  - rewrite vset_total by lia. cbn [bind]. split; [|by eauto].
    intros Hall. rewrite Hall in Hin; [done | lia].
Qed.

End SkipList.

Lemma star5_in_range : edges_in_range star5 5.
Proof.
  intros j Hj.
  assert (j = 0 ∨ j = 1 ∨ j = 2 ∨ j = 3) as [-> | [-> | [-> | ->] ] ] by lia;
    eexists _, _; (split; [reflexivity|]); (split; [reflexivity|]); lia.
Qed.

(** C10.  For an accepted input in noise mode, the write
    [next_edge[lastidx] = n-1] that ends [skiplist_init] is in bounds only
    if some edge has both endpoints of degree above 1: when there is no
    such edge, [lastidx] is still [-1] and the write is out of bounds;
    when there is one, [skiplist_init] completes.  The star on five
    vertices is accepted by the constructor and has no such edge, so
    [apply_genie] runs into the out-of-bounds write, before the check of
    [do_genie] on the number of clusters, which would raise a runtime
    error, is reached. *)
Theorem skiplist_init_write_out_of_bounds {T : Type} (T_gt : T → T → bool)
    (d : list T) (ind : list Z) (n0 : Z) (g : CGenie) :
  CGenie_new T_gt d ind n0 true = Ok g →
  edges_in_range ind n0 →
  (((∀ j, 0 ≤ j < n0 - 1 → inner_edge (deg g) ind j = false) →
      skiplist_init g = Err out_of_bounds) ∧
   ((∃ j, 0 ≤ j < n0 - 1 ∧ inner_edge (deg g) ind j = true) →
      ∃ g', skiplist_init g = Ok g')) ∧
  ∃ gs, CGenie_new Z.gtb [1; 1; 1; 1] star5 5 true = Ok gs ∧
    skiplist_init gs = Err out_of_bounds ∧
    apply_genie gs 1 (1 # 2) [0; 0; 0; 0; 0] = Err out_of_bounds ∧
    do_genie gs 1 (1 # 2) = Err runtime_error.
Proof.
  intros Hnew He. split.
  - destruct (CGenie_new_inv _ _ _ _ _ _ Hnew)
      as (Hn & _ & Hdeg & _ & Hi & Hng & Hnl & Hnx & Hpv & (j & Hloop & Hnc & Hj)).
    apply Cget_graph_node_degrees_length in Hdeg.
    rewrite length_replicate in Hdeg.
    destruct (denoise_loop_spec (deg g) n0) as (j' & di & dir & Hloop' & Hj' & _);
      [lia | lia |].
    rewrite Hloop in Hloop'. injection Hloop' as Hlc _ _ _.
    pose proof (count_range_bounds (is_leaf (deg g)) 0 n0 Hn) as Hb.
    fold (leaf_count (deg g) n0) in Hb.
    rewrite <- Hi, <- Hng. rewrite <- Hi, <- Hng in He.
    apply skiplist_init_noise; [done | lia | done | lia | |].
    + rewrite Hnx, length_replicate. lia.
    + rewrite Hpv, length_replicate. lia.
  - eexists. split; [reflexivity|]. split; [reflexivity|].
    split; reflexivity.
Qed.

Lemma skiplist_init_write_out_of_bounds_witness :
  ∃ g, CGenie_new Z.gtb [1; 1; 1; 1] star5 5 true = Ok g ∧
    skiplist_init g = Err out_of_bounds.
Proof.
  eexists. split; [reflexivity|].
  refine (proj1 (proj1 (skiplist_init_write_out_of_bounds Z.gtb [1; 1; 1; 1]
            star5 5 _ eq_refl star5_in_range)) _).
  intros j Hj.
  assert (j = 0 ∨ j = 1 ∨ j = 2 ∨ j = 3) as [-> | [-> | [-> | ->] ] ] by lia;
    reflexivity.
Defined.

(** ** The queries of the Gini disjoint-sets *)

Module GiniFacts.
Import DisjointSets DisjointSetsFacts GiniDisjointSets.

Lemma sizes_nonneg ds : Forall (λ s, 0 ≤ s) (sizes ds).
Proof.
  unfold sizes. apply Forall_fmap, Forall_forall. intros r _.
  unfold size_of. simpl. lia.
Qed.

Lemma sum_sizes_nonneg s : Forall (λ x, 0 ≤ x) s → 0 ≤ sum_sizes s.
Proof. induction 1; simpl; lia. Qed.

Lemma gini_numerator_le k i s :
  Forall (λ x, 0 ≤ x) s → i + Z.of_nat (length s) - 1 ≤ k →
  gini_numerator k i s ≤ (k - 1) * sum_sizes s.
Proof.
  intros Hs. revert i. induction Hs as [|x s Hx Hs IH]; intros i Hi; simpl.
  - lia.
  - simpl in Hi. specialize (IH (i + 1) ltac:(lia)).
    pose proof (sum_sizes_nonneg s Hs). nia.
Qed.

(** The Gini index never exceeds 1. *)
Lemma get_gini_le_1 ds : Qgt_bool (get_gini ds) 1 = false.
Proof.
  unfold Qgt_bool. apply negb_false_iff, Qle_bool_iff. unfold get_gini.
  set (s := merge_sort Z.le (sizes ds)).
  assert (Forall (λ x, 0 ≤ x) s) as Hs.
  { unfold s. rewrite merge_sort_Permutation. apply sizes_nonneg. }
  destruct (Z.leb_spec (Z.of_nat (length s)) 1); [done|].
  pose proof (gini_numerator_le (Z.of_nat (length s)) 1 s Hs ltac:(lia)) as Hle.
  pose proof (sum_sizes_nonneg s Hs) as Hsum.
  unfold Qle. simpl. rewrite Z.mul_1_r.
  set (den := (Z.of_nat (length s) - 1) * sum_sizes s) in *.
  destruct (Z.le_gt_cases den 0).
  - assert (den = 0) as Hd by nia. rewrite Hd in *. simpl. lia.
  - rewrite Z2Pos.id by lia. lia.
Qed.

Lemma foldr_min_le s l y : y ∈ s :: l → foldr Z.min s l ≤ y.
Proof.
  induction l as [|x l IH]; simpl.
  - intros ->%list_elem_of_singleton. lia.
  - intros [->|[->|H]%elem_of_cons]%elem_of_cons.
    + specialize (IH (list_elem_of_here _ _)). lia.
    + lia.
    + specialize (IH (list_elem_of_further _ _ _ H)). lia.
Qed.

(** No set is smaller than the smallest count. *)
Lemma get_smallest_count_le ds x c :
  wf ds → get_count ds x = Ok c → get_smallest_count ds ≤ c.
Proof.
  intros [Hlen Hw]. unfold get_count.
  destruct (Z.ltb_spec x 0); [done|].
  destruct (Z.leb_spec (n ds) x); [done|]. simpl. intros [= <-].
  assert (size_of ds (root (par ds) x) ∈ sizes ds) as Hin.
  { unfold sizes. apply list_elem_of_fmap. exists (root (par ds) x).
    split; [done|]. unfold roots. apply list_elem_of_filter. split.
    - apply root_root; [done | lia].
    - unfold elements. apply elem_of_seqZ.
      pose proof (root_bounds (par ds) x Hw ltac:(lia)). lia. }
  unfold get_smallest_count. destruct (sizes ds) as [|s l]; [|by apply foldr_min_le].
  by apply elem_of_nil in Hin.
Qed.

Lemma get_count_Ok ds x c :
  get_count ds x = Ok c →
  0 ≤ x < n ds ∧ c = size_of ds (root (par ds) x).
Proof.
  unfold get_count. destruct (Z.ltb_spec x 0); [done|].
  destruct (Z.leb_spec (n ds) x); [done|]. simpl. intros [= <-]. lia.
Qed.

Lemma get_count_total ds x :
  0 ≤ x < n ds → get_count ds x = Ok (size_of ds (root (par ds) x)).
Proof.
  intros Hx. unfold get_count. destruct (Z.ltb_spec x 0); [lia|].
  destruct (Z.leb_spec (n ds) x); [lia|]. done.
Qed.

End GiniFacts.

(** ** The Genie branch *)

Section GenieBranch.
Context {T : Type}.
Implicit Type g : @CGenie T.

(** The walk stops only at an edge with an endpoint in a set of size [m]. *)
Lemma genie_walk_stops fuel g m last last1 :
  genie_walk fuel g m last = Ok last1 →
  (∃ i1, edge_u (mst_i g) last1 = Ok i1 ∧ count_of g i1 = Ok m) ∨
  (∃ i2, edge_v (mst_i g) last1 = Ok i2 ∧ count_of g i2 = Ok m).
Proof.
  revert last. induction fuel as [|f IH]; intros last; [done|]. simpl.
  intros (i1 & E1 & (c1 & C1 & H)%bind_Ok)%bind_Ok.
  destruct (Z.eqb_spec c1 m) as [->|Hne]; simpl in H.
  - injection H as <-. left. eauto.
  - apply bind_Ok in H as (i2 & E2 & (c2 & C2 & H)%bind_Ok).
    destruct (Z.eqb_spec c2 m) as [->|Hne2]; simpl in H.
    + injection H as <-. right. eauto.
    + apply bind_Ok in H as (nx & _ & H). by apply IH in H.
Qed.

Lemma genie_branch_inv g lastm i1 i2 g1 m :
  genie_branch g lastm = Ok (i1, i2, g1, m) →
  m = GiniDisjointSets.get_smallest_count (ds g) ∧
  ds g1 = ds g ∧ denoise_index_rev g1 = denoise_index_rev g ∧
  (∃ e, edge_u (mst_i g) e = Ok i1 ∧ edge_v (mst_i g) e = Ok i2) ∧
  (count_of g i1 = Ok m ∨ count_of g i2 = Ok m).
Proof.
  unfold genie_branch.
  intros (last1 & Hw & (j1 & E1 & (j2 & E2 & (g' & Hg & H)%bind_Ok)%bind_Ok)
    %bind_Ok)%bind_Ok.
  injection H as <- <- <- <-. split; [done|].
  assert (count_of g j1 = Ok (GiniDisjointSets.get_smallest_count (ds g)) ∨
          count_of g j2 = Ok (GiniDisjointSets.get_smallest_count (ds g)))
    as Hc.
  { destruct (genie_walk_stops _ _ _ _ _ Hw) as [(k & F & Hc)|(k & F & Hc)].
    - rewrite E1 in F. injection F as <-. by left.
    - rewrite E2 in F. injection F as <-. by right. }
  assert (ds g' = ds g ∧ denoise_index_rev g' = denoise_index_rev g) as [? ?].
  { destruct (last1 =? curidx g).
    - apply bind_Ok in Hg as (nx & _ & [= <-]). done.
    - apply bind_Ok in Hg as (pv & _ & (l2 & _ & (nxt' & _ &
        (prv' & _ & [= <-])%bind_Ok)%bind_Ok)%bind_Ok). done. }
  split; [done|]. split; [done|]. split; [by eauto | done].
Qed.

End GenieBranch.

Example path5_middle_last_built :
  (g <- CGenie_new Z.gtb [1; 2; 3; 4] [0; 1; 2; 3; 1; 2; 3; 4] 5 false ;;
   skiplist_init g) = Ok path5_middle_last.
Proof. reflexivity. Qed.

Example path5_middle_last_labels :
  genie [1; 2; 3; 4] [0; 1; 2; 3; 1; 2; 3; 4] 5 false 2 0 = Ok [0; 0; 1; 1; 1] ∧
  genie [1; 2; 3; 4] [0; 1; 2; 3; 1; 2; 3; 4] 5 false 2 1 = Ok [0; 0; 0; 0; 1].
Proof. split; reflexivity. Qed.

(** ** The scenarios *)

(** C1, as the code has it.  On the path with edges [(0,1),(1,2),(2,3),(3,4)]
    of weights 1, 2, 3, 4, with two clusters, threshold 0 and no noise
    leaves, the run ends with clusters of sizes 4 and 1 and the labels
    [[0,0,0,0,1]]: after [{0,1,2}], [{3}], [{4}] the first remaining edge
    with an endpoint in a cluster of size 1 is [(2,3)]. *)
Theorem path5_genie_active_labels :
  ∃ g g1 g2,
    CGenie_new Z.gtb [1; 2; 3; 4] path5 5 false = Ok g ∧
    skiplist_init g = Ok g1 ∧
    do_genie g1 2 0 = Ok g2 ∧
    GiniDisjointSets.sizes (ds g2) = [4; 1] ∧
    apply_genie g 2 0 [0; 0; 0; 0; 0] = Ok [0; 0; 0; 0; 1].
Proof.
  eexists _, _, _. split; [vm_compute; reflexivity|].
  split; [vm_compute; reflexivity|]. split; [vm_compute; reflexivity|].
  split; vm_compute; reflexivity.
Qed.

(** C1, as the specification states it, fails: the labels are not
    [[0,0,0,1,1]]. *)
Lemma path5_genie_active_not_balanced :
  genie [1; 2; 3; 4] path5 5 false 2 0 ≠ Ok [0; 0; 0; 1; 1].
Proof. vm_compute. discriminate. Qed.

(** C5, as the code has it.  On the star with centre 0 and noise leaves,
    the construction succeeds and marks the four leaves as noise, which
    leaves a single point to cluster; with one cluster requested no merge
    is left, [n - noise_count - n_clusters = 0], which [do_genie] rejects
    with a runtime error whatever the skip-list holds; [apply_genie] does
    not return labels. *)
Theorem star5_noise_leaves_rejected :
  ∃ g,
    CGenie_new Z.gtb [1; 1; 1; 1] star5 5 true = Ok g ∧
    noise_count g = 4 ∧ denoise_index_rev g = [0; -1; -1; -1; -1] ∧
    n g - noise_count g - 1 = 0 ∧
    (∀ nxt prv cur last gini_threshold,
       do_genie (set_skiplist g nxt prv cur last) 1 gini_threshold
         = Err runtime_error) ∧
    (∀ res labels, apply_genie g 1 (1 # 2) res ≠ Ok labels).
Proof.
  eexists. split; [reflexivity|]. split; [reflexivity|].
  split; [reflexivity|]. split; [reflexivity|]. split.
  - intros nxt prv cur last th. reflexivity.
  - intros res labels. discriminate.
Qed.

(** C5, as the specification states it, fails: [apply] does not output
    [-1] for the leaves and [0] for the centre. *)
Lemma star5_noise_leaves_no_labels :
  genie [1; 1; 1; 1] star5 5 true 1 (1 # 2) ≠ Ok [0; -1; -1; -1; -1].
Proof. vm_compute. discriminate. Qed.

(** ** Single linkage: threshold 1 without noise leaves *)

Section SingleLinkage.
Context {T : Type} (T_gt : T → T → bool).
Implicit Type g : @CGenie T.

Lemma edges_in_range_not_rejected ind n0 j :
  edges_in_range ind n0 → 0 ≤ j < n0 - 1 → edge_rejected ind n0 j = false.
Proof.
  intros He Hj. destruct (He j Hj) as (u & v & Eu & Ev & Hu & Hv & Hne).
  unfold edge_rejected, edge_absent. rewrite Eu, Ev.
  destruct (Z.ltb_spec u 0); [lia|]. destruct (Z.ltb_spec v 0); [lia|].
  destruct (Z.leb_spec n0 u); [lia|]. destruct (Z.leb_spec n0 v); [lia|].
  destruct (Z.eqb_spec u v); [lia | done].
Qed.

Lemma edges_in_range_length ind n0 :
  1 ≤ n0 → edges_in_range ind n0 → 2 * (n0 - 1) ≤ Z.of_nat (length ind).
Proof.
  intros Hn He. destruct (Z.eq_dec n0 1) as [->|]; [lia|].
  destruct (He (n0 - 2)) as (u & v & _ & Ev & _); [lia|].
  unfold edge_v in Ev. apply vget_range in Ev. lia.
Qed.

(** Without noise leaves the construction succeeds on sorted weights and
    a well-formed edge list, and both translation tables are the identity. *)
Lemma CGenie_new_plain (d : list T) ind n0 :
  1 ≤ n0 → n0 - 1 ≤ Z.of_nat (length d) →
  (∀ j, 1 ≤ j < n0 - 1 → unsorted_at T_gt d j = false) →
  edges_in_range ind n0 →
  ∃ g, CGenie_new T_gt d ind n0 false = Ok g ∧
    mst_i g = ind ∧ n g = n0 ∧ noise_leaves g = false ∧ noise_count g = 0 ∧
    Z.of_nat (length (next_edge g)) = n0 ∧
    Z.of_nat (length (prev_edge g)) = n0 ∧
    ∀ x, 0 ≤ x < n0 →
      vget (denoise_index g) x = Ok x ∧ vget (denoise_index_rev g) x = Ok x.
Proof.
  intros Hn Hl Hs He. unfold CGenie_new. destruct (Z.ltb_spec n0 0); [lia|].
  destruct (check_sorted_spec T_gt d n0 Hl) as [_ ->]; [|done]. cbn [bind].
  destruct (Cget_graph_node_degrees_spec ind (n0 - 1) n0 (replicate (Z.to_nat n0) 0))
    as [_ (dg & -> & _)]; [lia | rewrite length_replicate; lia | lia | | |].
  { by apply edges_in_range_length. }
  { intros j Hj. by apply edges_in_range_not_rejected. }
  cbn [bind]. destruct (identity_loop_spec n0) as (di & dir & -> & _ & _ & Hv);
    [lia|]. cbn [bind]. eexists. split; [done|]. cbn.
  rewrite length_replicate. repeat (split; [done || lia|]). done.
Qed.

(** Without noise leaves [skiplist_init] forms the chain 0 → 1 → ... *)
Lemma skiplist_init_plain g :
  noise_leaves g = false → 1 ≤ n g →
  Z.of_nat (length (next_edge g)) = n g →
  Z.of_nat (length (prev_edge g)) = n g →
  ∃ nxt prv, skiplist_init g = Ok (set_skiplist g nxt prv 0 0) ∧
    ∀ i, 0 ≤ i < n g - 1 → vget nxt i = Ok (i + 1).
Proof.
  intros Hnl Hn Hnx Hpv. unfold skiplist_init, skiplist_chain_loop. rewrite Hnl.
  match goal with |- context [for_range 0 _ ?b ?s] =>
    destruct (for_range_inv
      (λ i (st : list Z * list Z),
         let '(nxt, prv) := st in
         Z.of_nat (length nxt) = n g ∧ Z.of_nat (length prv) = n g ∧
         ∀ x, 0 ≤ x < i → vget nxt x = Ok (x + 1))
      0 (n g - 1) b s) as ([nxt prv] & Hloop & Hinv)
  end; [lia | | |].
  - split; [done|]. split; [done|]. lia.
  - intros i [nxt prv] Hi (H1 & H2 & Hv).
    rewrite vset_total by lia. cbn [bind].
    rewrite vset_total by lia. cbn [bind]. eexists. split; [done|].
    split; [rewrite length_upd; lia|]. split; [rewrite length_upd; lia|].
    intros x Hx. destruct (decide (x = i)) as [->|Hne].
    + rewrite vget_upd_eq by lia. done.
    + rewrite vget_upd_ne by (done || lia). apply Hv. lia.
  - rewrite Hloop. cbn [bind]. exists nxt, prv. split; [done|]. apply Hinv.
Qed.

Lemma connected_mono ind m m' a b :
  m ≤ m' → connected ind m a b → connected ind m' a b.
Proof.
  intros Hm. induction 1 as [a|j u v Hj Eu Ev|a b _ IH|a b c _ IH1 _ IH2].
  - apply connected_refl.
  - apply (connected_edge _ _ j); [lia | done | done].
  - by apply connected_sym.
  - by apply connected_trans with b.
Qed.

Lemma connected_no_edge ind a b : connected ind 0 a b → a = b.
Proof. induction 1; [done | lia | done | congruence]. Qed.

Lemma root_new n0 a : DisjointSets.root (DisjointSets.par (DisjointSets.new n0)) a = a.
Proof.
  destruct (decide (0 ≤ a < n0)) as [Ha|Ha].
  - by apply DisjointSetsFacts.root_self, DisjointSetsFacts.vget_new.
  - apply DisjointSetsFacts.root_outside. simpl. rewrite length_seqZ. lia.
Qed.

Lemma partition_new ind n0 :
  0 ≤ n0 → partition_of ind 0 (DisjointSets.new n0) n0.
Proof.
  intros Hn. split; [by apply DisjointSetsFacts.wf_new|]. split; [done|]. split.
  - by intros a b ->%connected_no_edge.
  - intros a b _ _. rewrite !root_new. intros ->. apply connected_refl.
Qed.

(** Merging the endpoints of edge [i] turns the partition of the edges
    before [i] into the partition of the edges up to [i]. *)
Lemma partition_step ind n0 i d u v :
  edges_in_range ind n0 → forest ind n0 → 0 ≤ i < n0 - 1 →
  edge_u ind i = Ok u → edge_v ind i = Ok v →
  partition_of ind i d n0 →
  ∃ d' r, DisjointSets.merge d u v = (d', Ok r) ∧
    partition_of ind (i + 1) d' n0.
Proof.
  intros He Hf Hi Eu Ev (Hwf & Hn & Hcr & Hrc).
  destruct (He i Hi) as (u' & v' & Eu' & Ev' & Hu & Hv & Huv).
  rewrite Eu in Eu'. rewrite Ev in Ev'. injection Eu' as <-. injection Ev' as <-.
  set (p := DisjointSets.par d) in *.
  assert (DisjointSets.root p u ≠ DisjointSets.root p v) as Hne.
  { intros Heq. apply (Hf i u v Hi Eu Ev). by apply Hrc. }
  destruct (DisjointSetsFacts.merge_spec d u v Hwf ltac:(lia) ltac:(lia) Hne)
    as (d' & Hm & Hwf' & Hn' & _ & Hroot).
  fold p in Hm, Hroot.
  set (rx := DisjointSets.root p u) in *. set (ry := DisjointSets.root p v) in *.
  exists d', (Z.min rx ry). split; [done|].
  split; [done|]. split; [lia|]. split.
  - induction 1 as [a|j x y Hj Ex Ey|a b _ IH|a b c _ IH1 _ IH2];
      [done | | done | congruence].
    rewrite !Hroot. destruct (decide (j = i)) as [->|Hji].
    + rewrite Eu in Ex. rewrite Ev in Ey. injection Ex as <-. injection Ey as <-.
      fold rx ry. destruct (decide (rx = Z.max rx ry)), (decide (ry = Z.max rx ry)); lia.
    + assert (connected ind i x y) as Hc
        by (apply (connected_edge _ _ j); [lia | done | done]).
      by rewrite (Hcr _ _ Hc).
  - intros a b Ha Hb. rewrite !Hroot.
    assert (connected ind (i + 1) u v) as Huv'
      by (apply (connected_edge _ _ i); [lia | done | done]).
    assert (∀ x y, 0 ≤ x < n0 → 0 ≤ y < n0 →
            DisjointSets.root p x = DisjointSets.root p y →
            connected ind (i + 1) x y) as Hup.
    { intros x y Hx Hy Hxy. apply (connected_mono _ i); [lia|]. by apply Hrc. }
    assert (∀ x y, 0 ≤ x < n0 → 0 ≤ y < n0 →
            DisjointSets.root p x = Z.max rx ry →
            DisjointSets.root p y = Z.min rx ry →
            connected ind (i + 1) x y) as Hcross.
    { intros x y Hx Hy Hxm Hym. destruct (Z.le_gt_cases rx ry).
      - rewrite Z.max_r in Hxm by lia. rewrite Z.min_l in Hym by lia.
        apply connected_trans with v; [apply Hup; [lia | lia | done]|].
        apply connected_trans with u; [by apply connected_sym|].
        apply Hup; [lia | lia | done].
      - rewrite Z.max_l in Hxm by lia. rewrite Z.min_r in Hym by lia.
        apply connected_trans with u; [apply Hup; [lia | lia | done]|].
        apply connected_trans with v; [done|].
        apply Hup; [lia | lia | done]. }
    destruct (decide (DisjointSets.root p a = Z.max rx ry)) as [Ea|Ea];
      destruct (decide (DisjointSets.root p b = Z.max rx ry)) as [Eb|Eb]; intros Hab.
    + apply Hup; [done | done | congruence].
    + by apply Hcross.
    + apply connected_sym. by apply Hcross.
    + by apply Hup.
Qed.

(** With threshold 1 every iteration of [do_genie] takes the
    single-linkage branch and consumes the edge under [curidx]. *)
Lemma do_genie_single_linkage g k :
  noise_count g = 0 → curidx g = 0 → 1 ≤ k < n g →
  edges_in_range (mst_i g) (n g) → forest (mst_i g) (n g) →
  (∀ i, 0 ≤ i < n g - 1 → vget (next_edge g) i = Ok (i + 1)) →
  (∀ x, 0 ≤ x < n g → vget (denoise_index_rev g) x = Ok x) →
  ∃ g2, do_genie g k 1 = Ok g2 ∧
    n g2 = n g ∧ denoise_index g2 = denoise_index g ∧
    denoise_index_rev g2 = denoise_index_rev g ∧
    curidx g2 = n g - k ∧
    partition_of (mst_i g) (n g - k) (ds g2) (n g) ∧
    single_linkage_cut (mst_i g) (n g) (n g - k) = Ok (ds g2).
Proof.
  intros Hnc Hcur Hk He Hf Hnx Hrev. unfold do_genie. rewrite Hnc, Z.sub_0_r.
  destruct (Z.leb_spec (n g - k) 0); [lia|].
  destruct (for_range_inv
    (λ i (st : CGenie * Z),
       mst_i st.1 = mst_i g ∧ n st.1 = n g ∧
       denoise_index st.1 = denoise_index g ∧
       denoise_index_rev st.1 = denoise_index_rev g ∧
       next_edge st.1 = next_edge g ∧ curidx st.1 = i ∧
       partition_of (mst_i g) i (ds st.1) (n g) ∧
       for_range 0 i (cut_step (mst_i g)) (DisjointSets.new (n g)) = Ok (ds st.1))
    0 (n g - k) (λ _ st, genie_iteration 1 st)
    (set_ds g (GiniDisjointSets.new (n g)), 0)) as ([g2 lastm] & Hloop & Hinv);
    [lia | | |].
  - cbn. repeat (split; [done|]). split; [apply partition_new; lia | done].
  - intros i [g' lastm] Hi (Hi1 & Hi2 & Hi3 & Hi4 & Hi5 & Hi6 & Hp & Hcut).
    cbn [fst snd] in *. unfold genie_iteration.
    rewrite GiniFacts.get_gini_le_1. unfold single_linkage_branch.
    destruct (He i ltac:(lia)) as (u & v & Eu & Ev & Hu & Hv & _).
    rewrite Hi1, Hi6, Eu, Ev, Hi5, Hnx by lia. cbn [bind].
    unfold merge_edge. cbn [denoise_index_rev set_skiplist ds].
    rewrite Hi4, (Hrev u Hu), (Hrev v Hv). cbn [bind].
    destruct (partition_step _ _ i _ u v He Hf ltac:(lia) Eu Ev Hp)
      as (d' & r & Hm & Hp').
    unfold GiniDisjointSets.merge. rewrite Hm. cbn [bind].
    eexists. split; [done|]. cbn. repeat (split; [done|]).
    rewrite for_range_snoc by lia. rewrite Hcut. cbn [bind].
    unfold cut_step. rewrite Eu, Ev. cbn [bind]. by rewrite Hm.
  - rewrite Hloop. cbn [bind fst]. exists g2.
    destruct Hinv as (_ & ? & ? & ? & _ & ? & ? & ?). cbn [fst] in *. done.
Qed.

End SingleLinkage.

Lemma connected_respects (f : Z → Z) ind m a b :
  (∀ j u v, 0 ≤ j < m → edge_u ind j = Ok u → edge_v ind j = Ok v → f u = f v) →
  connected ind m a b → f a = f b.
Proof.
  intros Hf. induction 1 as [a|j u v Hj Eu Ev|a b _ IH|a b c _ IH1 _ IH2];
    [done | by apply (Hf j) | done | congruence].
Qed.

Lemma path5_in_range : edges_in_range path5 5.
Proof.
  intros j Hj.
  assert (j = 0 ∨ j = 1 ∨ j = 2 ∨ j = 3) as [-> | [-> | [-> | ->] ] ] by lia;
    eexists _, _; (split; [reflexivity|]); (split; [reflexivity|]); lia.
Qed.

Lemma path5_forest : forest path5 5.
Proof.
  intros j u v Hj Eu Ev Hc.
  apply (connected_respects (λ x, if x <=? j then 0 else x)) in Hc.
  - assert (j = 0 ∨ j = 1 ∨ j = 2 ∨ j = 3) as [-> | [-> | [-> | ->] ] ] by lia;
      injection Eu as <-; injection Ev as <-; discriminate.
  - intros i x y Hi Ex Ey.
    assert (i = 0 ∨ i = 1 ∨ i = 2) as [-> | [-> | ->] ] by lia;
      injection Ex as <-; injection Ey as <-;
      assert (j = 1 ∨ j = 2 ∨ j = 3) as [-> | [-> | ->] ] by lia;
      (reflexivity || lia).
Qed.

(** * Further properties of the union-find *)

Module DisjointSetsMore.
Import DisjointSets DisjointSetsFacts.

Lemma find_k ds x : wf ds → k (find ds x).1 = k ds.
Proof.
  intros Hwf. destruct (decide (0 ≤ x < n ds)) as [Hx|Hx].
  - by rewrite find_spec.
  - by rewrite find_domain_error.
Qed.

(** The three outcomes of [merge] on a well-formed object. *)
Lemma merge_cases ds x y :
  wf ds →
  let rx := root (par ds) x in
  let ry := root (par ds) y in
  let ds' := (merge ds x y).1 in
  wf ds' ∧ n ds' = n ds ∧
  (((merge ds x y).2 = Err domain_error ∧
    ¬ (0 ≤ x < n ds ∧ 0 ≤ y < n ds) ∧ k ds' = k ds ∧
    ∀ z, root (par ds') z = root (par ds) z) ∨
   ((merge ds x y).2 = Err invalid_argument ∧
    0 ≤ x < n ds ∧ 0 ≤ y < n ds ∧ rx = ry ∧ k ds' = k ds ∧
    ∀ z, root (par ds') z = root (par ds) z) ∨
   ((merge ds x y).2 = Ok (Z.min rx ry) ∧
    0 ≤ x < n ds ∧ 0 ≤ y < n ds ∧ rx ≠ ry ∧
    k ds' = (k ds - 1) mod 2 ^ 64 ∧
    ∀ z, root (par ds') z =
         if decide (root (par ds) z = Z.max rx ry) then Z.min rx ry
         else root (par ds) z)).
Proof.
  intros Hwf rx ry ds'. split; [by apply merge_wf|].
  unfold ds', merge.
  pose proof (find_k ds x Hwf) as Hk1.
  destruct (find ds x) as [ds1 r1] eqn:F1. cbn [fst] in Hk1.
  destruct (find_facts _ _ _ _ Hwf F1) as (Hwf1 & Hn1 & Hr1 & ->).
  destruct (decide (0 ≤ x < n ds)) as [Hx|Hx].
  2:{ cbn [fst snd]. split; [done|]. left. split; [done|]. split; [tauto|]. done. }
  pose proof (find_k ds1 y Hwf1) as Hk2.
  destruct (find ds1 y) as [ds2 r2] eqn:F2. cbn [fst] in Hk2.
  destruct (find_facts _ _ _ _ Hwf1 F2) as (Hwf2 & Hn2 & Hr2 & ->).
  assert (∀ z, root (par ds2) z = root (par ds) z) as Hr
    by (intros z; by rewrite Hr2, Hr1).
  destruct (decide (0 ≤ y < n ds1)) as [Hy|Hy].
  2:{ cbn [fst snd]. split; [lia|]. left. split; [done|].
      split; [intros [_ ?]; lia|]. split; [congruence | done]. }
  rewrite Hr1. fold rx ry.
  destruct (Z.eqb_spec rx ry) as [Heq|Hne].
  { cbn [fst snd]. split; [lia|]. right. left.
    repeat (split; [done || lia || congruence|]). done. }
  destruct (merge_spec ds x y Hwf Hx ltac:(lia) Hne)
    as (d & Hm & _ & Hnd & _ & Hroot).
  fold rx ry in Hm, Hroot. unfold merge in Hm. rewrite F1, F2, Hr1 in Hm.
  fold rx ry in Hm. destruct (Z.eqb_spec rx ry); [done|].
  destruct (if ry <? rx then (ry, rx) else (rx, ry)) as [x2 y2].
  destruct (vset (par ds2) y2 x2) as [par'|]; [|done].
  injection Hm as <- ->. cbn [fst snd n k par] in *.
  split; [lia|]. right. right.
  repeat (split; [done || lia|]). split; [congruence | done].
Qed.

Lemma run_ops_n ds ops : wf ds → n (run_ops ds ops) = n ds.
Proof.
  revert ds. induction ops as [|o ops IH]; intros ds Hwf; [done|]. simpl.
  destruct o as [x|x y]; simpl.
  - rewrite IH by (by apply find_wf). by apply find_n.
  - destruct (merge_cases ds x y Hwf) as (Hwf' & Hn & _). by rewrite IH.
Qed.

End DisjointSetsMore.

(** X1.  In every object reached from the singletons by [find] and [merge]
    calls, [find(x)] returns the least member of the set of [x]: the
    result is at most [x], [find] of the result is the result itself, and
    no element with the same result is below it. *)
Theorem find_returns_least_member (m : Z) (ops : list DisjointSets.op)
    (x y r : Z) :
  0 ≤ m →
  let ds := DisjointSets.run_ops (DisjointSets.new m) ops in
  (DisjointSets.find ds x).2 = Ok r →
  0 ≤ r ≤ x ∧ (DisjointSets.find ds r).2 = Ok r ∧
  ((DisjointSets.find ds y).2 = Ok r → r ≤ y).
Proof.
  intros Hm ds.
  assert (DisjointSets.wf ds) as Hwf
    by (apply DisjointSetsFacts.run_ops_wf, DisjointSetsFacts.wf_new; lia).
  pose proof Hwf as [Hlen Hw].
  rewrite !DisjointSetsFacts.find_result by done.
  destruct (decide (0 ≤ x < DisjointSets.n ds)) as [Hx|]; [|done].
  intros [= <-].
  pose proof (DisjointSetsFacts.root_bounds _ x Hw ltac:(lia)) as Hb.
  split; [done|]. split.
  - destruct (decide _) as [_|Hn]; [|lia].
    f_equal. apply DisjointSetsFacts.root_root; [done | lia].
  - destruct (decide (0 ≤ y < DisjointSets.n ds)) as [Hy|]; [|done].
    intros [= <-]. apply DisjointSetsFacts.root_bounds; [done | lia].
Qed.

Lemma find_returns_least_member_witness :
  let ds := DisjointSets.run_ops (DisjointSets.new 5)
              [DisjointSets.op_merge 4 2; DisjointSets.op_merge 3 4] in
  0 ≤ 2 ≤ 4 ∧ (DisjointSets.find ds 2).2 = Ok 2 ∧
  ((DisjointSets.find ds 3).2 = Ok 2 → 2 ≤ 3).
Proof.
  apply (find_returns_least_member 5
           [DisjointSets.op_merge 4 2; DisjointSets.op_merge 3 4] 4 3 2).
  - lia.
  - reflexivity.
Defined.

(** X2.  Path compression is invisible: on a well-formed object, a
    [find(x)], whether it returns or throws, changes neither [n], nor [k],
    nor the result of any later [find(y)]. *)
Theorem find_keeps_every_answer (ds : DisjointSets.t) (x y : Z) :
  DisjointSets.wf ds →
  let ds' := (DisjointSets.find ds x).1 in
  DisjointSets.n ds' = DisjointSets.n ds ∧
  DisjointSets.k ds' = DisjointSets.k ds ∧
  (DisjointSets.find ds' y).2 = (DisjointSets.find ds y).2.
Proof.
  intros Hwf ds'.
  pose proof (DisjointSetsFacts.find_wf ds x Hwf) as Hwf'.
  pose proof (DisjointSetsFacts.find_n ds x Hwf) as Hn.
  split; [done|]. split; [by apply DisjointSetsMore.find_k|].
  unfold ds'. rewrite !DisjointSetsFacts.find_result by done.
  rewrite Hn, DisjointSetsFacts.find_root by done. done.
Qed.

Lemma find_keeps_every_answer_witness :
  (DisjointSets.find
     (DisjointSets.find (DisjointSets.mk 4 1 [0; 0; 1; 2]) 3).1 2).2
  = (DisjointSets.find (DisjointSets.mk 4 1 [0; 0; 1; 2]) 2).2.
Proof.
  apply (find_keeps_every_answer (DisjointSets.mk 4 1 [0; 0; 1; 2]) 3 2).
  exact DisjointSetsFacts.wf_concrete_4.
Defined.

(** X3.  A [merge] that throws changes no set: on a well-formed object it
    throws a domain error exactly when [x] or [y] is outside [0,n), an
    invalid-argument error exactly when both are inside and already in the
    same set, and in both cases [k] and the result of every [find] are as
    before. *)
Theorem merge_failure_changes_nothing (ds : DisjointSets.t) (x y z : Z) :
  DisjointSets.wf ds →
  let ds' := (DisjointSets.merge ds x y).1 in
  let rx := DisjointSets.root (DisjointSets.par ds) x in
  let ry := DisjointSets.root (DisjointSets.par ds) y in
  ((DisjointSets.merge ds x y).2 = Err domain_error ↔
     ¬ (0 ≤ x < DisjointSets.n ds ∧ 0 ≤ y < DisjointSets.n ds)) ∧
  ((DisjointSets.merge ds x y).2 = Err invalid_argument ↔
     0 ≤ x < DisjointSets.n ds ∧ 0 ≤ y < DisjointSets.n ds ∧ rx = ry) ∧
  (∀ e, (DisjointSets.merge ds x y).2 = Err e →
     DisjointSets.k ds' = DisjointSets.k ds ∧
     (DisjointSets.find ds' z).2 = (DisjointSets.find ds z).2).
Proof.
  intros Hwf ds' rx ry.
  destruct (DisjointSetsMore.merge_cases ds x y Hwf) as (Hwf' & Hn & Hc).
  fold ds' rx ry in Hwf', Hn, Hc.
  assert (∀ (R : ∀ z, DisjointSets.root (DisjointSets.par ds') z
                        = DisjointSets.root (DisjointSets.par ds) z),
            (DisjointSets.find ds' z).2 = (DisjointSets.find ds z).2) as Hfind.
  { intros R. rewrite !DisjointSetsFacts.find_result by done. by rewrite Hn, R. }
  destruct Hc as [(Hr & Hrange & Hk & Hroot)|[(Hr & Hx & Hy & Heq & Hk & Hroot)|
    (Hr & Hx & Hy & Hne & Hk & Hroot)]]; rewrite Hr.
  - split; [done|]. split; [split; [done | tauto]|]. intros e _. auto.
  - split; [split; [done | tauto]|]. split; [done|]. intros e _. auto.
  - split; [split; [done | tauto]|]. split; [split; [done | tauto]|]. done.
Qed.

Lemma merge_failure_changes_nothing_witness :
  (DisjointSets.merge (DisjointSets.mk 4 1 [0; 0; 1; 2]) 3 1).2
    = Err invalid_argument ∧
  (DisjointSets.merge (DisjointSets.mk 4 1 [0; 0; 1; 2]) 3 4).2
    = Err domain_error.
Proof.
  destruct (merge_failure_changes_nothing (DisjointSets.mk 4 1 [0; 0; 1; 2]) 3 1 0
              DisjointSetsFacts.wf_concrete_4) as (_ & [_ H1] & _).
  destruct (merge_failure_changes_nothing (DisjointSets.mk 4 1 [0; 0; 1; 2]) 3 4 0
              DisjointSetsFacts.wf_concrete_4) as ([_ H2] & _).
  split.
  - apply H1. simpl. split; [lia|]. split; [lia | reflexivity].
  - apply H2. simpl. lia.
Defined.

(** X4.  A [merge] that returns unites exactly the two sets: it returns
    the smaller of the two old representatives, which afterwards is the
    result of [find] for every member of either set, and the [find] of an
    element of any other set is unchanged. *)
Theorem merge_unites_the_two_sets (ds ds' : DisjointSets.t) (x y r z : Z) :
  DisjointSets.wf ds →
  DisjointSets.merge ds x y = (ds', Ok r) →
  0 ≤ z < DisjointSets.n ds →
  let rx := DisjointSets.root (DisjointSets.par ds) x in
  let ry := DisjointSets.root (DisjointSets.par ds) y in
  let rz := DisjointSets.root (DisjointSets.par ds) z in
  r = Z.min rx ry ∧ rx ≠ ry ∧
  (DisjointSets.find ds' z).2 = Ok (if decide (rz = rx ∨ rz = ry) then r else rz).
Proof.
  intros Hwf Hm Hz rx ry rz.
  destruct (DisjointSetsMore.merge_cases ds x y Hwf) as (Hwf' & Hn & Hc).
  rewrite Hm in Hwf', Hn, Hc. cbn [fst snd] in Hwf', Hn, Hc.
  fold rx ry in Hc.
  destruct Hc as [(Hr & _)|[(Hr & _)|(Hr & Hx & Hy & Hne & Hk & Hroot)]];
    [done | done |].
  injection Hr as ->. split; [done|]. split; [done|].
  rewrite DisjointSetsFacts.find_result by done.
  destruct (decide (0 ≤ z < DisjointSets.n ds')); [|lia].
  f_equal. rewrite Hroot. fold rz.
  destruct (decide (rz = Z.max rx ry)), (decide (rz = rx ∨ rz = ry)); lia.
Qed.

Lemma merge_unites_the_two_sets_witness :
  ∃ ds',
    DisjointSets.merge (DisjointSets.new 5) 3 1 = (ds', Ok 1) ∧
    (DisjointSets.find ds' 3).2 = Ok 1.
Proof.
  eexists. split; [reflexivity|].
  refine (proj2 (proj2 (merge_unites_the_two_sets (DisjointSets.new 5) _ 3 1 1 3
            (DisjointSetsFacts.wf_new 5 ltac:(lia)) eq_refl ltac:(simpl; lia)))).
Defined.

(** ** Counting the sets *)

Lemma count_range_ext (P P' : Z → bool) lo len :
  (∀ i, lo ≤ i < lo + len → P i = P' i) →
  count_range P lo len = count_range P' lo len.
Proof.
  intros H. destruct (Z.le_gt_cases len 0) as [Hn|Hp].
  { unfold count_range. destruct len; try lia; done. }
  rewrite <- (Z2Nat.id len) in * by lia.
  revert lo H. clear Hp. induction (Z.to_nat len) as [|c IH]; intros lo H; [done|].
  rewrite !count_range_cons. rewrite (H lo) by lia. rewrite (IH (lo + 1)); [done|].
  intros i Hi. apply H. lia.
Qed.

Lemma count_range_all (P : Z → bool) lo len :
  0 ≤ len → (∀ i, lo ≤ i < lo + len → P i = true) → count_range P lo len = len.
Proof.
  intros Hlen. rewrite <- (Z2Nat.id len) in * by lia. clear Hlen.
  revert lo. induction (Z.to_nat len) as [|c IH]; intros lo H; [done|].
  rewrite count_range_cons, (H lo) by lia. rewrite IH; [lia|].
  intros i Hi. apply H. lia.
Qed.

(** Taking one index out of a count. *)
Lemma count_range_remove (P : Z → bool) lo len c :
  0 ≤ len →
  count_range (λ i, P i && negb (i =? c)) lo len =
    count_range P lo len
    - (if decide (lo ≤ c < lo + len) then if P c then 1 else 0 else 0).
Proof.
  intros Hlen. rewrite <- (Z2Nat.id len) in * by lia. clear Hlen.
  revert lo. induction (Z.to_nat len) as [|m IH]; intros lo.
  - destruct (decide _); [lia | done].
  - rewrite !count_range_cons, IH.
    destruct (Z.eqb_spec lo c) as [->|Hne].
    + destruct (decide (c ≤ c < c + Z.of_nat (S m))); [|lia].
      destruct (decide (c + 1 ≤ c < c + 1 + Z.of_nat m)); [lia|].
      destruct (P c); simpl; lia.
    + rewrite andb_true_r.
      destruct (decide (lo ≤ c < lo + Z.of_nat (S m))),
        (decide (lo + 1 ≤ c < lo + 1 + Z.of_nat m)); try lia.
Qed.

Module SetCount.
Import DisjointSets DisjointSetsFacts DisjointSetsMore.

Lemma set_count_same_roots ds ds' :
  n ds' = n ds → (∀ z, root (par ds') z = root (par ds) z) →
  set_count ds' = set_count ds.
Proof.
  intros Hn Hr. unfold set_count. rewrite Hn. apply count_range_ext.
  intros i _. by rewrite Hr.
Qed.

Lemma set_count_new m : 0 ≤ m → set_count (new m) = m.
Proof.
  intros Hm. unfold set_count. apply count_range_all; [done|].
  intros i Hi. rewrite root_new. apply Z.eqb_refl.
Qed.

Lemma set_count_bounds ds : 0 ≤ n ds → 0 ≤ set_count ds ≤ n ds.
Proof. intros Hn. by apply count_range_bounds. Qed.

(** A union takes one root away. *)
Lemma set_count_link ds ds' a b :
  wf ds → n ds' = n ds → 0 ≤ a < n ds → 0 ≤ b < n ds → a ≠ b →
  root (par ds) a = a → root (par ds) b = b →
  (∀ z, root (par ds') z = if decide (root (par ds) z = b) then a
                           else root (par ds) z) →
  set_count ds' = set_count ds - 1.
Proof.
  intros [Hlen Hw] Hn Ha Hb Hab Ra Rb Hroot. unfold set_count. rewrite Hn.
  rewrite (count_range_ext _
    (λ i, (root (par ds) i =? i) && negb (i =? b)) 0 (n ds)).
  - rewrite count_range_remove by lia.
    destruct (decide (0 ≤ b < 0 + n ds)); [|lia].
    rewrite Rb, Z.eqb_refl. done.
  - intros i Hi. rewrite Hroot.
    destruct (Z.eqb_spec i b) as [->|Hib].
    + rewrite Rb. destruct (decide (b = b)); [|done].
      rewrite andb_false_r. apply Z.eqb_neq. lia.
    + rewrite andb_true_r. destruct (decide (root (par ds) i = b)) as [Hrb|]; [|done].
      destruct (Z.eqb_spec (root (par ds) i) i); [lia|].
      apply Z.eqb_neq. intros ->. rewrite Ra in Hrb. lia.
Qed.

(** An object with an element has a set. *)
Lemma set_count_pos ds x : wf ds → 0 ≤ x < n ds → 1 ≤ set_count ds.
Proof.
  intros [Hlen Hw] Hx. unfold set_count.
  pose proof (root_bounds _ x Hw ltac:(lia)) as Hb.
  pose proof (count_range_remove (λ r, root (par ds) r =? r) 0 (n ds)
                (root (par ds) x) ltac:(lia)) as Hrem.
  destruct (decide (0 ≤ root (par ds) x < 0 + n ds)); [|lia].
  rewrite root_root, Z.eqb_refl in Hrem by (done || lia).
  pose proof (count_range_bounds
    (λ i, (root (par ds) i =? i) && negb (i =? root (par ds) x)) 0 (n ds)
    ltac:(lia)). lia.
Qed.

Lemma set_count_merge ds x y :
  wf ds → n ds < 2 ^ 64 → k ds = set_count ds →
  k (merge ds x y).1 = set_count (merge ds x y).1 ∧
  ∀ r, (merge ds x y).2 = Ok r → k (merge ds x y).1 = k ds - 1.
Proof.
  intros Hwf Hn64 Hk. pose proof Hwf as [Hlen Hw].
  destruct (merge_cases ds x y Hwf) as (Hwf' & Hn & Hc).
  destruct Hc as [(Hr & _ & Hk' & Hroot)|[(Hr & _ & _ & _ & Hk' & Hroot)|
    (Hr & Hx & Hy & Hne & Hk' & Hroot)]].
  - rewrite Hr. split; [|done]. rewrite Hk', Hk. symmetry.
    by apply set_count_same_roots.
  - rewrite Hr. split; [|done]. rewrite Hk', Hk. symmetry.
    by apply set_count_same_roots.
  - set (rx := root (par ds) x) in *. set (ry := root (par ds) y) in *.
    pose proof (root_bounds _ x Hw ltac:(lia)) as Bx.
    pose proof (root_bounds _ y Hw ltac:(lia)) as By.
    fold rx in Bx. fold ry in By.
    assert (set_count (merge ds x y).1 = set_count ds - 1) as Hs.
    { apply (set_count_link ds _ (Z.min rx ry) (Z.max rx ry));
        [done | done | lia | lia | lia | | | done].
      - destruct (Z.min_spec rx ry) as [[_ ->]|[_ ->]];
          apply root_root; (done || lia).
      - destruct (Z.max_spec rx ry) as [[_ ->]|[_ ->]];
          apply root_root; (done || lia). }
    assert (1 ≤ set_count ds) as H2.
    { pose proof (set_count_bounds (merge ds x y).1 ltac:(lia)). lia. }
    pose proof (set_count_bounds ds ltac:(lia)) as Hb.
    assert ((k ds - 1) mod 2 ^ 64 = k ds - 1) as Hmod
      by (apply Z.mod_small; lia).
    split; [lia|]. intros r _. lia.
Qed.

Lemma set_count_merge_Ok ds x y ds' r :
  wf ds → merge ds x y = (ds', Ok r) → set_count ds' = set_count ds - 1.
Proof.
  intros Hwf Hm. pose proof Hwf as [Hlen Hw].
  destruct (merge_cases ds x y Hwf) as (Hwf' & Hn & Hc).
  rewrite Hm in Hwf', Hn, Hc. cbn [fst snd] in *.
  destruct Hc as [(Hr & _)|[(Hr & _)|(Hr & Hx & Hy & Hne & _ & Hroot)]];
    [done | done |].
  set (rx := root (par ds) x) in *. set (ry := root (par ds) y) in *.
  pose proof (root_bounds _ x Hw ltac:(lia)) as Bx.
  pose proof (root_bounds _ y Hw ltac:(lia)) as By.
  fold rx in Bx. fold ry in By.
  apply (set_count_link ds _ (Z.min rx ry) (Z.max rx ry));
    [done | done | lia | lia | lia | | | done].
  - destruct (Z.min_spec rx ry) as [[_ ->]|[_ ->]];
      apply root_root; (done || lia).
  - destruct (Z.max_spec rx ry) as [[_ ->]|[_ ->]];
      apply root_root; (done || lia).
Qed.

Lemma run_ops_set_count ds ops :
  wf ds → n ds < 2 ^ 64 → k ds = set_count ds →
  k (run_ops ds ops) = set_count (run_ops ds ops).
Proof.
  revert ds. induction ops as [|o ops IH]; intros ds Hwf Hn Hk; [done|].
  simpl. destruct o as [x|x y]; simpl.
  - apply IH; [by apply find_wf | by rewrite find_n |].
    rewrite find_k, Hk by done. symmetry.
    apply set_count_same_roots; [by apply find_n|].
    intros z. by apply find_root.
  - destruct (merge_cases ds x y Hwf) as (Hwf' & Hn' & _).
    apply IH; [done | lia |]. by apply set_count_merge.
Qed.

End SetCount.

(** X5.  [get_k] counts the sets: in every object reached from fewer than
    [2^64] singletons by [find] and [merge] calls, [k] is the number of
    elements that are their own representative; a [merge] that returns
    lowers it by exactly one, and it never drops below 1 that way. *)
Theorem get_k_counts_the_sets (m : Z) (ops : list DisjointSets.op) :
  0 ≤ m < 2 ^ 64 →
  let ds := DisjointSets.run_ops (DisjointSets.new m) ops in
  DisjointSets.get_k ds = set_count ds ∧
  ∀ x y r, (DisjointSets.merge ds x y).2 = Ok r →
    DisjointSets.get_k (DisjointSets.merge ds x y).1 = DisjointSets.get_k ds - 1 ∧
    1 ≤ DisjointSets.get_k (DisjointSets.merge ds x y).1.
Proof.
  intros Hm ds.
  assert (DisjointSets.wf ds) as Hwf
    by (apply DisjointSetsFacts.run_ops_wf, DisjointSetsFacts.wf_new; lia).
  assert (DisjointSets.n ds = m) as Hn
    by (unfold ds; rewrite DisjointSetsMore.run_ops_n;
        [done | apply DisjointSetsFacts.wf_new; lia]).
  assert (DisjointSets.k ds = set_count ds) as Hk.
  { apply SetCount.run_ops_set_count;
      [apply DisjointSetsFacts.wf_new; lia | simpl; lia |].
    simpl. symmetry. apply SetCount.set_count_new. lia. }
  split; [done|]. intros x y r Hr. unfold DisjointSets.get_k.
  destruct (SetCount.set_count_merge ds x y Hwf ltac:(lia) Hk) as [Hk' Hdec].
  split; [by apply (Hdec r)|].
  destruct (DisjointSetsMore.merge_cases ds x y Hwf) as (Hwf' & Hn' & Hc).
  destruct Hc as [(Hr' & _)|[(Hr' & _)|(_ & Hx & _)]]; try congruence.
  rewrite Hk'. apply (SetCount.set_count_pos _ x); [done | lia].
Qed.

Lemma get_k_counts_the_sets_witness :
  let ds := DisjointSets.run_ops (DisjointSets.new 5)
              [DisjointSets.op_merge 4 2; DisjointSets.op_find 4;
               DisjointSets.op_merge 2 4; DisjointSets.op_merge 0 1] in
  DisjointSets.get_k ds = set_count ds ∧ set_count ds = 3.
Proof.
  split; [|reflexivity].
  apply (get_k_counts_the_sets 5
           [DisjointSets.op_merge 4 2; DisjointSets.op_find 4;
            DisjointSets.op_merge 2 4; DisjointSets.op_merge 0 1]).
  lia.
Defined.

(** * Further properties of the degree computer *)

(** The rule of a counted loop that is known to have come back. *)
Lemma for_count_inv_partial {S : Type} (Inv : Z → S → Prop) (c : nat) (i : Z)
    (body : Z → S → result S) (s s' : S) :
  for_count c i body s = Ok s' →
  Inv i s →
  (∀ j s0 s1, i ≤ j < i + Z.of_nat c → body j s0 = Ok s1 → Inv j s0 →
     Inv (j + 1) s1) →
  Inv (i + Z.of_nat c) s'.
Proof.
  revert i s. induction c as [|c IH]; intros i s; simpl.
  - intros [= <-] H0 _. by rewrite Z.add_0_r.
  - intros (s1 & H1 & H2)%bind_Ok H0 Hstep.
    replace (i + Z.of_nat (Datatypes.S c)) with (i + 1 + Z.of_nat c) by lia.
    apply (IH (i + 1) s1 H2).
    + apply (Hstep i s); [lia | done | done].
    + intros j s0 s2 Hj. apply Hstep. lia.
Qed.

Lemma zsum_insert (l : list Z) (i : nat) (a b : Z) :
  l !! i = Some a → zsum (<[i:=b]> l) = zsum l - a + b.
Proof.
  revert i. induction l as [|x l IH]; intros [|i]; simpl; try done.
  - intros [= ->]. lia.
  - intros H. rewrite (IH i H). lia.
Qed.

Lemma zsum_upd (v : list Z) (i a b : Z) :
  vget v i = Ok a → zsum (upd v i b) = zsum v - a + b.
Proof. intros [_ H]%vget_Ok. by apply zsum_insert. Qed.

Lemma zsum_zeros (v : list Z) :
  (∀ x, 0 ≤ x < Z.of_nat (length v) → vget v x = Ok 0) → zsum v = 0.
Proof.
  intros H. assert (Forall (λ z, z = 0) v) as Hall.
  { apply Forall_lookup. intros i z Hi.
    pose proof (lookup_lt_Some _ _ _ Hi) as Hlt.
    specialize (H (Z.of_nat i) ltac:(lia)). apply vget_Ok in H as [_ H].
    rewrite Nat2Z.id in H. congruence. }
  clear H. induction Hall as [|z l -> _ IH]; simpl; [done | lia].
Qed.

Lemma degree_step_sum ind n i deg deg' :
  degree_step ind n i deg = Ok deg' →
  zsum deg' = zsum deg + (if edge_present ind i then 2 else 0).
Proof.
  unfold degree_step, edge_present, edge_absent.
  intros (u & Eu & (v & Ev & H)%bind_Ok)%bind_Ok. rewrite Eu, Ev.
  destruct ((u <? 0) || (v <? 0)); [injection H as <-; simpl; lia|].
  destruct ((n <=? u) || (n <=? v)); [done|].
  destruct (Z.eqb_spec u v) as [|Huv]; [done|].
  apply bind_Ok in H as (du & Edu & (deg1 & [Hu ->]%vset_Ok &
    (dv & Edv & [Hv ->]%vset_Ok)%bind_Ok)%bind_Ok).
  rewrite (zsum_upd _ _ _ _ Edv), (zsum_upd _ _ _ _ Edu). simpl. lia.
Qed.

(** X6.  The handshake of the degree computer: when it returns on an
    output array of exactly [n] cells, the degrees add up to twice the
    number of edge slots that hold an edge, and each degree is between 0
    and the number of edge slots. *)
Theorem degrees_add_up_to_twice_the_edges (ind : list Z) (num_edges n : Z)
    (deg deg' : list Z) :
  0 ≤ n → Z.of_nat (length deg) = n → 0 ≤ num_edges →
  2 * num_edges ≤ Z.of_nat (length ind) →
  Cget_graph_node_degrees ind num_edges n deg = Ok deg' →
  zsum deg' = 2 * count_range (edge_present ind) 0 num_edges ∧
  ∀ x, 0 ≤ x < n → ∃ d, vget deg' x = Ok d ∧ 0 ≤ d ≤ num_edges.
Proof.
  intros Hn Hlen Hm Hl Hrun. split.
  - unfold Cget_graph_node_degrees in Hrun.
    destruct (zero_loop n Hn deg ltac:(lia)) as (deg0 & H0 & Hl0 & Hz).
    rewrite H0 in Hrun. cbn [bind] in Hrun. unfold for_range in Hrun.
    rewrite Z.sub_0_r in Hrun.
    apply (for_count_inv_partial
      (λ j d, zsum d = 2 * count_range (edge_present ind) 0 j)) in Hrun.
    + by rewrite Z.add_0_l, Z2Nat.id in Hrun by lia.
    + rewrite zsum_zeros; [done|]. intros x Hx. apply Hz. lia.
    + intros j s0 s1 Hj Hstep Hinv. rewrite (degree_step_sum _ _ _ _ _ Hstep), Hinv.
      rewrite count_range_snoc by lia. rewrite Z.add_0_l.
      destruct (edge_present ind j); lia.
  - destruct (Cget_graph_node_degrees_spec ind num_edges n deg Hn ltac:(lia) Hm Hl)
      as [Hbad Hgood].
    destruct (bounded_search (edge_rejected ind n) 0 (Z.to_nat num_edges))
      as [(j & Hj & Ej)|Hall].
    { rewrite Hbad in Hrun; [done|]. exists j. split; [lia | done]. }
    destruct Hgood as (deg2 & Hrun2 & _ & Hv).
    { intros j Hj. apply Hall. lia. }
    rewrite Hrun in Hrun2. injection Hrun2 as <-.
    intros x Hx. eexists. split; [by apply Hv|].
    apply count_range_bounds. lia.
Qed.

Lemma degrees_add_up_to_twice_the_edges_witness :
  ∃ deg', Cget_graph_node_degrees [0; 1; -1; 9; 1; 2; 3; 1] 4 4 [7; 7; 7; 7]
            = Ok deg' ∧
    zsum deg' = 2 * count_range (edge_present [0; 1; -1; 9; 1; 2; 3; 1]) 0 4 ∧
    zsum deg' = 6.
Proof.
  eexists. split; [reflexivity|]. split; [|reflexivity].
  refine (proj1 (degrees_add_up_to_twice_the_edges [0; 1; -1; 9; 1; 2; 3; 1]
            4 4 [7; 7; 7; 7] _ _ _ _ _ eq_refl)); simpl; lia.
Defined.

(** * Further properties of the constructor *)

(** X7.  A bad edge makes the construction raise a domain error: for
    [n-1] readable weights and edge slots, whatever the order of the
    weights and in either mode, an edge with both endpoints non-negative
    and an endpoint [≥ n], or with equal endpoints, is rejected. *)
Theorem bad_edge_domain_error {T : Type} (T_gt : T → T → bool)
    (d : list T) (ind : list Z) (n0 : Z) (nl : bool) (j u v : Z) :
  0 ≤ n0 → n0 - 1 ≤ Z.of_nat (length d) →
  2 * (n0 - 1) ≤ Z.of_nat (length ind) →
  0 ≤ j < n0 - 1 → edge_u ind j = Ok u → edge_v ind j = Ok v →
  0 ≤ u → 0 ≤ v → n0 ≤ u ∨ n0 ≤ v ∨ u = v →
  CGenie_new T_gt d ind n0 nl = Err domain_error.
Proof.
  intros Hn Hd Hl Hj Eu Ev Hu Hv Hbad. unfold CGenie_new.
  destruct (Z.ltb_spec n0 0); [lia|].
  destruct (check_sorted_spec T_gt d n0 Hd) as [Hs1 Hs2].
  destruct (bounded_search (unsorted_at T_gt d) 1 (Z.to_nat (n0 - 1 - 1)))
    as [(i & Hi & Ei)|Hall].
  { rewrite Hs1; [done|]. exists i. split; [lia | done]. }
  rewrite Hs2 by (intros i Hi; apply Hall; lia). cbn [bind].
  destruct (Cget_graph_node_degrees_spec ind (n0 - 1) n0
              (replicate (Z.to_nat n0) 0)) as [Hrej _];
    [lia | rewrite length_replicate; lia | lia | done |].
  rewrite Hrej; [done|].
  exists j. split; [done|]. unfold edge_rejected, edge_absent. rewrite Eu, Ev.
  destruct (Z.ltb_spec u 0); [lia|]. destruct (Z.ltb_spec v 0); [lia|]. simpl.
  destruct (Z.leb_spec n0 u); [done|]. destruct (Z.leb_spec n0 v); [done|].
  destruct (Z.eqb_spec u v); [done | lia].
Qed.

Lemma bad_edge_domain_error_witness :
  CGenie_new Z.gtb [1; 2; 3] [0; 1; 1; 1; 2; 3] 4 true = Err domain_error ∧
  CGenie_new Z.gtb [1; 2; 3] [0; 1; 1; 4; 2; 3] 4 false = Err domain_error.
Proof.
  split.
  - apply (bad_edge_domain_error Z.gtb [1; 2; 3] [0; 1; 1; 1; 2; 3] 4 true 1 1 1);
      (reflexivity || (simpl; lia)).
  - apply (bad_edge_domain_error Z.gtb [1; 2; 3] [0; 1; 1; 4; 2; 3] 4 false 1 1 4);
      (reflexivity || (simpl; lia)).
Defined.

(** X8.  Without noise leaves the construction succeeds on every
    well-formed input: at least one point, [n-1] ascending weights and
    [n-1] edges between distinct vertices of [0..n-1].  The engine holds
    the degree of every vertex, no noise point, and identity translation
    tables. *)
Theorem construction_without_noise {T : Type} (T_gt : T → T → bool)
    (d : list T) (ind : list Z) (n0 : Z) :
  1 ≤ n0 → n0 - 1 ≤ Z.of_nat (length d) →
  (∀ j a b, 1 ≤ j < n0 - 1 → vget d (j - 1) = Ok a → vget d j = Ok b →
     T_gt a b = false) →
  edges_in_range ind n0 →
  ∃ g, CGenie_new T_gt d ind n0 false = Ok g ∧
    mst_d g = d ∧ mst_i g = ind ∧ n g = n0 ∧ noise_count g = 0 ∧
    ∀ x, 0 ≤ x < n0 →
      vget (deg g) x = Ok (incident_count ind x 0 (n0 - 1)) ∧
      vget (denoise_index g) x = Ok x ∧ vget (denoise_index_rev g) x = Ok x.
Proof.
  intros Hn Hd Hs He.
  destruct (CGenie_new_plain T_gt d ind n0) as
    (g & Hnew & Hi & Hng & Hnl & Hnc & Hnx & Hpv & Hid); [lia | done | | done |].
  { intros j Hj. unfold unsorted_at.
    destruct (vget d (j - 1)) as [a|] eqn:Ea; [|done].
    destruct (vget d j) as [b|] eqn:Eb; [|done]. by apply (Hs j). }
  exists g. split; [done|].
  destruct (CGenie_new_inv _ _ _ _ _ _ Hnew) as (_ & _ & Hdeg & Hmd & _).
  destruct (Cget_graph_node_degrees_spec ind (n0 - 1) n0
              (replicate (Z.to_nat n0) 0)) as [_ (dg & Hdg & _ & Hv)];
    [lia | rewrite length_replicate; lia | lia | | |].
  { by apply edges_in_range_length. }
  { intros j Hj. by apply edges_in_range_not_rejected. }
  rewrite Hdeg in Hdg. injection Hdg as <-.
  repeat (split; [done|]). intros x Hx. split; [by apply Hv | by apply Hid].
Qed.

Lemma construction_without_noise_witness :
  ∃ g, CGenie_new Z.gtb [1; 2; 3; 4] path5 5 false = Ok g ∧
    deg g = [1; 2; 2; 2; 1] ∧
    ∀ x, 0 ≤ x < 5 → vget (deg g) x = Ok (incident_count path5 x 0 (5 - 1)).
Proof.
  destruct (construction_without_noise Z.gtb [1; 2; 3; 4] path5 5)
    as (g & Hnew & _ & _ & _ & _ & Hv).
  - lia.
  - simpl. lia.
  - intros j a b Hj Ea Eb.
    assert (j = 1 ∨ j = 2 ∨ j = 3) as [-> | [-> | ->] ] by lia;
      injection Ea as <-; injection Eb as <-; reflexivity.
  - exact path5_in_range.
  - exists g. split; [exact Hnew|]. split; [|intros x Hx; by apply Hv].
    vm_compute in Hnew. by injection Hnew as <-.
Defined.

Lemma count_range_app (P : Z → bool) lo l1 l2 :
  0 ≤ l1 → 0 ≤ l2 →
  count_range P lo (l1 + l2) = count_range P lo l1 + count_range P (lo + l1) l2.
Proof.
  intros H1 H2. unfold count_range.
  rewrite seqZ_app, filter_app, length_app by lia. lia.
Qed.

(** The number of leaves below a vertex grows by at most one per vertex. *)
Lemma leaf_count_mono dg a b :
  0 ≤ a ≤ b → 0 ≤ leaf_count dg b - leaf_count dg a ≤ b - a.
Proof.
  intros H.
  assert (leaf_count dg b =
          leaf_count dg a + count_range (is_leaf dg) (0 + a) (b - a)) as Hsplit.
  { unfold leaf_count. rewrite <- count_range_app by lia. f_equal. lia. }
  pose proof (count_range_bounds (is_leaf dg) (0 + a) (b - a) ltac:(lia)). lia.
Qed.

(** The translation loop of the constructor, with both tables. *)
Lemma denoise_loop_tables (dg : list Z) n0 :
  0 ≤ n0 → Z.of_nat (length dg) = n0 →
  ∃ di dir,
    denoise_loop dg n0 (replicate (Z.to_nat n0) 0)
      = Ok (leaf_count dg n0, n0 - leaf_count dg n0, di, dir) ∧
    (∀ x, 0 ≤ x < n0 →
       vget dir x = Ok (if is_leaf dg x then -1 else x - leaf_count dg x)) ∧
    (∀ x, 0 ≤ x < n0 → is_leaf dg x = false →
       0 ≤ x - leaf_count dg x < n0 - leaf_count dg n0 ∧
       vget di (x - leaf_count dg x) = Ok x) ∧
    (∀ r, 0 ≤ r < n0 - leaf_count dg n0 →
       ∃ x, 0 ≤ x < n0 ∧ is_leaf dg x = false ∧ x - leaf_count dg x = r).
Proof.
  intros Hn Hlen. unfold denoise_loop.
  set (zeros := replicate (Z.to_nat n0) 0).
  assert (Z.of_nat (length zeros) = n0) as Hz
    by (unfold zeros; rewrite length_replicate; lia).
  match goal with |- context [for_range 0 n0 ?b ?s] =>
    destruct (for_range_inv
      (λ i (st : Z * Z * list Z * list Z),
         let '(nc, j, di, dir) := st in
         nc = leaf_count dg i ∧ j = i - nc ∧
         Z.of_nat (length di) = n0 ∧ Z.of_nat (length dir) = n0 ∧
         (∀ x, 0 ≤ x < i →
            vget dir x = Ok (if is_leaf dg x then -1 else x - leaf_count dg x)) ∧
         (∀ x, 0 ≤ x < i → is_leaf dg x = false →
            0 ≤ x - leaf_count dg x < j ∧ vget di (x - leaf_count dg x) = Ok x) ∧
         (∀ r, 0 ≤ r < j →
            ∃ x, 0 ≤ x < i ∧ is_leaf dg x = false ∧ x - leaf_count dg x = r))
      0 n0 b s) as ([[[nc j] di] dir] & Hloop & Hinv)
  end; [done | | |].
  - split; [done|]. split; [done|]. split; [done|]. split; [done|].
    split; [lia|]. split; [lia|]. intros r Hr.
    change (leaf_count dg 0) with 0 in Hr. lia.
  - intros i [[[nc j] di] dir] Hi (Hnc & Hj & Hdi & Hdir & Hv & Hd & Hsur).
    destruct (vget_total dg i) as [d Ed]; [lia|]. rewrite Ed. cbn [bind].
    pose proof (count_range_bounds (is_leaf dg) 0 i ltac:(lia)) as Hb.
    fold (leaf_count dg i) in Hb.
    assert (leaf_count dg (i + 1) =
            leaf_count dg i + if is_leaf dg i then 1 else 0) as Hs
      by (unfold leaf_count; rewrite count_range_snoc by lia; done).
    assert (is_leaf dg i = (d =? 1)) as El by (unfold is_leaf; by rewrite Ed).
    destruct (d =? 1); rewrite El in Hs.
    + rewrite vset_total by lia. cbn [bind]. eexists. split; [done|].
      split; [lia|]. split; [lia|]. split; [done|].
      split; [rewrite length_upd; lia|]. split; [|split].
      * intros x Hx. destruct (decide (x = i)) as [->|Hne].
        -- rewrite vget_upd_eq by lia. by rewrite El.
        -- rewrite vget_upd_ne by (done || lia). apply Hv. lia.
      * intros x Hx Hnl. destruct (decide (x = i)) as [->|Hne]; [congruence|].
        apply Hd; [lia | done].
      * intros r Hr. destruct (Hsur r Hr) as (x & Hx & ?). exists x.
        split; [lia | done].
    + rewrite vset_total by lia. cbn [bind].
      rewrite vset_total by lia. cbn [bind]. eexists. split; [done|].
      split; [lia|]. split; [lia|]. split; [rewrite length_upd; lia|].
      split; [rewrite length_upd; lia|]. split; [|split].
      * intros x Hx. destruct (decide (x = i)) as [->|Hne].
        -- rewrite vget_upd_eq by lia. rewrite El. f_equal. lia.
        -- rewrite vget_upd_ne by (done || lia). apply Hv. lia.
      * intros x Hx Hnl. destruct (decide (x = i)) as [->|Hne].
        -- split; [lia|]. replace (i - leaf_count dg i) with j by lia.
           apply vget_upd_eq. lia.
        -- destruct (Hd x ltac:(lia) Hnl) as [Hr Hg]. split; [lia|].
           rewrite vget_upd_ne by lia. done.
      * intros r Hr. destruct (decide (r = j)) as [->|Hne].
        -- exists i. split; [lia|]. split; [done | lia].
        -- destruct (Hsur r ltac:(lia)) as (x & Hx & ?). exists x.
           split; [lia | done].
  - destruct Hinv as (-> & -> & _ & _ & Hv & Hd & Hsur).
    exists di, dir. done.
Qed.

(** X9.  The translation tables of noise mode are inverse to each other.
    In an engine built with noise leaves, with [N = n - noise_count]:
    a leaf is translated to [-1]; any other vertex [v] is translated to an
    id [r] of [0..N-1] with [denoise_index[r] = v]; every id [r] of
    [0..N-1] is the translation of the vertex [denoise_index[r]]; and
    [denoise_index] is strictly increasing on [0..N-1]. *)
Theorem denoise_tables_are_inverse {T : Type} (T_gt : T → T → bool)
    (d : list T) (ind : list Z) (n0 : Z) (g : CGenie) :
  CGenie_new T_gt d ind n0 true = Ok g →
  let N := n g - noise_count g in
  noise_count g = leaf_count (deg g) n0 ∧
  (∀ v, 0 ≤ v < n0 →
     if is_leaf (deg g) v then vget (denoise_index_rev g) v = Ok (-1)
     else ∃ r, vget (denoise_index_rev g) v = Ok r ∧ 0 ≤ r < N ∧
               vget (denoise_index g) r = Ok v) ∧
  (∀ r, 0 ≤ r < N →
     ∃ v, 0 ≤ v < n0 ∧ is_leaf (deg g) v = false ∧
          vget (denoise_index g) r = Ok v ∧
          vget (denoise_index_rev g) v = Ok r) ∧
  (∀ r r' v v', 0 ≤ r → r < r' → r' < N →
     vget (denoise_index g) r = Ok v → vget (denoise_index g) r' = Ok v' →
     v < v').
Proof.
  intros Hnew N.
  destruct (CGenie_new_inv _ _ _ _ _ _ Hnew)
    as (Hn & _ & Hdeg & _ & _ & Hng & _ & _ & _ & (j & Hloop & _ & _)).
  apply Cget_graph_node_degrees_length in Hdeg.
  rewrite length_replicate in Hdeg.
  destruct (denoise_loop_tables (deg g) n0 Hn ltac:(lia))
    as (di & dir & Hloop' & Hv & Hd & Hsur).
  rewrite Hloop in Hloop'. injection Hloop' as Hnc Hj Hdi Hdir.
  unfold N. rewrite Hng, Hnc, Hdi, Hdir. clear N.
  set (dg := deg g) in *.
  assert (∀ r, 0 ≤ r < n0 - leaf_count dg n0 →
    ∃ v, 0 ≤ v < n0 ∧ is_leaf dg v = false ∧ v - leaf_count dg v = r ∧
         vget di r = Ok v ∧ vget dir v = Ok r) as Hinv.
  { intros r Hr. destruct (Hsur r Hr) as (v & Hv0 & Hnl & <-).
    exists v. split; [done|]. split; [done|]. split; [done|].
    split; [by apply Hd|]. rewrite Hv by done. by rewrite Hnl. }
  split; [done|]. split; [|split].
  - intros v Hv0. rewrite (Hv v Hv0).
    destruct (is_leaf dg v) eqn:El; [done|].
    exists (v - leaf_count dg v). split; [done|]. by apply Hd.
  - intros r Hr. destruct (Hinv r Hr) as (v & ? & ? & _ & ? & ?). eauto.
  - intros r r' v v' Hr Hrr Hr' E E'.
    destruct (Hinv r ltac:(lia)) as (x & Hx & _ & Hrx & Ex & _).
    destruct (Hinv r' ltac:(lia)) as (x' & Hx' & _ & Hrx' & Ex' & _).
    rewrite E in Ex. rewrite E' in Ex'. injection Ex as ->. injection Ex' as ->.
    destruct (Z.lt_ge_cases x x') as [|Hge]; [done|].
    pose proof (leaf_count_mono dg x' x ltac:(lia)). lia.
Qed.

Lemma denoise_tables_are_inverse_witness :
  ∃ g, CGenie_new Z.gtb [1; 2; 3; 4] path5 5 true = Ok g ∧
    denoise_index_rev g = [-1; 0; 1; 2; -1] ∧
    (∀ r, 0 ≤ r < 3 →
       ∃ v, 0 ≤ v < 5 ∧ is_leaf (deg g) v = false ∧
            vget (denoise_index g) r = Ok v ∧
            vget (denoise_index_rev g) v = Ok r).
Proof.
  eexists. split; [reflexivity|]. split; [reflexivity|].
  refine (proj1 (proj2 (proj2 (denoise_tables_are_inverse Z.gtb [1; 2; 3; 4]
            path5 5 _ eq_refl)))).
Defined.

(** * Further properties of the skip-list and of the driver *)

Section SkipListMore.
Context {T : Type}.
Implicit Type g : @CGenie T.

(** [skiplist_init] only touches the skip-list. *)
Lemma skiplist_init_fields g g1 :
  skiplist_init g = Ok g1 →
  mst_d g1 = mst_d g ∧ mst_i g1 = mst_i g ∧ n g1 = n g ∧
  noise_leaves g1 = noise_leaves g ∧ deg g1 = deg g ∧
  noise_count g1 = noise_count g ∧ denoise_index g1 = denoise_index g ∧
  denoise_index_rev g1 = denoise_index_rev g ∧ ds g1 = ds g.
Proof.
  unfold skiplist_init. destruct (noise_leaves g) eqn:Enl.
  - intros ([[[cur last] nxt] prv] & _ & (nxt' & _ & [= <-])%bind_Ok)%bind_Ok.
    by repeat split.
  - intros ([nxt prv] & _ & [= <-])%bind_Ok. by repeat split.
Qed.

(** The chain loop, with both directions of the links. *)
Lemma skiplist_chain_loop_spec g :
  0 ≤ n g →
  Z.of_nat (length (next_edge g)) = n g →
  Z.of_nat (length (prev_edge g)) = n g →
  ∃ nxt prv, skiplist_chain_loop g = Ok (nxt, prv) ∧
    Z.of_nat (length nxt) = n g ∧ Z.of_nat (length prv) = n g ∧
    (∀ i, 0 ≤ i < n g - 1 →
       vget nxt i = Ok (i + 1) ∧ vget prv i = Ok (i - 1)) ∧
    (∀ i, n g - 1 ≤ i →
       vget nxt i = vget (next_edge g) i ∧ vget prv i = vget (prev_edge g) i).
Proof.
  intros Hn Hnx Hpv. unfold skiplist_chain_loop.
  destruct (Z.le_gt_cases (n g - 1) 0) as [Hsmall|Hbig].
  { rewrite for_range_empty by lia. eexists _, _. split; [done|].
    split; [done|]. split; [done|]. split; [lia | done]. }
  match goal with |- context [for_range 0 _ ?b ?s] =>
    destruct (for_range_inv
      (λ i (st : list Z * list Z),
         let '(nxt, prv) := st in
         Z.of_nat (length nxt) = n g ∧ Z.of_nat (length prv) = n g ∧
         (∀ x, 0 ≤ x < i → vget nxt x = Ok (x + 1) ∧ vget prv x = Ok (x - 1)) ∧
         (∀ x, i ≤ x →
            vget nxt x = vget (next_edge g) x ∧ vget prv x = vget (prev_edge g) x))
      0 (n g - 1) b s) as ([nxt prv] & Hloop & Hinv)
  end; [lia | | |].
  - split; [done|]. split; [done|]. split; [lia | done].
  - intros i [nxt prv] Hi (H1 & H2 & Hv & Hrest).
    rewrite vset_total by lia. cbn [bind].
    rewrite vset_total by lia. cbn [bind]. eexists. split; [done|].
    split; [rewrite length_upd; lia|]. split; [rewrite length_upd; lia|]. split.
    + intros x Hx. destruct (decide (x = i)) as [->|Hne].
      * rewrite !vget_upd_eq by lia. done.
      * rewrite !vget_upd_ne by (done || lia). apply Hv. lia.
    + intros x Hx. rewrite !vget_upd_ne by lia. apply Hrest. lia.
  - exists nxt, prv. split; [done|]. apply Hinv.
Qed.

End SkipListMore.

(** X10.  Without noise leaves, [skiplist_init] on a constructed engine
    returns with both cursors on edge 0 and the edges linked as the chain
    [0 → 1 → … → n-2]: [next_edge[i] = i+1] and [prev_edge[i] = i-1], so
    each of the two links undoes the other; the last cell of both arrays
    keeps the 0 of the constructor, and nothing but the skip-list
    changes. *)
Theorem skiplist_init_chain {T : Type} (T_gt : T → T → bool)
    (d : list T) (ind : list Z) (n0 : Z) (g : CGenie) :
  CGenie_new T_gt d ind n0 false = Ok g →
  ∃ g1, skiplist_init g = Ok g1 ∧
    curidx g1 = 0 ∧ lastidx g1 = 0 ∧
    ds g1 = ds g ∧ denoise_index_rev g1 = denoise_index_rev g ∧
    (∀ i, 0 ≤ i < n0 - 1 →
       vget (next_edge g1) i = Ok (i + 1) ∧ vget (prev_edge g1) i = Ok (i - 1)) ∧
    (∀ i, 0 ≤ i < n0 - 2 → ∃ j, vget (next_edge g1) i = Ok j ∧
       vget (prev_edge g1) j = Ok i) ∧
    (∀ i, 1 ≤ i < n0 - 1 → ∃ j, vget (prev_edge g1) i = Ok j ∧
       vget (next_edge g1) j = Ok i) ∧
    (1 ≤ n0 → vget (next_edge g1) (n0 - 1) = Ok 0 ∧
              vget (prev_edge g1) (n0 - 1) = Ok 0).
Proof.
  intros Hnew.
  destruct (CGenie_new_inv _ _ _ _ _ _ Hnew)
    as (Hn & _ & _ & _ & _ & Hng & Hnl & Hnx & Hpv & _).
  destruct (skiplist_chain_loop_spec g) as (nxt & prv & Hloop & _ & _ & Hv & Hrest).
  { lia. }
  { rewrite Hnx, length_replicate. lia. }
  { rewrite Hpv, length_replicate. lia. }
  unfold skiplist_init. rewrite Hnl, Hloop. cbn [bind].
  eexists. split; [done|]. cbn. rewrite Hng in Hv, Hrest.
  repeat (split; [done|]). split; [|split].
  - intros i Hi. exists (i + 1). split; [apply Hv; lia|].
    replace i with (i + 1 - 1) at 2 by lia. apply Hv. lia.
  - intros i Hi. exists (i - 1). split; [apply Hv; lia|].
    replace i with (i - 1 + 1) at 2 by lia. apply Hv. lia.
  - intros H1. destruct (Hrest (n0 - 1)) as [-> ->]; [lia|].
    rewrite Hnx, Hpv. split; apply vget_replicate; lia.
Qed.

Lemma skiplist_init_chain_witness :
  ∃ g, CGenie_new Z.gtb [1; 2; 3; 4] path5 5 false = Ok g ∧
    ∃ g1, skiplist_init g = Ok g1 ∧
      curidx g1 = 0 ∧ lastidx g1 = 0 ∧
      ds g1 = ds g ∧ denoise_index_rev g1 = denoise_index_rev g ∧
      (∀ i, 0 ≤ i < 5 - 1 →
         vget (next_edge g1) i = Ok (i + 1) ∧ vget (prev_edge g1) i = Ok (i - 1)) ∧
      (∀ i, 0 ≤ i < 5 - 2 → ∃ j, vget (next_edge g1) i = Ok j ∧
         vget (prev_edge g1) j = Ok i) ∧
      (∀ i, 1 ≤ i < 5 - 1 → ∃ j, vget (prev_edge g1) i = Ok j ∧
         vget (next_edge g1) j = Ok i) ∧
      (1 ≤ 5 → vget (next_edge g1) (5 - 1) = Ok 0 ∧
               vget (prev_edge g1) (5 - 1) = Ok 0).
Proof.
  eexists. split; [reflexivity|].
  apply (skiplist_init_chain Z.gtb [1; 2; 3; 4] path5 5 _ eq_refl).
Defined.

Section DriverMore.
Context {T : Type}.
Implicit Type g : @CGenie T.

(** What one iteration of the loop of [do_genie] does to the engine: one
    successful [merge] on the union-find, and nothing on the inputs and
    the translation tables. *)
Lemma genie_iteration_inv g g2 th lastm lastm2 :
  genie_iteration th (g, lastm) = Ok (g2, lastm2) →
  (∃ a b r, GiniDisjointSets.merge (ds g) a b = (ds g2, Ok r)) ∧
  mst_d g2 = mst_d g ∧ mst_i g2 = mst_i g ∧ n g2 = n g ∧
  noise_leaves g2 = noise_leaves g ∧ deg g2 = deg g ∧
  noise_count g2 = noise_count g ∧ denoise_index g2 = denoise_index g ∧
  denoise_index_rev g2 = denoise_index_rev g.
Proof.
  unfold genie_iteration.
  intros ([[[i1 i2] g1] m] & Hb & (g' & Hm & [= <- <-])%bind_Ok)%bind_Ok.
  assert (mst_d g1 = mst_d g ∧ mst_i g1 = mst_i g ∧ n g1 = n g ∧
          noise_leaves g1 = noise_leaves g ∧ deg g1 = deg g ∧
          noise_count g1 = noise_count g ∧ denoise_index g1 = denoise_index g ∧
          denoise_index_rev g1 = denoise_index_rev g ∧ ds g1 = ds g) as Hg1.
  { destruct (Qgt_bool _ _).
    - unfold genie_branch in Hb.
      apply bind_Ok in Hb as (last1 & _ & (j1 & _ & (j2 & _ &
        (g0 & Hg & [= _ _ <- _])%bind_Ok)%bind_Ok)%bind_Ok).
      destruct (last1 =? curidx g).
      + apply bind_Ok in Hg as (nx & _ & [= <-]). by repeat split.
      + apply bind_Ok in Hg as (pv & _ & (l2 & _ & (nxt' & _ &
          (prv' & _ & [= <-])%bind_Ok)%bind_Ok)%bind_Ok). by repeat split.
    - unfold single_linkage_branch in Hb.
      apply bind_Ok in Hb as (j1 & _ & (j2 & _ & (nx & _ & [= _ _ <- _])%bind_Ok)
        %bind_Ok). by repeat split. }
  destruct Hg1 as (? & ? & ? & ? & ? & ? & ? & ? & Hds).
  unfold merge_edge in Hm. rewrite Hds in Hm.
  apply bind_Ok in Hm as (a & _ & (b & _ & Hm)%bind_Ok).
  destruct (GiniDisjointSets.merge (ds g) a b) as [d0 [r|]] eqn:Em; [|done].
  injection Hm as <-. split; [by exists a, b, r|]. by repeat split.
Qed.

End DriverMore.

(** X11.  Asking for too many clusters is a runtime error: whenever
    [skiplist_init] passes and [n_clusters] is at least the number of
    non-noise points [n - noise_count], [apply_genie] raises a runtime
    error and writes no label.  Without noise leaves [skiplist_init]
    always passes on a constructed engine, so there the error comes for
    every [n_clusters ≥ n]. *)
Theorem too_many_clusters_runtime_error {T : Type} (T_gt : T → T → bool)
    (d : list T) (ind : list Z) (n0 : Z) (nl : bool) (g : CGenie)
    (n_clusters : Z) (gini_threshold : Q) (res : list Z) :
  CGenie_new T_gt d ind n0 nl = Ok g →
  n g - noise_count g ≤ n_clusters →
  (nl = false ∨ ∃ g1, skiplist_init g = Ok g1) →
  apply_genie g n_clusters gini_threshold res = Err runtime_error.
Proof.
  intros Hnew Hk Hinit.
  assert (∃ g1, skiplist_init g = Ok g1) as (g1 & Hg1).
  { destruct Hinit as [->|?]; [|done].
    destruct (CGenie_new_inv _ _ _ _ _ _ Hnew)
      as (Hn & _ & _ & _ & _ & Hng & Hnl & Hnx & Hpv & _).
    destruct (skiplist_chain_loop_spec g) as (nxt & prv & Hloop & _).
    { lia. }
    { rewrite Hnx, length_replicate. lia. }
    { rewrite Hpv, length_replicate. lia. }
    unfold skiplist_init. rewrite Hnl, Hloop. cbn [bind]. eauto. }
  destruct (skiplist_init_fields g g1 Hg1) as (_ & _ & Hn & _ & _ & Hnc & _).
  unfold apply_genie. rewrite Hg1. cbn [bind]. unfold do_genie.
  rewrite Hn, Hnc. destruct (Z.leb_spec (n g - noise_count g - n_clusters) 0);
    [done | lia].
Qed.

Lemma too_many_clusters_runtime_error_witness :
  (∃ g, CGenie_new Z.gtb [1; 2; 3] [0; 1; 1; 2; 2; 3] 4 true = Ok g ∧
     apply_genie g 3 1 [9; 9; 9; 9] = Err runtime_error) ∧
  (∃ g, CGenie_new Z.gtb [1; 2; 3] [0; 1; 1; 2; 2; 3] 4 false = Ok g ∧
     apply_genie g 4 0 [9; 9; 9; 9] = Err runtime_error).
Proof.
  split.
  - eexists. split; [reflexivity|].
    apply (too_many_clusters_runtime_error Z.gtb [1; 2; 3] [0; 1; 1; 2; 2; 3] 4
             true _ 3 1 [9; 9; 9; 9] eq_refl).
    + simpl. lia.
    + right. eexists. reflexivity.
  - eexists. split; [reflexivity|].
    apply (too_many_clusters_runtime_error Z.gtb [1; 2; 3] [0; 1; 1; 2; 2; 3] 4
             false _ 4 0 [9; 9; 9; 9] eq_refl).
    + simpl. lia.
    + by left.
Defined.

(** The union-find that [do_genie] leaves behind. *)
Lemma do_genie_result {T : Type} (g g2 : @CGenie T)
    (n_clusters : Z) (gini_threshold : Q) :
  0 ≤ n g - noise_count g < 2 ^ 64 →
  do_genie g n_clusters gini_threshold = Ok g2 →
  DisjointSets.wf (ds g2) ∧
  DisjointSets.n (ds g2) = n g - noise_count g ∧
  DisjointSets.get_k (ds g2) = n_clusters ∧
  set_count (ds g2) = n_clusters ∧ 1 ≤ n_clusters < n g - noise_count g ∧
  mst_i g2 = mst_i g ∧ n g2 = n g ∧ noise_count g2 = noise_count g ∧
  denoise_index g2 = denoise_index g ∧
  denoise_index_rev g2 = denoise_index_rev g.
Proof.
  intros HN. unfold do_genie.
  destruct (Z.leb_spec (n g - noise_count g - n_clusters) 0) as [|Hpos]; [done|].
  intros ([g' lastm] & Hrun & [= <-])%bind_Ok. cbn [fst].
  set (N := n g - noise_count g) in *.
  unfold for_range in Hrun. rewrite Z.sub_0_r in Hrun.
  apply (for_count_inv_partial
    (λ i (st : CGenie * Z),
       DisjointSets.wf (ds st.1) ∧ DisjointSets.n (ds st.1) = N ∧
       DisjointSets.k (ds st.1) = set_count (ds st.1) ∧
       DisjointSets.k (ds st.1) = N - i ∧ (0 < i → 1 ≤ N) ∧
       mst_i st.1 = mst_i g ∧ n st.1 = n g ∧ noise_count st.1 = noise_count g ∧
       denoise_index st.1 = denoise_index g ∧
       denoise_index_rev st.1 = denoise_index_rev g)) in Hrun.
  - rewrite Z.add_0_l, Z2Nat.id in Hrun by lia. cbn [fst] in Hrun.
    destruct Hrun as (Hwf & Hn & Hk & Hk' & HN1 & ? & ? & ? & ? & ?).
    unfold DisjointSets.get_k.
    assert (1 ≤ set_count (ds g')) as Hone.
    { apply (SetCount.set_count_pos _ 0); [done | lia]. }
    repeat (split; [done || lia|]). done.
  - cbn. split; [apply DisjointSetsFacts.wf_new; lia|]. split; [done|].
    split; [symmetry; apply SetCount.set_count_new; lia|].
    split; [lia|]. split; [lia|]. done.
  - intros j [g0 l0] [g1 l1] Hj Hit
      (Hwf & Hn & Hk & Hk' & _ & H1 & H2 & H3 & H4 & H5).
    cbn [fst] in *.
    destruct (genie_iteration_inv _ _ _ _ _ Hit)
      as ((a & b & r & Hm) & _ & E1 & E2 & _ & _ & E3 & E4 & E5).
    unfold GiniDisjointSets.merge in Hm.
    destruct (DisjointSetsMore.merge_cases (ds g0) a b Hwf) as (Hwf' & Hn' & _).
    destruct (SetCount.set_count_merge (ds g0) a b Hwf ltac:(lia) Hk) as [Hk1 Hdec].
    rewrite Hm in Hwf', Hn', Hk1, Hdec. cbn [fst snd] in *.
    specialize (Hdec r eq_refl).
    destruct (DisjointSetsFacts.merge_Ok_inv _ _ _ _ _ Hwf Hm) as (Ha & _).
    split; [done|]. split; [lia|]. split; [done|]. split; [lia|].
    split; [lia|]. repeat (split; [congruence|]). congruence.
Qed.

(** The number of sets that [do_genie] leaves behind, for any number of
    points. *)
Lemma do_genie_set_count {T : Type} (g g2 : @CGenie T)
    (n_clusters : Z) (gini_threshold : Q) :
  0 ≤ n g - noise_count g →
  do_genie g n_clusters gini_threshold = Ok g2 →
  DisjointSets.wf (ds g2) ∧
  DisjointSets.n (ds g2) = n g - noise_count g ∧
  set_count (ds g2) = n_clusters.
Proof.
  intros HN. unfold do_genie.
  destruct (Z.leb_spec (n g - noise_count g - n_clusters) 0) as [|Hpos]; [done|].
  intros ([g' lastm] & Hrun & [= <-])%bind_Ok. cbn [fst].
  set (N := n g - noise_count g) in *.
  unfold for_range in Hrun. rewrite Z.sub_0_r in Hrun.
  apply (for_count_inv_partial
    (λ i (st : CGenie * Z),
       DisjointSets.wf (ds st.1) ∧ DisjointSets.n (ds st.1) = N ∧
       set_count (ds st.1) = N - i)) in Hrun.
  - rewrite Z.add_0_l, Z2Nat.id in Hrun by lia. cbn [fst] in Hrun.
    destruct Hrun as (Hwf & Hn & Hk). repeat (split; [done|]). lia.
  - cbn. split; [apply DisjointSetsFacts.wf_new; lia|]. split; [done|].
    rewrite SetCount.set_count_new by lia. lia.
  - intros j [g0 l0] [g1 l1] Hj Hit (Hwf & Hn & Hk). cbn [fst] in *.
    destruct (genie_iteration_inv _ _ _ _ _ Hit) as ((a & b & r & Hm) & _).
    unfold GiniDisjointSets.merge in Hm.
    destruct (DisjointSetsMore.merge_cases (ds g0) a b Hwf) as (Hwf' & Hn' & _).
    rewrite Hm in Hwf', Hn'. cbn [fst] in *.
    rewrite (SetCount.set_count_merge_Ok _ _ _ _ _ Hwf Hm).
    split; [done|]. split; lia.
Qed.

(** X12.  When [do_genie] returns, the partition has exactly [n_clusters]
    sets.  For fewer than [2^64] non-noise points and any threshold: the
    union-find of the result is well formed over the [n - noise_count]
    non-noise points, its [get_k], which is its number of sets, equals
    [n_clusters], which is therefore at least 1, and the inputs and the
    translation tables of the engine are unchanged. *)
Theorem do_genie_leaves_n_clusters_sets {T : Type} (g g2 : @CGenie T)
    (n_clusters : Z) (gini_threshold : Q) :
  0 ≤ n g - noise_count g < 2 ^ 64 →
  do_genie g n_clusters gini_threshold = Ok g2 →
  DisjointSets.wf (ds g2) ∧
  DisjointSets.n (ds g2) = n g - noise_count g ∧
  DisjointSets.get_k (ds g2) = n_clusters ∧
  set_count (ds g2) = n_clusters ∧ 1 ≤ n_clusters < n g - noise_count g ∧
  mst_i g2 = mst_i g ∧ n g2 = n g ∧ noise_count g2 = noise_count g ∧
  denoise_index g2 = denoise_index g ∧
  denoise_index_rev g2 = denoise_index_rev g.
Proof. apply do_genie_result. Qed.

Lemma do_genie_leaves_n_clusters_sets_witness :
  ∃ g2, do_genie path5_middle_last 2 0 = Ok g2 ∧
    DisjointSets.get_k (ds g2) = 2 ∧ set_count (ds g2) = 2.
Proof.
  eexists.
  match goal with |- ?A ∧ _ =>
    assert (Hrun : A) by (vm_compute; reflexivity)
  end.
  split; [exact Hrun|].
  destruct (do_genie_leaves_n_clusters_sets path5_middle_last _ 2 0
              ltac:(simpl; lia) Hrun) as (_ & _ & Hk & Hs & _).
  split; [exact Hk | exact Hs].
Defined.

(** * Further properties of the labels *)

Lemma count_range_add (P P' : Z → bool) lo len c :
  0 ≤ len → lo ≤ c < lo + len → P c = false → P' c = true →
  (∀ i, lo ≤ i < lo + len → i ≠ c → P' i = P i) →
  count_range P' lo len = count_range P lo len + 1.
Proof.
  intros Hlen Hc Hf Ht Hext.
  pose proof (count_range_remove P lo len c Hlen) as H1.
  pose proof (count_range_remove P' lo len c Hlen) as H2.
  destruct (decide (lo ≤ c < lo + len)); [|lia]. rewrite Hf in H1. rewrite Ht in H2.
  rewrite (count_range_ext (λ i, P' i && negb (i =? c))
             (λ i, P i && negb (i =? c))) in H2; [lia|].
  intros i Hi. destruct (Z.eqb_spec i c); [by rewrite !andb_false_r|].
  by rewrite Hext.
Qed.

Lemma count_range_mono (P P' : Z → bool) lo len :
  (∀ i, lo ≤ i < lo + len → P i = true → P' i = true) →
  count_range P lo len ≤ count_range P' lo len.
Proof.
  intros H. destruct (Z.le_gt_cases len 0) as [Hn|Hp].
  { unfold count_range. destruct len; try lia; done. }
  rewrite <- (Z2Nat.id len) in * by lia.
  revert lo H. clear Hp. induction (Z.to_nat len) as [|c IH]; intros lo H; [done|].
  rewrite !count_range_cons. specialize (IH (lo + 1)).
  pose proof (H lo ltac:(lia)) as H0.
  destruct (P lo); [rewrite H0 by done|destruct (P' lo)];
    (assert (count_range P (lo + 1) (Z.of_nat c)
             ≤ count_range P' (lo + 1) (Z.of_nat c))
       by (apply IH; intros i Hi; apply H; lia)); lia.
Qed.

Section LabelsMore.
Context {T : Type}.
Implicit Type g : @CGenie T.

(** [get_labels] with identity translation tables.  With at most
    [INT_MAX] sets the loop comes back, and the labels number the sets in
    the order of their first members; with more sets the counter
    overflows. *)
Lemma get_labels_canonical g (res : list Z) :
  0 ≤ n g → DisjointSets.wf (ds g) → DisjointSets.n (ds g) = n g →
  Z.of_nat (length res) = n g →
  (∀ x, 0 ≤ x < n g →
     vget (denoise_index g) x = Ok x ∧ vget (denoise_index_rev g) x = Ok x) →
  (set_count (ds g) ≤ INT_MAX →
   ∃ g' labels, get_labels g res = Ok (g', labels) ∧
    Z.of_nat (length labels) = n g ∧
    (∀ a, 0 ≤ a < n g → ∃ l, vget labels a = Ok l ∧ 0 ≤ l < set_count (ds g)) ∧
    (∀ a b, 0 ≤ a < n g → 0 ≤ b < n g →
       (vget labels a = vget labels b ↔
        DisjointSets.root (DisjointSets.par (ds g)) a
          = DisjointSets.root (DisjointSets.par (ds g)) b)) ∧
    (∀ l, 0 ≤ l < set_count (ds g) →
       ∃ a, 0 ≤ a < n g ∧ vget labels a = Ok l ∧
         ∀ b, 0 ≤ b < a → ∃ lb, vget labels b = Ok lb ∧ lb < l) ∧
    (∀ z, DisjointSets.root (DisjointSets.par (ds g')) z
          = DisjointSets.root (DisjointSets.par (ds g)) z)) ∧
  (INT_MAX < set_count (ds g) → get_labels g res = Err int_overflow).
Proof.
  intros Hn Hwf Hnd Hres Hid. unfold get_labels.
  set (p0 := DisjointSets.par (ds g)).
  destruct (for_range_inv_err
    (λ i (st : DisjointSets.t * list Z * Z * list Z),
       let '(d, rci, c, res') := st in
       DisjointSets.wf d ∧ DisjointSets.n d = n g ∧
       (∀ y, DisjointSets.root (DisjointSets.par d) y = DisjointSets.root p0 y) ∧
       Z.of_nat (length rci) = n g ∧ Z.of_nat (length res') = n g ∧
       (∀ r l, vget rci r = Ok l → -1 ≤ l < c) ∧
       (∀ r r' l, vget rci r = Ok l → vget rci r' = Ok l → 0 ≤ l → r = r') ∧
       (∀ x, 0 ≤ x < i →
          ∃ l, 0 ≤ l ∧ vget res' x = Ok l ∧
               vget rci (DisjointSets.root p0 x) = Ok l) ∧
       (∀ l, 0 ≤ l < c →
          ∃ a, 0 ≤ a < i ∧ vget res' a = Ok l ∧
            ∀ b, 0 ≤ b < a → ∃ lb, vget res' b = Ok lb ∧ lb < l) ∧
       c = count_range (labelled rci) 0 (n g) ∧
       (∀ r, 0 ≤ r < n g → labelled rci r = true → DisjointSets.root p0 r = r) ∧
       c ≤ INT_MAX)
    (λ e, e = int_overflow ∧ INT_MAX < set_count (ds g))
    0 (n g) (label_step g)
    (ds g, replicate (Z.to_nat (n g)) (-1), 0, res))
    as [([[[d rci] c] labels] & Hloop & Hinv)|(e & Hloop & -> & Hbig)];
    [done | | | |].
  - assert (∀ r l, vget (replicate (Z.to_nat (n g)) (-1)) r = Ok l → l = -1) as Hrep.
    { intros r l E. pose proof (vget_range _ _ _ E) as Hr.
      rewrite length_replicate in Hr. rewrite vget_replicate in E by lia. congruence. }
    split; [done|]. split; [done|]. split; [done|].
    split; [rewrite length_replicate; lia|]. split; [done|].
    split; [intros r l ->%Hrep; lia|].
    split; [intros r r' l ->%Hrep; lia|].
    split; [intros x Hx; lia|]. split; [intros l Hl; lia|]. split; [|split].
    + symmetry. apply count_range_zero. intros r Hr. unfold labelled.
      by rewrite vget_replicate by lia.
    + intros r Hr. unfold labelled. by rewrite vget_replicate by lia.
    + done.
  - intros i [[[d rci] c] res']
      Hi (Hwd & Hdn & Hroot & Hlr & Hlres & Hb & Hinj & Hlab & Hfirst & Hcnt & Honly
          & Hmax).
    unfold label_step. destruct (Hid i Hi) as [_ ->]. cbn [bind].
    destruct (Z.leb_spec 0 i); [|lia].
    destruct (DisjointSets.find d i) as [d1 rf] eqn:F.
    destruct (DisjointSetsFacts.find_facts _ _ _ _ Hwd F) as (Hwd1 & Hdn1 & Hroot1 & ->).
    destruct (decide (0 ≤ i < DisjointSets.n d)); [|lia].
    rewrite Hroot. set (f := DisjointSets.root p0 i).
    destruct Hwf as [Hlen0 Hw0].
    assert (0 ≤ f ≤ i) as Hf by (apply DisjointSetsFacts.root_bounds; [done | lia]).
    assert (DisjointSets.root p0 f = f) as Hff
      by (apply DisjointSetsFacts.root_root; [done | lia]).
    destruct (Hid f ltac:(lia)) as [-> _]. cbn [bind].
    destruct (vget_total rci f) as [cid Ecid]; [lia|]. rewrite Ecid. cbn [bind].
    assert (∀ y, DisjointSets.root (DisjointSets.par d1) y = DisjointSets.root p0 y)
      as Hroot' by (intros y; by rewrite Hroot1).
    pose proof (Hb _ _ Ecid) as Hcid.
    destruct (Z.ltb_spec cid 0) as [Hneg|Hpos].
    + rewrite vset_total by lia. cbn [bind fst snd].
      assert (count_range (labelled (upd rci f c)) 0 (n g) = c + 1) as Hcnt'.
      { rewrite (count_range_add (labelled rci) (labelled (upd rci f c)) 0 (n g) f);
          [lia | lia | lia | | |].
        - unfold labelled. rewrite Ecid. by apply Z.leb_gt.
        - unfold labelled. rewrite vget_upd_eq by lia. apply Z.leb_le. lia.
        - intros r Hr Hne. unfold labelled. by rewrite vget_upd_ne by (done || lia). }
      assert (∀ r, 0 ≤ r < n g → labelled (upd rci f c) r = true →
                DisjointSets.root p0 r = r) as Honly'.
      { intros r Hr. destruct (decide (r = f)) as [->|Hrf]; [done|].
        unfold labelled. rewrite vget_upd_ne by (done || lia). by apply Honly. }
      assert (c + 1 ≤ set_count (ds g)) as Hsets.
      { rewrite <- Hcnt'. unfold set_count. rewrite Hnd. apply count_range_mono.
        intros r Hr Hl. apply Z.eqb_eq. apply Honly'; [lia | done]. }
      destruct (Z.ltb_spec c INT_MAX) as [Hlt|Hge]; cbn [bind fst snd].
      2:{ right. exists int_overflow. split; [done|]. split; [done | lia]. }
      left. rewrite vget_upd_eq by lia. cbn [bind].
      rewrite vset_total by lia. cbn [bind]. eexists. split; [done|].
      assert (∀ x, 0 ≤ x < i → ∃ l, 0 ≤ l < c ∧ vget res' x = Ok l ∧
                vget rci (DisjointSets.root p0 x) = Ok l ∧
                DisjointSets.root p0 x ≠ f) as Hlab'.
      { intros x Hx. destruct (Hlab x Hx) as (l & Hl & E1 & E2). exists l.
        pose proof (Hb _ _ E2). split; [lia|]. split; [done|]. split; [done|].
        intros Hfx. rewrite Hfx, Ecid in E2. injection E2 as ->. lia. }
      split; [done|]. split; [lia|]. split; [done|].
      split; [rewrite length_upd; lia|]. split; [rewrite length_upd; lia|].
      split; [|split; [|split; [|split; [|split; [|split]]]]].
      * intros r l E. destruct (decide (r = f)) as [->|Hrf].
        -- rewrite vget_upd_eq in E by lia. injection E as <-. lia.
        -- rewrite vget_upd_ne in E by (done || lia). apply Hb in E. lia.
      * intros r r' l E E' Hl.
        destruct (decide (r = f)) as [->|Hrf]; destruct (decide (r' = f)) as [->|Hrf'];
          [done | | |].
        -- rewrite vget_upd_eq in E by lia. injection E as <-.
           rewrite vget_upd_ne in E' by (done || lia). apply Hb in E'. lia.
        -- rewrite vget_upd_eq in E' by lia. injection E' as <-.
           rewrite vget_upd_ne in E by (done || lia). apply Hb in E. lia.
        -- rewrite vget_upd_ne in E, E' by (done || lia). by apply (Hinj r r' l).
      * intros x Hx. destruct (decide (x = i)) as [->|Hxi].
        -- exists c. split; [lia|]. rewrite !vget_upd_eq by lia. done.
        -- destruct (Hlab' x ltac:(lia)) as (l & Hl & E1 & E2 & Hne). exists l.
           split; [lia|]. rewrite vget_upd_ne by (done || lia). split; [done|].
           rewrite vget_upd_ne by (done || lia). done.
      * intros l Hl. destruct (decide (l = c)) as [->|Hlc].
        -- exists i. split; [lia|]. split; [by rewrite vget_upd_eq by lia|].
           intros b Hb'. destruct (Hlab' b ltac:(lia)) as (lb & Hlb & E1 & _).
           exists lb. rewrite vget_upd_ne by lia. split; [done | lia].
        -- destruct (Hfirst l ltac:(lia)) as (a0 & Ha & Ea & Hsm). exists a0.
           split; [lia|]. rewrite vget_upd_ne by lia. split; [done|].
           intros b Hb'. rewrite vget_upd_ne by lia. by apply Hsm.
      * by rewrite Hcnt'.
      * done.
      * lia.
    + left. cbn [bind fst snd]. rewrite Ecid. cbn [bind].
      rewrite vset_total by lia. cbn [bind]. eexists. split; [done|].
      split; [done|]. split; [lia|]. split; [done|]. split; [done|].
      split; [rewrite length_upd; lia|]. split; [done|]. split; [done|].
      split; [|split; [|done]].
      * intros x Hx. destruct (decide (x = i)) as [->|Hxi].
        -- exists cid. split; [lia|]. rewrite vget_upd_eq by lia. done.
        -- destruct (Hlab x ltac:(lia)) as (l & Hl & E1 & E2). exists l.
           split; [done|]. rewrite vget_upd_ne by (done || lia). done.
      * intros l Hl. destruct (Hfirst l Hl) as (a0 & Ha & Ea & Hsm). exists a0.
        split; [lia|]. rewrite vget_upd_ne by lia. split; [done|].
        intros b Hb'. rewrite vget_upd_ne by lia. by apply Hsm.
  - rewrite Hloop. cbn [bind].
    destruct Hinv as (_ & _ & Hroot & _ & Hll & Hb & Hinj & Hlab & Hfirst & Hcnt & Honly
                      & Hmax).
    destruct Hwf as [Hlen0 Hw0].
    assert (c = set_count (ds g)) as Hc.
    { rewrite Hcnt. unfold set_count. rewrite Hnd. apply count_range_ext.
      intros r Hr. fold p0.
      destruct (Z.eqb_spec (DisjointSets.root p0 r) r) as [Heq|Hne].
      - destruct (Hlab r ltac:(lia)) as (l & Hl & _ & E). rewrite Heq in E.
        unfold labelled. rewrite E. apply Z.leb_le. lia.
      - destruct (labelled rci r) eqn:El; [|done].
        exfalso. apply Hne, Honly; [lia | done]. }
    split; [|lia]. intros _. eexists _, labels. split; [done|].
    rewrite <- Hc. split; [done|]. split; [|split; [|split; [done|done]]].
    + intros a Ha. destruct (Hlab a Ha) as (l & Hl & E & E2). exists l.
      split; [done|]. pose proof (Hb _ _ E2). lia.
    + intros a b Ha Hb'.
      destruct (Hlab a Ha) as (la & Hla & Ea & Ra).
      destruct (Hlab b Hb') as (lb & Hlb & Eb & Rb).
      rewrite Ea, Eb. split.
      * intros [= ->]. by apply (Hinj _ _ lb).
      * intros Heq. fold p0 in Heq. rewrite Heq, Rb in Ra. congruence.
  - rewrite Hloop. cbn [bind]. split; [lia | done].
Qed.

(** [do_genie] changes nothing but the skip-list and the union-find. *)
Lemma do_genie_fields g g2 n_clusters th :
  do_genie g n_clusters th = Ok g2 →
  mst_i g2 = mst_i g ∧ n g2 = n g ∧ noise_count g2 = noise_count g ∧
  deg g2 = deg g ∧ denoise_index g2 = denoise_index g ∧
  denoise_index_rev g2 = denoise_index_rev g.
Proof.
  unfold do_genie. destruct (_ <=? 0); [done|].
  intros ([g' lastm] & Hrun & [= <-])%bind_Ok. cbn [fst]. unfold for_range in Hrun.
  apply (for_count_preserves
    (λ st : CGenie * Z,
       mst_i st.1 = mst_i g ∧ n st.1 = n g ∧ noise_count st.1 = noise_count g ∧
       deg st.1 = deg g ∧ denoise_index st.1 = denoise_index g ∧
       denoise_index_rev st.1 = denoise_index_rev g)) in Hrun; [done | | done].
  intros _ [g0 l0] [g1 l1] Hit (H1 & H2 & H3 & H4 & H5 & H6). cbn [fst] in *.
  destruct (genie_iteration_inv _ _ _ _ _ Hit)
    as (_ & _ & E1 & E2 & _ & E3 & E4 & E5 & E6).
  repeat split; congruence.
Qed.

End LabelsMore.

(** C2.  Without noise leaves and with threshold 1, on [n-1] ascending
    weights and an edge list that is a spanning tree of [0..n-1], the
    Gini index never exceeds the threshold, so every one of the [n-k]
    iterations takes the single-linkage branch and consumes the edge
    under the cursor: the union-find is the one of the pure single-linkage
    cut, the merges of the edges [0, ..., n-k-1] in this order, and the
    cursor ends at [n-k].  When an [int] can count the [k] clusters,
    [k ≤ INT_MAX], two points get the same label exactly when the edges
    [0, ..., n-k-1], the tree without its [k-1] heaviest edges, connect
    them; for a larger [k] the label counter of [get_labels] overflows.
    On the path with weights 1, 2, 3, 4 and [k = 2] the labels are
    [[0,0,0,0,1]]. *)
Theorem single_linkage_equivalence {T : Type} (T_gt : T → T → bool)
    (d : list T) (ind : list Z) (n0 k : Z) (res : list Z) :
  1 ≤ k < n0 →
  n0 - 1 ≤ Z.of_nat (length d) →
  (∀ j a b, 1 ≤ j < n0 - 1 → vget d (j - 1) = Ok a → vget d j = Ok b →
     T_gt a b = false) →
  edges_in_range ind n0 → forest ind n0 →
  Z.of_nat (length res) = n0 →
  (∀ s : GiniDisjointSets.t, Qgt_bool (GiniDisjointSets.get_gini s) 1 = false) ∧
  (∃ g g1 g2,
     CGenie_new T_gt d ind n0 false = Ok g ∧
     skiplist_init g = Ok g1 ∧
     do_genie g1 k 1 = Ok g2 ∧
     single_linkage_cut ind n0 (n0 - k) = Ok (ds g2) ∧
     curidx g2 = n0 - k ∧
     (k ≤ INT_MAX →
      ∃ labels, apply_genie g k 1 res = Ok labels ∧
        Z.of_nat (length labels) = n0 ∧
        (∀ a, 0 ≤ a < n0 → ∃ l, vget labels a = Ok l ∧ 0 ≤ l < k) ∧
        ∀ a b, 0 ≤ a < n0 → 0 ≤ b < n0 →
          (vget labels a = vget labels b ↔ connected ind (n0 - k) a b)) ∧
     (INT_MAX < k → apply_genie g k 1 res = Err int_overflow)) ∧
  genie [1; 2; 3; 4] path5 5 false 2 1 = Ok [0; 0; 0; 0; 1].
Proof.
  intros Hk Hl Hs He Hf Hres.
  split; [apply GiniFacts.get_gini_le_1|]. split; [|by vm_compute].
  destruct (CGenie_new_plain T_gt d ind n0) as
    (g & Hnew & Hi & Hn & Hnl & Hnc & Hnx & Hpv & Hid); [lia | done | | done |].
  { intros j Hj. unfold unsorted_at.
    destruct (vget d (j - 1)) as [a|] eqn:Ea; [|done].
    destruct (vget d j) as [b|] eqn:Eb; [|done]. by apply (Hs j). }
  destruct (skiplist_init_plain g Hnl ltac:(lia) ltac:(lia) ltac:(lia))
    as (nxt & prv & Hinit & Hchain).
  pose proof (do_genie_single_linkage (set_skiplist g nxt prv 0 0) k) as Hrun.
  cbn [noise_count curidx n mst_i next_edge denoise_index denoise_index_rev
       set_skiplist] in Hrun.
  rewrite Hi, Hn in Hrun.
  destruct Hrun as (g2 & Hdo & Hn2 & Hdi2 & Hdr2 & Hcur2 & Hp & Hcut);
    [done | done | lia | done | done | intros i Hi'; apply Hchain; lia |
     intros x Hx; apply Hid; lia |].
  destruct Hp as (Hwf & Hnd & Hcr & Hrc).
  destruct (do_genie_set_count (set_skiplist g nxt prv 0 0) g2 k 1)
    as (_ & _ & Hsc); [cbn [n noise_count set_skiplist]; lia | done |].
  destruct (get_labels_canonical g2 res) as [Hok Hover];
    [lia | done | lia | lia | |].
  { intros x Hx. rewrite Hdi2, Hdr2. apply Hid. lia. }
  rewrite Hsc in Hok, Hover.
  exists g, (set_skiplist g nxt prv 0 0), g2.
  split; [done|]. split; [done|]. split; [done|].
  split; [done|]. split; [lia|]. split.
  - intros Hk'. destruct (Hok Hk') as (g3 & labels & Hlab & Hll & Hrange & Hiff & _).
    exists labels. split.
    { unfold apply_genie. rewrite Hinit. cbn [bind]. rewrite Hdo. cbn [bind].
      by rewrite Hlab. }
    split; [lia|]. split; [intros a Ha; apply Hrange; lia|].
    intros a b Ha Hb. rewrite Hiff by lia. split.
    + apply Hrc; lia.
    + apply Hcr.
  - intros Hk'. unfold apply_genie. rewrite Hinit. cbn [bind]. rewrite Hdo.
    cbn [bind]. by rewrite (Hover Hk').
Qed.

Lemma single_linkage_equivalence_witness :
  ∃ labels,
    genie [1; 2; 3; 4] path5 5 false 2 1 = Ok labels ∧
    (vget labels 0 = vget labels 3 ↔ connected path5 3 0 3) ∧
    (vget labels 3 = vget labels 4 ↔ connected path5 3 3 4).
Proof.
  destruct (single_linkage_equivalence Z.gtb [1; 2; 3; 4] path5 5 2 [0; 0; 0; 0; 0])
    as (_ & (g & g1 & g2 & Hnew & _ & _ & _ & _ & Hok & _) & _).
  - lia.
  - simpl. lia.
  - intros j a b Hj Ea Eb.
    assert (j = 1 ∨ j = 2 ∨ j = 3) as [-> | [-> | ->] ] by lia;
      injection Ea as <-; injection Eb as <-; reflexivity.
  - exact path5_in_range.
  - exact path5_forest.
  - reflexivity.
  - destruct Hok as (labels & Happ & _ & _ & Hiff); [by vm_compute|].
    exists labels. split.
    + unfold genie. rewrite Hnew. exact Happ.
    + split; apply Hiff; lia.
Defined.


(** X13.  [get_labels] numbers the sets in the order of their first
    members, as long as an [int] can count them.  With identity
    translation tables and a well-formed union-find over the [n] points:
    when there are at most [INT_MAX] sets it returns; two points have the
    same label exactly when they are in the same set; the labels are
    exactly [0, ..., c-1] for [c] the number of sets; at the first point
    with label [l] every earlier point has a smaller label; and the
    union-find still has the same sets.  When there are more than
    [INT_MAX] sets, the label counter overflows. *)
Theorem labels_number_the_sets {T : Type} (g : @CGenie T) (res : list Z) :
  0 ≤ n g → DisjointSets.wf (ds g) → DisjointSets.n (ds g) = n g →
  Z.of_nat (length res) = n g →
  (∀ x, 0 ≤ x < n g →
     vget (denoise_index g) x = Ok x ∧ vget (denoise_index_rev g) x = Ok x) →
  (set_count (ds g) ≤ INT_MAX →
   ∃ g' labels, get_labels g res = Ok (g', labels) ∧
    Z.of_nat (length labels) = n g ∧
    (∀ a, 0 ≤ a < n g → ∃ l, vget labels a = Ok l ∧ 0 ≤ l < set_count (ds g)) ∧
    (∀ a b, 0 ≤ a < n g → 0 ≤ b < n g →
       (vget labels a = vget labels b ↔
        DisjointSets.root (DisjointSets.par (ds g)) a
          = DisjointSets.root (DisjointSets.par (ds g)) b)) ∧
    (∀ l, 0 ≤ l < set_count (ds g) →
       ∃ a, 0 ≤ a < n g ∧ vget labels a = Ok l ∧
         ∀ b, 0 ≤ b < a → ∃ lb, vget labels b = Ok lb ∧ lb < l) ∧
    (∀ z, DisjointSets.root (DisjointSets.par (ds g')) z
          = DisjointSets.root (DisjointSets.par (ds g)) z)) ∧
  (INT_MAX < set_count (ds g) → get_labels g res = Err int_overflow).
Proof. apply get_labels_canonical. Qed.

Lemma labels_number_the_sets_witness :
  ∃ g' labels, get_labels path5_pair_and_triple [9; 9; 9; 9; 9] = Ok (g', labels) ∧
    labels = [0; 0; 1; 1; 1] ∧
    (∀ a, 0 ≤ a < 5 →
       ∃ l, vget labels a = Ok l ∧ 0 ≤ l < set_count (ds path5_pair_and_triple)).
Proof.
  destruct (labels_number_the_sets path5_pair_and_triple [9; 9; 9; 9; 9])
    as [Hok _].
  - simpl. lia.
  - apply (DisjointSetsFacts.run_ops_wf (DisjointSets.new 5)
             [DisjointSets.op_merge 0 1; DisjointSets.op_merge 2 3;
              DisjointSets.op_merge 3 4]).
    apply DisjointSetsFacts.wf_new. lia.
  - reflexivity.
  - reflexivity.
  - intros x Hx.
    assert (x = 0 ∨ x = 1 ∨ x = 2 ∨ x = 3 ∨ x = 4)
      as [-> | [-> | [-> | [-> | ->] ] ] ] by (simpl in Hx; lia);
      split; reflexivity.
  - destruct Hok as (g' & labels & Hrun & _ & Hr & _); [by vm_compute|].
    exists g', labels. split; [exact Hrun|]. split; [|exact Hr].
    vm_compute in Hrun. by injection Hrun as _ <-.
Defined.

(** X14.  Without noise leaves, when [apply_genie] returns on a
    constructed engine, for any threshold, the labels are a numbering of
    exactly [n_clusters] clusters: [1 ≤ n_clusters < n], an [int] can
    count the clusters, [n_clusters ≤ INT_MAX], every label is in
    [0, ..., n_clusters-1], every such label is used, its first use comes
    after smaller labels only, and point 0 has label 0. *)
Theorem apply_returns_n_clusters_labels {T : Type} (T_gt : T → T → bool)
    (d : list T) (ind : list Z) (n0 : Z) (g : CGenie)
    (n_clusters : Z) (gini_threshold : Q) (res labels : list Z) :
  CGenie_new T_gt d ind n0 false = Ok g →
  n0 < 2 ^ 64 → Z.of_nat (length res) = n0 →
  apply_genie g n_clusters gini_threshold res = Ok labels →
  1 ≤ n_clusters < n0 ∧ n_clusters ≤ INT_MAX ∧
  Z.of_nat (length labels) = n0 ∧
  (∀ a, 0 ≤ a < n0 → ∃ l, vget labels a = Ok l ∧ 0 ≤ l < n_clusters) ∧
  (∀ l, 0 ≤ l < n_clusters →
     ∃ a, 0 ≤ a < n0 ∧ vget labels a = Ok l ∧
       ∀ b, 0 ≤ b < a → ∃ lb, vget labels b = Ok lb ∧ lb < l) ∧
  vget labels 0 = Ok 0.
Proof.
  intros Hnew H64 Hres.
  destruct (CGenie_new_inv _ _ _ _ _ _ Hnew)
    as (Hn & _ & _ & _ & _ & Hng & _ & _ & _ & Hnc & Hloop).
  destruct (identity_loop_spec n0 Hn) as (di & dir & Hloop' & _ & _ & Hid).
  rewrite Hloop in Hloop'. injection Hloop' as <- <-.
  unfold apply_genie.
  intros (g1 & Hinit & (g2 & Hdo & ([g3 labels'] & Hlab & [= <-])%bind_Ok)%bind_Ok)
    %bind_Ok.
  destruct (skiplist_init_fields g g1 Hinit)
    as (_ & _ & Hn1 & _ & _ & Hnc1 & Hdi1 & Hdr1 & _).
  destruct (do_genie_result g1 g2 n_clusters gini_threshold)
    as (Hwf & Hnd & _ & Hcount & Hk & _ & Hn2 & _ & Hdi2 & Hdr2);
    [lia | done |].
  destruct (get_labels_canonical g2 res) as [Hok Hover];
    [lia | done | lia | lia | |].
  { intros x Hx. rewrite Hdi2, Hdr2, Hdi1, Hdr1. apply Hid. lia. }
  rewrite Hcount in Hok, Hover.
  destruct (Z.le_gt_cases n_clusters INT_MAX) as [Hint|Hbig].
  2:{ rewrite (Hover Hbig) in Hlab. done. }
  destruct (Hok Hint) as (g3' & labels2 & Hlab2 & Hlen & Hrange & _ & Hfirst & _).
  rewrite Hlab in Hlab2. injection Hlab2 as <- <-. cbn [snd].
  rewrite Hn2, Hn1, Hng in Hlen, Hrange, Hfirst.
  rewrite Hn1, Hnc1, Hng, Hnc in Hk.
  split; [lia|]. split; [done|]. split; [done|]. split; [done|]. split; [done|].
  destruct (Hfirst 0 ltac:(lia)) as (a & Ha & Ea & Hsm).
  destruct (decide (a = 0)) as [->|Hne]; [done|].
  destruct (Hsm 0 ltac:(lia)) as (lb & Eb & Hlb).
  destruct (Hrange 0 ltac:(lia)) as (l0 & E0 & Hl0). rewrite Eb in E0.
  injection E0 as ->. lia.
Qed.

Lemma apply_returns_n_clusters_labels_witness :
  ∃ g labels,
    CGenie_new Z.gtb [1; 2; 3; 4] [0; 1; 2; 3; 1; 2; 3; 4] 5 false = Ok g ∧
    apply_genie g 2 0 [9; 9; 9; 9; 9] = Ok labels ∧
    labels = [0; 0; 1; 1; 1] ∧
    (∀ a, 0 ≤ a < 5 → ∃ l, vget labels a = Ok l ∧ 0 ≤ l < 2) ∧
    vget labels 0 = Ok 0.
Proof.
  eexists _, _.
  match goal with |- ?A ∧ ?B ∧ _ =>
    assert (Hnew : A) by (vm_compute; reflexivity);
    assert (Hrun : B) by (vm_compute; reflexivity)
  end.
  split; [exact Hnew|]. split; [exact Hrun|]. split; [reflexivity|].
  destruct (apply_returns_n_clusters_labels Z.gtb [1; 2; 3; 4]
              [0; 1; 2; 3; 1; 2; 3; 4] 5 _ 2 0 [9; 9; 9; 9; 9] _
              Hnew ltac:(lia) eq_refl Hrun) as (_ & _ & _ & H1 & _ & H2).
  split; [exact H1 | exact H2].
Defined.

(** One step of [get_labels] writes [-1] for a noise point and a label
    below the counter, which an [int] holds, for any other point. *)
Lemma label_step_mark {T : Type} (g : @CGenie T) i d rci c res d1 rci1 c1 res1 :
  label_step g i (d, rci, c, res) = Ok (d1, rci1, c1, res1) →
  0 ≤ c ≤ INT_MAX → (∀ r l, vget rci r = Ok l → -1 ≤ l < c) →
  0 ≤ c1 ≤ INT_MAX ∧ (∀ r l, vget rci1 r = Ok l → -1 ≤ l < c1) ∧
  ∃ r l, vget (denoise_index_rev g) i = Ok r ∧
    0 ≤ i < Z.of_nat (length res) ∧ res1 = upd res i l ∧
    (if 0 <=? r then 0 ≤ l < INT_MAX else l = -1).
Proof.
  unfold label_step. intros (r & Er & H)%bind_Ok Hc Hrci.
  destruct (0 <=? r) eqn:Hr.
  - destruct (DisjointSets.find d r) as [d' [f|]]; [|done].
    apply bind_Ok in H as (j & _ & (cid & Ecid & (up & Hup & (lab & Elab &
      (res' & [Hi ->]%vset_Ok & [= <- <- <- <-])%bind_Ok)%bind_Ok)%bind_Ok)%bind_Ok).
    destruct (Z.ltb_spec cid 0).
    + apply bind_Ok in Hup as (rci' & [Hj ->]%vset_Ok & Hup).
      destruct (Z.ltb_spec c INT_MAX); [|done].
      injection Hup as <-. cbn [fst snd] in *.
      rewrite vget_upd_eq in Elab by done. injection Elab as <-.
      split; [lia|]. split.
      * intros r0 l0 E. destruct (decide (r0 = j)) as [->|Hne].
        -- rewrite vget_upd_eq in E by done. injection E as <-. lia.
        -- rewrite vget_upd_ne in E by (done || lia).
           pose proof (Hrci r0 _ E). lia.
      * exists r, c. rewrite Hr. split; [done|]. split; [done|]. split; [done | lia].
    + injection Hup as <-. cbn [fst snd] in *. rewrite Ecid in Elab.
      injection Elab as <-. split; [done|]. split; [done|].
      exists r, cid. rewrite Hr. pose proof (Hrci _ _ Ecid).
      split; [done|]. split; [done|]. split; [done | lia].
  - apply bind_Ok in H as (res' & [Hi ->]%vset_Ok & [= <- <- <- <-]).
    split; [done|]. split; [done|]. exists r, (-1). rewrite Hr. done.
Qed.

Lemma get_labels_marks {T : Type} (g g' : @CGenie T) (res labels : list Z) :
  0 ≤ n g → get_labels g res = Ok (g', labels) →
  Z.of_nat (length labels) = Z.of_nat (length res) ∧
  n g ≤ Z.of_nat (length res) ∧
  ∀ v, 0 ≤ v < n g →
    ∃ r l, vget (denoise_index_rev g) v = Ok r ∧ vget labels v = Ok l ∧
      (if 0 <=? r then 0 ≤ l < INT_MAX else l = -1).
Proof.
  intros Hn. unfold get_labels.
  intros ([[[d rci] c] res'] & Hrun & [= <- <-])%bind_Ok.
  unfold for_range in Hrun. rewrite Z.sub_0_r in Hrun.
  apply (for_count_inv_partial
    (λ i (st : DisjointSets.t * list Z * Z * list Z),
       let '(_, rci, c, res1) := st in
       0 ≤ c ≤ INT_MAX ∧ (∀ r l, vget rci r = Ok l → -1 ≤ l < c) ∧
       length res1 = length res ∧ i ≤ Z.max 0 (Z.of_nat (length res)) ∧
       ∀ v, 0 ≤ v < i →
         ∃ r l, vget (denoise_index_rev g) v = Ok r ∧ vget res1 v = Ok l ∧
           (if 0 <=? r then 0 ≤ l < INT_MAX else l = -1))) in Hrun.
  - rewrite Z.add_0_l, Z2Nat.id in Hrun by lia.
    destruct Hrun as (_ & _ & Hl & Hle & Hv). split; [lia|]. split; [lia | done].
  - split; [by vm_compute|]. split.
    + intros r l E. pose proof (vget_range _ _ _ E) as Hr.
      rewrite length_replicate in Hr. rewrite vget_replicate in E by lia.
      injection E as <-. lia.
    + split; [done|]. split; [lia|]. intros v Hv. lia.
  - intros j [[[d0 rci0] c0] res0] [[[d1 rci1] c1] res1] Hj Hstep
      (Hc & Hrci & Hl & Hle & Hv).
    destruct (label_step_mark _ _ _ _ _ _ _ _ _ _ Hstep Hc Hrci)
      as (Hc1 & Hrci1 & r & l & Er & Hi & -> & Hmark).
    split; [done|]. split; [done|]. split; [by rewrite length_upd|].
    split; [lia|]. intros v Hv'. destruct (decide (v = j)) as [->|Hne].
    + exists r, l. split; [done|]. split; [by apply vget_upd_eq | done].
    + destruct (Hv v ltac:(lia)) as (r' & l' & ? & ? & ?). exists r', l'.
      split; [done|]. split; [|done]. by rewrite vget_upd_ne by lia.
Qed.

(** X15.  With noise leaves, when [apply_genie] returns on a constructed
    engine, the label of a point is [-1] exactly when the point is a leaf
    of the tree; every other point gets a label that is not negative and
    that an [int] holds, below [INT_MAX]; and the buffer keeps its
    length. *)
Theorem noise_points_are_labelled_minus_one {T : Type} (T_gt : T → T → bool)
    (d : list T) (ind : list Z) (n0 : Z) (g : CGenie)
    (n_clusters : Z) (gini_threshold : Q) (res labels : list Z) :
  CGenie_new T_gt d ind n0 true = Ok g →
  apply_genie g n_clusters gini_threshold res = Ok labels →
  length labels = length res ∧
  ∀ v, 0 ≤ v < n0 →
    ∃ l, vget labels v = Ok l ∧
      if is_leaf (deg g) v then l = -1 else 0 ≤ l < INT_MAX.
Proof.
  intros Hnew.
  destruct (CGenie_new_inv _ _ _ _ _ _ Hnew)
    as (Hn & _ & Hdeg & _ & _ & Hng & _ & _ & _ & (j & Hloop & _ & _)).
  apply Cget_graph_node_degrees_length in Hdeg.
  rewrite length_replicate in Hdeg.
  destruct (denoise_loop_tables (deg g) n0 Hn ltac:(lia))
    as (di & dir & Hloop' & Hv & Hd & _).
  rewrite Hloop in Hloop'. injection Hloop' as _ _ _ Hdir.
  unfold apply_genie.
  intros (g1 & Hinit & (g2 & Hdo & ([g3 labels'] & Hlab & [= <-])%bind_Ok)%bind_Ok)
    %bind_Ok.
  destruct (skiplist_init_fields g g1 Hinit)
    as (_ & _ & Hn1 & _ & _ & _ & _ & Hdr1 & _).
  destruct (do_genie_fields g1 g2 _ _ Hdo) as (_ & Hn2 & _ & _ & _ & Hdr2).
  destruct (get_labels_marks g2 g3 res labels' ltac:(lia) Hlab) as (Hlen & _ & Hmark).
  cbn [snd]. split; [lia|]. intros v Hv0.
  destruct (Hmark v ltac:(lia)) as (r & l & Er & El & Hrl).
  rewrite Hdr2, Hdr1, Hdir, (Hv v Hv0) in Er. exists l. split; [done|].
  destruct (is_leaf (deg g) v) eqn:Eleaf.
  - injection Er as <-. done.
  - injection Er as <-. destruct (Hd v Hv0 Eleaf) as [Hr _].
    destruct (Z.leb_spec 0 (v - leaf_count (deg g) v)); [done | lia].
Qed.

Lemma noise_points_are_labelled_minus_one_witness :
  ∃ g labels,
    CGenie_new Z.gtb [1; 2; 3; 4; 5] [0; 1; 1; 2; 2; 3; 3; 4; 4; 5] 6 true = Ok g ∧
    apply_genie g 1 0 [9; 9; 9; 9; 9; 9] = Ok labels ∧
    labels = [-1; 0; 0; 0; 0; -1] ∧
    ∀ v, 0 ≤ v < 6 →
      ∃ l, vget labels v = Ok l ∧
        if is_leaf (deg g) v then l = -1 else 0 ≤ l < INT_MAX.
Proof.
  eexists _, _.
  match goal with |- ?A ∧ ?B ∧ _ =>
    assert (Hnew : A) by (vm_compute; reflexivity);
    assert (Hrun : B) by (vm_compute; reflexivity)
  end.
  split; [exact Hnew|]. split; [exact Hrun|]. split; [reflexivity|].
  exact (proj2 (noise_points_are_labelled_minus_one Z.gtb [1; 2; 3; 4; 5]
           [0; 1; 1; 2; 2; 3; 3; 4; 4; 5] 6 _ 1 0 [9; 9; 9; 9; 9; 9] _
           Hnew Hrun)).
Defined.

(** * The skip-list of noise mode *)

Section SkipListNoise.
Context {T : Type}.
Implicit Type g : @CGenie T.

(** The noise-leaves loop links every inner edge to the inner edge before
    it and to the inner edge after it. *)
Lemma skiplist_noise_loop_links g :
  1 ≤ n g → edges_in_range (mst_i g) (n g) →
  Z.of_nat (length (deg g)) = n g →
  Z.of_nat (length (next_edge g)) = n g →
  Z.of_nat (length (prev_edge g)) = n g →
  ∃ cur last nxt prv,
    skiplist_noise_loop g = Ok (cur, last, nxt, prv) ∧
    Z.of_nat (length nxt) = n g ∧
    ((cur = -1 ∧ last = -1 ∧ inner_gap (deg g) (mst_i g) (-1) (n g - 1)) ∨
     (0 ≤ cur ≤ last ∧ last < n g - 1 ∧
      inner_edge (deg g) (mst_i g) cur = true ∧
      inner_edge (deg g) (mst_i g) last = true ∧
      inner_gap (deg g) (mst_i g) (-1) cur ∧
      inner_gap (deg g) (mst_i g) last (n g - 1) ∧
      vget prv cur = Ok (-1) ∧
      (∀ e, 0 ≤ e < last → inner_edge (deg g) (mst_i g) e = true →
         ∃ e', vget nxt e = Ok e' ∧ e < e' ≤ last ∧
           inner_edge (deg g) (mst_i g) e' = true ∧
           inner_gap (deg g) (mst_i g) e e') ∧
      (∀ e, cur < e ≤ last → inner_edge (deg g) (mst_i g) e = true →
         ∃ e', vget prv e = Ok e' ∧ cur ≤ e' < e ∧
           inner_edge (deg g) (mst_i g) e' = true ∧
           inner_gap (deg g) (mst_i g) e' e))).
Proof.
  intros Hn He Hdeg Hnxt Hprv. unfold skiplist_noise_loop.
  set (inner := inner_edge (deg g) (mst_i g)).
  set (gap := inner_gap (deg g) (mst_i g)).
  match goal with |- context [for_range 0 _ ?b ?s] =>
    destruct (for_range_inv
      (λ i (st : Z * Z * list Z * list Z),
         let '(cur, last, nxt, prv) := st in
         Z.of_nat (length nxt) = n g ∧ Z.of_nat (length prv) = n g ∧
         ((cur = -1 ∧ last = -1 ∧ gap (-1) i) ∨
          (0 ≤ cur ≤ last ∧ last < i ∧ inner cur = true ∧ inner last = true ∧
           gap (-1) cur ∧ gap last i ∧ vget prv cur = Ok (-1) ∧
           (∀ e, 0 ≤ e < last → inner e = true →
              ∃ e', vget nxt e = Ok e' ∧ e < e' ≤ last ∧ inner e' = true ∧
                    gap e e') ∧
           (∀ e, cur < e ≤ last → inner e = true →
              ∃ e', vget prv e = Ok e' ∧ cur ≤ e' < e ∧ inner e' = true ∧
                    gap e' e))))
      0 (n g - 1) b s) as ([[[cur last] nxt] prv] & Hloop & Hinv)
  end; [lia | | |].
  - split; [done|]. split; [done|]. left. split; [done|]. split; [done|].
    intros j Hj. lia.
  - intros i [[[cur last] nxt] prv] Hi (Hl1 & Hl2 & Hcase).
    destruct (He i Hi) as (u & v & Eu & Ev & Hu & Hv & _).
    rewrite Eu, Ev. cbn [bind].
    destruct (vget_total (deg g) u) as [d1 E1]; [lia|].
    destruct (vget_total (deg g) v) as [d2 E2]; [lia|].
    rewrite E1. cbn [bind].
    assert (inner i = (1 <? d1) && (1 <? d2)) as Ei
      by (unfold inner, inner_edge, is_inner; by rewrite Eu, Ev, E1, E2).
    assert ((if 1 <? d1 then d3 <- vget (deg g) v ;; Ok (1 <? d3)
             else Ok false) = Ok (inner i)) as ->.
    { rewrite Ei, E2. by destruct (1 <? d1). }
    cbn [bind]. destruct (inner i) eqn:Eb.
    + destruct (Z.ltb_spec cur 0).
      * destruct Hcase as [(-> & -> & Hgap)|(? & _)]; [|lia].
        rewrite vset_total by lia. cbn [bind]. eexists. split; [done|].
        split; [done|]. split; [rewrite length_upd; lia|]. right.
        split; [lia|]. split; [lia|]. split; [done|]. split; [done|].
        split; [done|]. split; [intros j Hj; lia|].
        split; [apply vget_upd_eq; lia|].
        split; intros e Hlt Ie; [|lia]. rewrite Hgap in Ie; [done | lia].
      * destruct Hcase as [(? & _)|(Hc & Hlast & Icur & Ilast & G0 & G1 & Pcur & Hnx & Hpv)];
          [lia|].
        rewrite vset_total by lia. cbn [bind].
        rewrite vset_total by lia. cbn [bind]. eexists. split; [done|].
        split; [rewrite length_upd; lia|]. split; [rewrite length_upd; lia|].
        right. split; [lia|]. split; [lia|]. split; [done|]. split; [done|].
        split; [done|]. split; [intros j Hj; lia|].
        split; [rewrite vget_upd_ne by lia; done|]. split.
        -- intros e Hlt Ie. destruct (decide (e = last)) as [->|Hne].
           ++ exists i. rewrite vget_upd_eq by lia. split; [done|].
              split; [lia|]. split; [done|]. done.
           ++ destruct (decide (last < e)) as [Hgt|Hle].
              { rewrite G1 in Ie; [done | lia]. }
              destruct (Hnx e ltac:(lia) Ie) as (e' & E' & He' & Ie' & Ge').
              exists e'. rewrite vget_upd_ne by lia. split; [done|].
              split; [lia|]. done.
        -- intros e Hlt Ie. destruct (decide (e = i)) as [->|Hne].
           ++ exists last. rewrite vget_upd_eq by lia. split; [done|].
              split; [lia|]. done.
           ++ destruct (decide (last < e)) as [Hgt|Hle].
              { rewrite G1 in Ie; [done | lia]. }
              destruct (Hpv e ltac:(lia) Ie) as (e' & E' & He' & Ie' & Ge').
              exists e'. rewrite vget_upd_ne by lia. done.
    + eexists. split; [done|]. split; [done|]. split; [done|].
      destruct Hcase as [(-> & -> & Hgap)|(Hc & Hlast & Icur & Ilast & G0 & G1 & Hrest)].
      * left. split; [done|]. split; [done|]. intros j Hj.
        destruct (decide (j = i)) as [->|]; [done|]. apply Hgap. lia.
      * right. split; [done|]. split; [lia|]. split; [done|]. split; [done|].
        split; [done|]. split; [|done]. intros j Hj.
        destruct (decide (j = i)) as [->|]; [done|]. apply G1. lia.
  - destruct Hinv as (Hl1 & _ & Hcase). exists cur, last, nxt, prv.
    split; [done|]. split; [done|]. done.
Qed.

End SkipListNoise.

(** X16.  With noise leaves, [skiplist_init] threads exactly the edges
    that join two inner vertices (degree above 1), in ascending order.
    On a constructed engine with a well-formed edge list and at least one
    such edge it returns with both cursors on the first of them; from each
    such edge [next_edge] leads to the next one, or to the sentinel [n-1]
    after the last, and [prev_edge] leads to the one before, or to [-1]
    before the first; no edge of that kind lies in between. *)
Theorem skiplist_init_threads_inner_edges {T : Type} (T_gt : T → T → bool)
    (d : list T) (ind : list Z) (n0 : Z) (g : CGenie) (e0 : Z) :
  CGenie_new T_gt d ind n0 true = Ok g →
  edges_in_range ind n0 →
  0 ≤ e0 < n0 - 1 → inner_edge (deg g) ind e0 = true →
  ∃ g1, skiplist_init g = Ok g1 ∧
    lastidx g1 = curidx g1 ∧ 0 ≤ curidx g1 ≤ e0 ∧
    inner_edge (deg g) ind (curidx g1) = true ∧
    inner_gap (deg g) ind (-1) (curidx g1) ∧
    ∀ e, 0 ≤ e < n0 - 1 → inner_edge (deg g) ind e = true →
      (∃ e', vget (next_edge g1) e = Ok e' ∧ e < e' ≤ n0 - 1 ∧
         inner_gap (deg g) ind e e' ∧
         (e' < n0 - 1 → inner_edge (deg g) ind e' = true)) ∧
      (∃ e', vget (prev_edge g1) e = Ok e' ∧ -1 ≤ e' < e ∧
         inner_gap (deg g) ind e' e ∧
         (0 ≤ e' → inner_edge (deg g) ind e' = true)).
Proof.
  intros Hnew He He0 Ie0.
  destruct (CGenie_new_inv _ _ _ _ _ _ Hnew)
    as (Hn & _ & Hdeg & _ & Hi & Hng & Hnl & Hnx & Hpv & _).
  apply Cget_graph_node_degrees_length in Hdeg.
  rewrite length_replicate in Hdeg.
  destruct (skiplist_noise_loop_links g) as (cur & last & nxt & prv & Hloop & Hl & Hcase).
  { lia. }
  { by rewrite Hi, Hng. }
  { lia. }
  { rewrite Hnx, length_replicate. lia. }
  { rewrite Hpv, length_replicate. lia. }
  rewrite Hi, Hng in Hcase.
  destruct Hcase as [(_ & _ & Hgap)|
    (Hc & Hlast & Icur & Ilast & G0 & G1 & Pcur & Hnxt & Hprv)].
  { rewrite Hgap in Ie0; [done | lia]. }
  unfold skiplist_init. rewrite Hnl, Hloop. cbn [bind].
  rewrite vset_total by lia. cbn [bind]. eexists. split; [done|]. cbn.
  split; [done|].
  assert (cur ≤ e0) as Hce.
  { destruct (Z.le_gt_cases cur e0); [done|]. rewrite G0 in Ie0; [done | lia]. }
  split; [lia|]. split; [done|]. split; [done|].
  intros e Hr Ie.
  assert (cur ≤ e ≤ last) as Hel.
  { split.
    - destruct (Z.le_gt_cases cur e); [done|]. rewrite G0 in Ie; [done | lia].
    - destruct (Z.le_gt_cases e last); [done|]. rewrite G1 in Ie; [done | lia]. }
  split.
  - destruct (decide (e = last)) as [->|Hne].
    + exists (n g - 1). rewrite vget_upd_eq by lia. rewrite Hng.
      split; [done|]. split; [lia|]. split; [done | lia].
    + destruct (Hnxt e ltac:(lia) Ie) as (e' & E' & He' & Ie' & Ge').
      exists e'. rewrite vget_upd_ne by lia. split; [done|].
      split; [lia|]. done.
  - destruct (decide (e = cur)) as [->|Hne].
    + exists (-1). split; [done|]. split; [lia|]. split; [done | lia].
    + destruct (Hprv e ltac:(lia) Ie) as (e' & E' & He' & Ie' & Ge').
      exists e'. split; [done|]. split; [lia|]. done.
Qed.

Lemma skiplist_init_threads_inner_edges_witness :
  ∃ g g1,
    CGenie_new Z.gtb [1; 2; 3; 4; 5] [0; 1; 1; 2; 4; 5; 2; 3; 3; 4] 6 true = Ok g ∧
    skiplist_init g = Ok g1 ∧ curidx g1 = 1 ∧
    vget (next_edge g1) 1 = Ok 3 ∧ vget (next_edge g1) 3 = Ok 4 ∧
    vget (next_edge g1) 4 = Ok 5 ∧ vget (prev_edge g1) 3 = Ok 1 ∧
    inner_gap (deg g) [0; 1; 1; 2; 4; 5; 2; 3; 3; 4] (-1) (curidx g1).
Proof.
  eexists _, _.
  match goal with |- ?A ∧ ?B ∧ _ =>
    assert (Hnew : A) by (vm_compute; reflexivity);
    assert (Hrun : B) by (vm_compute; reflexivity)
  end.
  split; [exact Hnew|]. split; [exact Hrun|].
  repeat (split; [vm_compute; reflexivity|]).
  destruct (skiplist_init_threads_inner_edges Z.gtb [1; 2; 3; 4; 5]
              [0; 1; 1; 2; 4; 5; 2; 3; 3; 4] 6 _ 3 Hnew)
    as (g1 & Hinit & _ & _ & _ & Hgap & _).
  - intros j Hj.
    assert (j = 0 ∨ j = 1 ∨ j = 2 ∨ j = 3 ∨ j = 4)
      as [-> | [-> | [-> | [-> | ->] ] ] ] by lia;
      eexists _, _; (split; [reflexivity|]); (split; [reflexivity|]); lia.
  - lia.
  - vm_compute. reflexivity.
  - rewrite Hrun in Hinit. injection Hinit as <-. exact Hgap.
Defined.

(** * The merge driver on a spanning tree *)

(** ** More counting *)

Lemma count_range_or (P Q : Z → bool) lo len :
  (∀ i, lo ≤ i < lo + len → P i = true → Q i = false) →
  count_range (λ i, P i || Q i) lo len
    = count_range P lo len + count_range Q lo len.
Proof.
  intros H. destruct (Z.le_gt_cases len 0) as [Hn|Hp].
  { unfold count_range. destruct len; try lia; done. }
  rewrite <- (Z2Nat.id len) in * by lia.
  revert lo H. clear Hp. induction (Z.to_nat len) as [|c IH]; intros lo H; [done|].
  rewrite !count_range_cons. rewrite (IH (lo + 1)) by (intros i Hi; apply H; lia).
  pose proof (H lo ltac:(lia)) as H0.
  destruct (P lo); [rewrite H0 by done|]; destruct (Q lo); simpl; lia.
Qed.

Lemma count_range_pos (P : Z → bool) lo len c :
  lo ≤ c < lo + len → P c = true → 1 ≤ count_range P lo len.
Proof.
  intros Hc Hp.
  pose proof (count_range_remove P lo len c ltac:(lia)) as Hrem.
  destruct (decide (lo ≤ c < lo + len)); [|lia]. rewrite Hp in Hrem.
  pose proof (count_range_bounds (λ i, P i && negb (i =? c)) lo len ltac:(lia)).
  lia.
Qed.

Lemma count_range_exists (P : Z → bool) lo len :
  0 < count_range P lo len → ∃ c, lo ≤ c < lo + len ∧ P c = true.
Proof.
  intros Hpos. destruct (Z.le_gt_cases len 0) as [Hn|Hp].
  { unfold count_range in Hpos. destruct len; try lia; done. }
  destruct (bounded_search P lo (Z.to_nat len)) as [(j & Hj & Pj)|Hall].
  - exists j. split; [lia | done].
  - rewrite count_range_zero in Hpos; [lia|]. intros i Hi. apply Hall. lia.
Qed.

Lemma count_range_le_1 (P : Z → bool) lo len :
  0 ≤ len →
  (∀ i j, lo ≤ i < lo + len → lo ≤ j < lo + len →
     P i = true → P j = true → i = j) →
  count_range P lo len ≤ 1.
Proof.
  intros Hlen Huniq.
  destruct (Z.le_gt_cases (count_range P lo len) 0) as [|Hpos]; [lia|].
  destruct (count_range_exists P lo len Hpos) as (c & Hc & Pc).
  pose proof (count_range_remove P lo len c Hlen) as Hrem.
  destruct (decide (lo ≤ c < lo + len)); [|lia]. rewrite Pc in Hrem.
  rewrite count_range_zero in Hrem; [lia|].
  intros i Hi. destruct (Z.eqb_spec i c) as [->|Hne]; [by rewrite andb_false_r|].
  rewrite andb_true_r. destruct (P i) eqn:Pi; [|done].
  exfalso. apply Hne. by apply Huniq.
Qed.

Lemma count_range_negb (P : Z → bool) lo len :
  0 ≤ len →
  count_range (λ i, negb (P i)) lo len = len - count_range P lo len.
Proof.
  intros Hlen. rewrite <- (Z2Nat.id len) in * by lia. clear Hlen.
  revert lo. induction (Z.to_nat len) as [|c IH]; intros lo; [done|].
  rewrite !count_range_cons, IH. destruct (P lo); simpl; lia.
Qed.

(** ** The sizes of the sets *)

Module SizeFacts.
Import DisjointSets DisjointSetsFacts DisjointSetsMore.
Import GiniDisjointSets (size_of, sizes, roots, elements, get_count, get_smallest_count).

Lemma size_of_count d r :
  size_of d r = count_range (λ y, root (par d) y =? r) 0 (DisjointSets.n d).
Proof.
  unfold size_of, count_range, elements. do 2 f_equal.
  apply list_filter_iff. intros y. symmetry. apply Z.eqb_eq.
Qed.

Lemma set_size_pos d x :
  wf d → 0 ≤ x < DisjointSets.n d → 1 ≤ set_size d x.
Proof.
  intros Hwf Hx. unfold set_size. rewrite size_of_count.
  apply (count_range_pos _ _ _ x); [lia|]. apply Z.eqb_refl.
Qed.

Lemma get_count_set_size d x :
  0 ≤ x < DisjointSets.n d → get_count d x = Ok (set_size d x).
Proof. apply GiniFacts.get_count_total. Qed.

Lemma get_smallest_count_le_size d x :
  wf d → 0 ≤ x < DisjointSets.n d → get_smallest_count d ≤ set_size d x.
Proof.
  intros Hwf Hx. apply (GiniFacts.get_smallest_count_le d x); [done|].
  by apply get_count_set_size.
Qed.

Lemma foldr_min_in (s : Z) l : foldr Z.min s l ∈ s :: l.
Proof.
  induction l as [|x l IH]; simpl.
  - apply list_elem_of_here.
  - destruct (Z.min_spec x (foldr Z.min s l)) as [[_ ->]|[_ ->]].
    + apply list_elem_of_further, list_elem_of_here.
    + apply elem_of_cons in IH as [->|IH].
      * apply list_elem_of_here.
      * by do 2 apply list_elem_of_further.
Qed.

(** Some set has the smallest size. *)
Lemma get_smallest_count_attained d :
  wf d → 1 ≤ DisjointSets.n d →
  ∃ r, 0 ≤ r < DisjointSets.n d ∧ root (par d) r = r ∧
       set_size d r = get_smallest_count d.
Proof.
  intros [Hlen Hw] Hn.
  assert (0 ∈ roots d) as H0.
  { unfold roots. apply list_elem_of_filter. split.
    - pose proof (root_bounds (par d) 0 Hw ltac:(lia)).
      apply root_self.
      assert (root (par d) 0 = 0) as Hr by lia.
      destruct (vget_total (par d) 0) as [q Eq]; [lia|].
      pose proof (Hw _ _ Eq). by replace q with 0 in Eq by lia.
    - unfold elements. apply elem_of_seqZ. lia. }
  unfold get_smallest_count, sizes.
  destruct (roots d) as [|r0 rs] eqn:Er; [by apply elem_of_nil in H0|].
  rewrite fmap_cons.
  pose proof (foldr_min_in (size_of d r0) (size_of d <$> rs)) as Hin.
  rewrite <- fmap_cons in Hin. apply list_elem_of_fmap in Hin as (r & Hr & Hin).
  rewrite <- Er in Hin. unfold roots in Hin.
  apply list_elem_of_filter in Hin as [Hroot Hel].
  unfold elements in Hel. apply elem_of_seqZ in Hel.
  exists r. split; [lia|]. split; [done|]. unfold set_size. by rewrite Hroot.
Qed.

(** The roots after a union. *)
Lemma merge_Ok_roots d a b d' r :
  wf d → merge d a b = (d', Ok r) →
  wf d' ∧ DisjointSets.n d' = DisjointSets.n d ∧
  0 ≤ a < DisjointSets.n d ∧ 0 ≤ b < DisjointSets.n d ∧
  root (par d) a ≠ root (par d) b ∧
  ∀ z, root (par d') z =
       if decide (root (par d) z = Z.max (root (par d) a) (root (par d) b))
       then Z.min (root (par d) a) (root (par d) b)
       else root (par d) z.
Proof.
  intros Hwf Hm. destruct (merge_cases d a b Hwf) as (Hwf' & Hn & Hc).
  rewrite Hm in Hwf', Hn, Hc. cbn [fst snd] in *.
  destruct Hc as [(Hr & _)|[(Hr & _)|(Hr & Hx & Hy & Hne & _ & Hroot)]];
    [done | done |].
  done.
Qed.

(** Elements of one set stay in one set. *)
Lemma merge_keeps_together d a b x y :
  wf d → root (par d) x = root (par d) y →
  root (par (merge d a b).1) x = root (par (merge d a b).1) y.
Proof.
  intros Hwf Hxy. destruct (merge_cases d a b Hwf) as (_ & _ & Hc).
  destruct Hc as [(_ & _ & _ & Hr)|[(_ & _ & _ & _ & _ & Hr)|
    (_ & _ & _ & _ & _ & Hr)]]; rewrite !Hr; by rewrite Hxy.
Qed.

(** The sizes after a union: the two sets become one, of the size of
    both, and every other set keeps its size. *)
Lemma set_size_merge d a b d' r x :
  wf d → merge d a b = (d', Ok r) →
  set_size d' x =
    if decide (root (par d) x = root (par d) a ∨ root (par d) x = root (par d) b)
    then set_size d a + set_size d b
    else set_size d x.
Proof.
  intros Hwf Hm.
  destruct (merge_Ok_roots d a b d' r Hwf Hm) as (Hwf' & Hn & Ha & Hb & Hne & Hroot).
  unfold set_size. rewrite !size_of_count, Hn.
  set (ra := root (par d) a) in *. set (rb := root (par d) b) in *.
  destruct (decide (root (par d) x = ra ∨ root (par d) x = rb)) as [Hin|Hout].
  - rewrite <- count_range_or.
    + apply count_range_ext. intros y _. rewrite !Hroot.
      destruct (decide (root (par d) x = Z.max ra rb)),
        (decide (root (par d) y = Z.max ra rb)),
        (Z.eqb_spec (root (par d) y) ra), (Z.eqb_spec (root (par d) y) rb);
        simpl; try (apply Z.eqb_eq; lia); try (apply Z.eqb_neq; lia); lia.
    + intros y _ ->%Z.eqb_eq. apply Z.eqb_neq. done.
  - apply count_range_ext. intros y _. rewrite !Hroot.
    destruct (decide (root (par d) x = Z.max ra rb)); [lia|].
    destruct (decide (root (par d) y = Z.max ra rb)); [|done].
    transitivity false; [apply Z.eqb_neq|symmetry; apply Z.eqb_neq]; lia.
Qed.

(** No set shrinks in a union. *)
Lemma set_size_merge_le d a b d' r x :
  wf d → merge d a b = (d', Ok r) → 0 ≤ x < DisjointSets.n d →
  set_size d x ≤ set_size d' x.
Proof.
  intros Hwf Hm Hx. rewrite (set_size_merge d a b d' r x Hwf Hm).
  destruct (merge_Ok_roots d a b d' r Hwf Hm) as (_ & _ & Ha & Hb & _).
  pose proof (set_size_pos d a Hwf Ha). pose proof (set_size_pos d b Hwf Hb).
  destruct (decide _) as [[Hr|Hr]|]; [| |lia]; unfold set_size in *; rewrite Hr; lia.
Qed.

(** A size that is below every size and was not the size of the set of
    [x] is not its size after a union either. *)
Lemma set_size_merge_ne d a b d' r x m :
  wf d → merge d a b = (d', Ok r) →
  m ≤ set_size d a → set_size d x ≠ m → set_size d' x ≠ m.
Proof.
  intros Hwf Hm Hma Hx. rewrite (set_size_merge d a b d' r x Hwf Hm).
  destruct (merge_Ok_roots d a b d' r Hwf Hm) as (_ & _ & Ha & Hb & _).
  pose proof (set_size_pos d b Hwf Hb).
  destruct (decide _); [lia | done].
Qed.

(** One set, when any two elements have the same root. *)
Lemma set_count_le_1 d :
  wf d → 0 ≤ DisjointSets.n d →
  (∀ x y, 0 ≤ x < DisjointSets.n d → 0 ≤ y < DisjointSets.n d →
     root (par d) x = root (par d) y) →
  set_count d ≤ 1.
Proof.
  intros Hwf Hn Hall. unfold set_count. apply count_range_le_1; [done|].
  intros i j Hi Hj Ri%Z.eqb_eq Rj%Z.eqb_eq. rewrite <- Ri, <- Rj.
  apply Hall; lia.
Qed.

End SizeFacts.

(** ** Merges on a tree *)

Section Tree.
Import DisjointSets DisjointSetsFacts DisjointSetsMore SizeFacts.

Variables (K : Z → bool) (ea eb : Z → Z) (M N : Z).
Hypothesis K_range : ∀ j, K j = true → 0 ≤ j < M.
Hypothesis K_elems : ∀ j, K j = true → 0 ≤ ea j < N ∧ 0 ≤ eb j < N.
Hypothesis K_count : count_range K 0 M = N - 1.
Hypothesis K_joins : ∀ f : Z → Z,
  (∀ j, K j = true → f (ea j) = f (eb j)) →
  ∀ x y, 0 ≤ x < N → 0 ≤ y < N → f x = f y.

(** Attempting every edge of the tree: the sets only grow, the endpoints
    of the attempted edges end in one set, and the number of sets drops
    by at most the number of edges whose endpoints were in two sets. *)
Lemma merge_upto_spec d (m : nat) :
  wf d → DisjointSets.n d = N →
  let d' := merge_upto K ea eb d m in
  wf d' ∧ DisjointSets.n d' = N ∧
  (∀ x y, root (par d) x = root (par d) y → root (par d') x = root (par d') y) ∧
  (∀ j, 0 ≤ j < Z.of_nat m → K j = true →
     root (par d') (ea j) = root (par d') (eb j)) ∧
  set_count d
    - count_range (λ j, K j && negb (root (par d) (ea j) =? root (par d) (eb j)))
        0 (Z.of_nat m)
    ≤ set_count d'.
Proof.
  intros Hwf Hn. induction m as [|m IH].
  - simpl. split; [done|]. split; [done|]. split; [done|]. split; [lia|].
    unfold count_range. simpl. lia.
  - cbn [merge_upto]. cbn zeta in IH.
    destruct IH as (Hwf1 & Hn1 & Hmono & Hdone & Hcnt).
    set (d1 := merge_upto K ea eb d m) in *.
    replace (Z.of_nat (S m)) with (Z.of_nat m + 1) by lia.
    rewrite count_range_snoc by lia. rewrite Z.add_0_l.
    destruct (K (Z.of_nat m)) eqn:Ek; cbn [andb].
    2:{ split; [done|]. split; [done|]. split; [done|]. split; [|lia].
        intros j Hj Kj. apply Hdone; [|done].
        destruct (decide (j = Z.of_nat m)) as [->|]; [congruence | lia]. }
    destruct (K_elems _ Ek) as [Ha Hb].
    set (a := ea (Z.of_nat m)) in *. set (b := eb (Z.of_nat m)) in *.
    destruct (merge_cases d1 a b Hwf1) as (Hwf' & Hn' & Hc).
    set (d' := (merge d1 a b).1) in *.
    split; [done|]. split; [lia|]. split.
    { intros x y Hxy. apply merge_keeps_together; [done|]. by apply Hmono. }
    destruct Hc as [(_ & Hout & _)|[(_ & _ & _ & Heq & _ & Hr)|
      (Hok & _ & _ & Hne & _ & Hr)]].
    + exfalso. apply Hout. lia.
    + split.
      * intros j Hj Kj. rewrite !Hr.
        destruct (decide (j = Z.of_nat m)) as [->|]; [done|]. apply Hdone; [lia | done].
      * rewrite (SetCount.set_count_same_roots d1 d') by (done || lia).
        destruct (negb _); lia.
    + split.
      * intros j Hj Kj. destruct (decide (j = Z.of_nat m)) as [->|].
        -- fold a b. rewrite !Hr.
           destruct (decide (root (par d1) a = Z.max (root (par d1) a) (root (par d1) b))),
             (decide (root (par d1) b = Z.max (root (par d1) a) (root (par d1) b))); lia.
        -- apply merge_keeps_together; [done|]. apply Hdone; [lia | done].
      * assert (set_count d' = set_count d1 - 1) as ->.
        { destruct (merge d1 a b) as [d2 [r|]] eqn:Em; [|done].
          by apply (SetCount.set_count_merge_Ok d1 a b d2 r). }
        destruct (Z.eqb_spec (root (par d) a) (root (par d) b)) as [Heq|];
          cbn [negb]; [|lia].
        exfalso. apply Hne. by apply Hmono.
Qed.

Section State.
Variables (d : DisjointSets.t) (alive : Z → bool) (i : Z).
Hypothesis Hst : tree_state K ea eb M N d alive i.
Hypothesis Hi : 0 ≤ i < N - 1.

(** The endpoints of an edge that is still there are in two sets. *)
Lemma alive_edge_joins_two_sets e :
  alive e = true → root (par d) (ea e) ≠ root (par d) (eb e).
Proof.
  destruct Hst as (Hwf & Hn & Hsets & Hsub & Hcnt & Hdead).
  intros He Heq.
  assert (0 ≤ M) as HM by (pose proof (K_range e (Hsub e He)); lia).
  destruct (merge_upto_spec d (Z.to_nat M) Hwf Hn) as (Hwf' & Hn' & Hmono & Hdone & Hle).
  set (d' := merge_upto K ea eb d (Z.to_nat M)) in *.
  rewrite Z2Nat.id in Hdone, Hle by done.
  assert (set_count d' ≤ 1) as Hone.
  { apply set_count_le_1; [done | lia |]. rewrite Hn'. intros x y Hx Hy.
    apply (K_joins (root (par d'))); [|done|done].
    intros j Kj. apply Hdone; [|done]. by apply K_range. }
  set (D := λ j, K j && negb (root (par d) (ea j) =? root (par d) (eb j))) in *.
  assert (count_range D 0 M ≤ count_range (without alive e) 0 M) as Hsmall.
  { apply count_range_mono. intros j Hj. unfold D, without.
    intros [Kj Hd%negb_true_iff%Z.eqb_neq]%andb_true_iff.
    destruct (alive j) eqn:Ej.
    - destruct (Z.eqb_spec j e) as [->|]; [done|done].
    - exfalso. apply Hd. by apply Hdead. }
  unfold without in Hsmall. rewrite count_range_remove in Hsmall by done.
  pose proof (K_range e (Hsub e He)) as Hr.
  destruct (decide (0 ≤ e < 0 + M)); [|lia]. rewrite He in Hsmall. lia.
Qed.

(** Some edge that is still there touches a set of the smallest size. *)
Lemma alive_edge_at_smallest_set :
  ∃ e, alive e = true ∧
    (set_size d (ea e) = GiniDisjointSets.get_smallest_count d ∨
     set_size d (eb e) = GiniDisjointSets.get_smallest_count d).
Proof.
  destruct Hst as (Hwf & Hn & Hsets & Hsub & Hcnt & Hdead).
  destruct (get_smallest_count_attained d Hwf ltac:(lia)) as (r & Hr & Rr & Hm).
  set (m := GiniDisjointSets.get_smallest_count d) in *.
  destruct (Z.le_gt_cases M 0) as [HM0|HM].
  { rewrite count_range_zero in Hcnt; [lia|]. intros j Hj. lia. }
  destruct (bounded_search
    (λ j, alive j && ((root (par d) (ea j) =? r) || (root (par d) (eb j) =? r)))
    0 (Z.to_nat M)) as [(e & He & Pe)|Hnone].
  - apply andb_true_iff in Pe as [Ae Pe]. exists e. split; [done|].
    unfold set_size in *. rewrite Rr in Hm.
    apply orb_true_iff in Pe as [->%Z.eqb_eq| ->%Z.eqb_eq]; [by left | by right].
  - exfalso.
    set (f := λ z, if decide (root (par d) z = r) then 0 else 1).
    assert (∀ x, 0 ≤ x < N → root (par d) x = r) as Hall.
    { intros x Hx.
      assert (f x = f r) as Hf.
      { apply K_joins; [|done|lia]. intros j Kj. unfold f.
        destruct (alive j) eqn:Aj.
        - pose proof (K_range j Kj) as Hj. specialize (Hnone j ltac:(lia)).
          rewrite Aj in Hnone. cbn [andb] in Hnone.
          apply orb_false_iff in Hnone as [H1%Z.eqb_neq H2%Z.eqb_neq].
          destruct (decide _), (decide _); done.
        - by rewrite (Hdead j Kj Aj). }
      unfold f in Hf. rewrite Rr in Hf.
      destruct (decide (root (par d) x = r)); [done|].
      destruct (decide (r = r)); done. }
    assert (set_count d ≤ 1) as Hone.
    { apply set_count_le_1; [done | lia |]. rewrite Hn. intros x y Hx Hy.
      by rewrite !Hall. }
    lia.
Qed.

(** Merging the endpoints of an edge that is still there succeeds and
    takes the edge away. *)
Lemma tree_state_merge e :
  alive e = true →
  ∃ d' r, DisjointSets.merge d (ea e) (eb e) = (d', Ok r) ∧
    tree_state K ea eb M N d' (without alive e) (i + 1).
Proof.
  intros He. pose proof (alive_edge_joins_two_sets e He) as Hne.
  destruct Hst as (Hwf & Hn & Hsets & Hsub & Hcnt & Hdead).
  destruct (K_elems e (Hsub e He)) as [Ha Hb].
  destruct (merge_spec d (ea e) (eb e) Hwf ltac:(lia) ltac:(lia) Hne)
    as (d' & Hm & Hwf' & Hn' & _ & Hroot).
  exists d', (Z.min (root (par d) (ea e)) (root (par d) (eb e))).
  split; [done|]. split; [done|]. split; [lia|]. split.
  { rewrite (SetCount.set_count_merge_Ok _ _ _ _ _ Hwf Hm). lia. }
  split.
  { intros j [Aj _]%andb_true_iff. by apply Hsub. }
  split.
  { unfold without. pose proof (K_range e (Hsub e He)) as Hr.
    rewrite count_range_remove by lia.
    destruct (decide (0 ≤ e < 0 + M)); [|lia]. rewrite He. lia. }
  intros j Kj Hj. unfold without in Hj. rewrite !Hroot.
  destruct (alive j) eqn:Aj.
  - cbn [andb] in Hj. apply negb_false_iff, Z.eqb_eq in Hj as ->.
    destruct (decide (root (par d) (ea e) = Z.max (root (par d) (ea e)) (root (par d) (eb e)))),
      (decide (root (par d) (eb e) = Z.max (root (par d) (ea e)) (root (par d) (eb e)))); lia.
  - by rewrite (Hdead j Kj Aj).
Qed.

End State.

End Tree.

(** ** The skip-list *)

Lemma skip_head_alive M alive nxt prv cur e :
  skip_inv M alive nxt prv cur → alive e = true →
  cur ≤ e ∧ cur < M ∧ alive cur = true.
Proof.
  intros (_ & _ & Hr & Hc & Hbelow & Hcur & _) He.
  pose proof (Hr e He).
  assert (cur ≤ e) as Hle.
  { destruct (Z.le_gt_cases cur e); [done|]. rewrite Hbelow in He; [done | lia]. }
  split; [done|]. split; [lia|]. apply Hcur. lia.
Qed.

(** Taking the first edge out of the skip-list. *)
Lemma skip_remove_head M alive nxt prv cur :
  skip_inv M alive nxt prv cur → alive cur = true →
  ∃ nx, vget nxt cur = Ok nx ∧ cur < nx ≤ M ∧
    (nx < M → alive nx = true) ∧
    skip_inv M (without alive cur) nxt prv nx.
Proof.
  intros (Hl1 & Hl2 & Hr & Hc & Hbelow & Hcur & Hnx & Hpv) Ac.
  destruct (Hnx cur Ac) as (nx & Enx & Hnxr & Hgap & Anx).
  exists nx. split; [done|]. split; [lia|]. split; [done|].
  unfold without. split; [done|]. split; [done|]. split.
  { intros j [Aj _]%andb_true_iff. by apply Hr. }
  split; [lia|]. split.
  { intros j Hj. destruct (Z.eqb_spec j cur) as [->|Hne]; [by rewrite andb_false_r|].
    rewrite andb_true_r. destruct (Z.lt_ge_cases j cur); [apply Hbelow; lia|].
    apply Hgap. lia. }
  split.
  { intros Hlt. rewrite Anx by done. apply andb_true_iff. split; [done|].
    apply negb_true_iff, Z.eqb_neq. lia. }
  split.
  - intros e [Ae Hne%negb_true_iff%Z.eqb_neq]%andb_true_iff.
    destruct (Hnx e Ae) as (e' & Ee & He' & Hg & Ae').
    exists e'. split; [done|]. split; [done|]. split.
    + intros j Hj. by rewrite Hg.
    + intros Hlt. rewrite Ae' by done.
      assert (cur ≤ e) by (destruct (Z.le_gt_cases cur e); [done|];
                            rewrite Hbelow in Ae; [done | lia]).
      apply andb_true_iff. split; [done|]. apply negb_true_iff, Z.eqb_neq. lia.
  - intros e [Ae Hne%negb_true_iff%Z.eqb_neq]%andb_true_iff Hlt.
    destruct (Hpv e Ae ltac:(lia)) as (e' & Ee & He' & Ae' & Hg).
    assert (nx ≤ e') as Hle.
    { destruct (Z.le_gt_cases nx e'); [done|].
      pose proof (Hr e Ae). rewrite Hg in Anx; [discriminate Anx; lia | lia].
      }
    exists e'. split; [done|]. split; [lia|]. split.
    + rewrite Ae'. apply andb_true_iff. split; [done|].
      apply negb_true_iff, Z.eqb_neq. lia.
    + intros j Hj. by rewrite Hg.
Qed.

(** Taking another edge out of the skip-list. *)
Lemma skip_remove_inner M alive nxt prv cur e :
  skip_inv M alive nxt prv cur → alive e = true → e ≠ cur →
  ∃ p q, vget prv e = Ok p ∧ vget nxt e = Ok q ∧
    vset nxt p q = Ok (upd nxt p q) ∧ vset prv q p = Ok (upd prv q p) ∧
    cur < e < q ∧ q ≤ M ∧ (q < M → alive q = true) ∧
    (∀ j, e < j < q → alive j = false) ∧
    skip_inv M (without alive e) (upd nxt p q) (upd prv q p) cur.
Proof.
  intros Hsk Ae Hne. pose proof Hsk as (Hl1 & Hl2 & Hr & Hc & Hbelow & Hcur & Hnx & Hpv).
  destruct (skip_head_alive _ _ _ _ _ _ Hsk Ae) as (Hle & HcM & Ac).
  destruct (Hpv e Ae ltac:(lia)) as (p & Ep & Hp & Ap & Gp).
  destruct (Hnx e Ae) as (q & Eq & Hq & Gq & Aq).
  pose proof (Hr e Ae) as He. pose proof (Hr p Ap) as Hpr.
  exists p, q. split; [done|]. split; [done|].
  split; [apply vset_total; lia|]. split; [apply vset_total; lia|].
  split; [lia|]. split; [lia|]. split; [done|]. split; [done|].
  unfold without.
  split; [rewrite length_upd; lia|]. split; [rewrite length_upd; lia|]. split.
  { intros j [Aj _]%andb_true_iff. by apply Hr. }
  split; [lia|]. split.
  { intros j Hj. by rewrite Hbelow. }
  split.
  { intros _. rewrite Ac. apply andb_true_iff. split; [done|].
    apply negb_true_iff, Z.eqb_neq. lia. }
  assert (∀ j, p < j < q → alive j && negb (j =? e) = false) as Gpq.
  { intros j Hj. destruct (Z.eqb_spec j e) as [->|Hje]; [by rewrite andb_false_r|].
    rewrite andb_true_r. destruct (Z.lt_ge_cases j e); [apply Gp | apply Gq]; lia. }
  assert (q < M → alive q && negb (q =? e) = true) as Aq'.
  { intros Hlt. rewrite Aq by done. apply andb_true_iff. split; [done|].
    apply negb_true_iff, Z.eqb_neq. lia. }
  assert (alive p && negb (p =? e) = true) as Ap'.
  { rewrite Ap. apply andb_true_iff. split; [done|].
    apply negb_true_iff, Z.eqb_neq. lia. }
  split.
  - intros x [Ax Hxe%negb_true_iff%Z.eqb_neq]%andb_true_iff.
    pose proof (Hr x Ax) as Hx.
    destruct (decide (x = p)) as [->|Hxp].
    + exists q. rewrite vget_upd_eq by lia. split; [done|]. split; [lia|]. done.
    + destruct (Hnx x Ax) as (x' & Ex & Hx' & Gx & Ax').
      exists x'. rewrite vget_upd_ne by (done || lia). split; [done|].
      split; [done|]. split; [intros j Hj; by rewrite Gx|].
      intros Hlt. rewrite Ax' by done. apply andb_true_iff. split; [done|].
      apply negb_true_iff, Z.eqb_neq. intros ->.
      destruct (Z.lt_trichotomy x p) as [Hlt'|[Heq|Hgt]]; [|done|].
      * rewrite Gx in Ap; [done | lia].
      * rewrite Gp in Ax; [done | lia].
  - intros x [Ax Hxe%negb_true_iff%Z.eqb_neq]%andb_true_iff Hcx.
    pose proof (Hr x Ax) as Hx.
    destruct (decide (x = q)) as [->|Hxq].
    + exists p. rewrite vget_upd_eq by lia. split; [done|]. split; [lia|]. done.
    + destruct (Hpv x Ax Hcx) as (x' & Ex & Hx' & Ax' & Gx).
      exists x'. rewrite vget_upd_ne by (done || lia). split; [done|].
      split; [done|]. split; [|intros j Hj; by rewrite Gx].
      rewrite Ax'. apply andb_true_iff. split; [done|].
      apply negb_true_iff, Z.eqb_neq. intros ->.
      destruct (Z.lt_trichotomy x q) as [Hlt'|[Heq|Hgt]]; [|done|].
      * rewrite Gq in Ax; [done | lia].
      * rewrite Gx in Aq; [discriminate Aq; lia | lia].
Qed.

(** ** One iteration of the driver *)

Section Driver.
Context {T : Type}.
Implicit Type g : @CGenie T.
Variables (ind dir : list Z) (K : Z → bool) (M N : Z).
Hypothesis K_range : ∀ j, K j = true → 0 ≤ j < M.
Hypothesis K_edges : ∀ j, K j = true →
  ∃ u v a b, edge_u ind j = Ok u ∧ edge_v ind j = Ok v ∧
    vget dir u = Ok a ∧ vget dir v = Ok b ∧ 0 ≤ a < N ∧ 0 ≤ b < N.
Hypothesis K_joins : ∀ f : Z → Z,
  (∀ j, K j = true → f (elem_u ind dir j) = f (elem_v ind dir j)) →
  ∀ x y, 0 ≤ x < N → 0 ≤ y < N → f x = f y.

Lemma K_reads j :
  K j = true →
  ∃ u v, edge_u ind j = Ok u ∧ edge_v ind j = Ok v ∧
    vget dir u = Ok (elem_u ind dir j) ∧ vget dir v = Ok (elem_v ind dir j) ∧
    0 ≤ elem_u ind dir j < N ∧ 0 ≤ elem_v ind dir j < N.
Proof.
  intros Kj. destruct (K_edges j Kj) as (u & v & a & b & Eu & Ev & Ea & Eb & Ha & Hb).
  exists u, v. unfold elem_u, elem_v. rewrite Eu, Ev, Ea, Eb. done.
Qed.

Lemma K_elems j :
  K j = true → 0 ≤ elem_u ind dir j < N ∧ 0 ≤ elem_v ind dir j < N.
Proof. intros Kj. destruct (K_reads j Kj) as (u & v & _ & _ & _ & _ & ? & ?). done. Qed.

(** The sizes that the walk reads at an edge of the tree. *)
Lemma count_of_edge g j :
  mst_i g = ind → denoise_index_rev g = dir → DisjointSets.n (ds g) = N →
  K j = true →
  ∃ u v, edge_u (mst_i g) j = Ok u ∧ edge_v (mst_i g) j = Ok v ∧
    count_of g u = Ok (set_size (ds g) (elem_u ind dir j)) ∧
    count_of g v = Ok (set_size (ds g) (elem_v ind dir j)).
Proof.
  intros Hind Hdir Hn Kj.
  destruct (K_reads j Kj) as (u & v & Eu & Ev & Ea & Eb & Ha & Hb).
  exists u, v. rewrite Hind. split; [done|]. split; [done|].
  unfold count_of. rewrite Hdir, Ea, Eb. cbn [bind].
  rewrite !SizeFacts.get_count_set_size by lia. done.
Qed.

(** The walk of the Genie branch comes back with the first edge of the
    skip-list, from its start on, that touches a set of size [m]. *)
Lemma genie_walk_finds g alive m (fuel : nat) s e :
  mst_i g = ind → denoise_index_rev g = dir → DisjointSets.n (ds g) = N →
  (∀ j, alive j = true → K j = true) →
  skip_inv M alive (next_edge g) (prev_edge g) (curidx g) →
  alive s = true → alive e = true → s ≤ e →
  (set_size (ds g) (elem_u ind dir e) = m ∨
   set_size (ds g) (elem_v ind dir e) = m) →
  e - s < Z.of_nat fuel →
  ∃ e1, genie_walk fuel g m s = Ok e1 ∧ s ≤ e1 ≤ e ∧ alive e1 = true ∧
    (set_size (ds g) (elem_u ind dir e1) = m ∨
     set_size (ds g) (elem_v ind dir e1) = m) ∧
    ∀ j, alive j = true → s ≤ j < e1 →
      set_size (ds g) (elem_u ind dir j) ≠ m ∧
      set_size (ds g) (elem_v ind dir j) ≠ m.
Proof.
  intros Hind Hdir Hn Hsub Hsk. revert s.
  induction fuel as [|f IH]; intros s As Ae Hse Hm Hfuel; [lia|].
  pose proof Hsk as (_ & _ & Hr & _ & _ & _ & Hnx & _).
  destruct (count_of_edge g s Hind Hdir Hn (Hsub s As))
    as (u & v & Eu & Ev & Cu & Cv).
  cbn [genie_walk]. rewrite Eu. cbn [bind]. rewrite Cu. cbn [bind].
  destruct (Z.eqb_spec (set_size (ds g) (elem_u ind dir s)) m) as [Hu|Hu];
    cbn [negb].
  { exists s. split; [done|]. split; [lia|]. split; [done|]. split; [by left|].
    intros j _ Hj. lia. }
  rewrite Ev. cbn [bind]. rewrite Cv. cbn [bind].
  destruct (Z.eqb_spec (set_size (ds g) (elem_v ind dir s)) m) as [Hv|Hv];
    cbn [negb].
  { exists s. split; [done|]. split; [lia|]. split; [done|]. split; [by right|].
    intros j _ Hj. lia. }
  destruct (Hnx s As) as (nx & Enx & Hnxr & Gnx & Anx).
  rewrite Enx. cbn [bind].
  assert (s ≠ e) as Hne by (intros ->; destruct Hm; done).
  assert (nx ≤ e) as Hle.
  { destruct (Z.le_gt_cases nx e); [done|]. rewrite Gnx in Ae; [done | lia]. }
  pose proof (Hr e Ae) as He.
  destruct (IH nx (Anx ltac:(lia)) Ae Hle Hm ltac:(lia))
    as (e1 & Hw & He1 & Ae1 & Hm1 & Hbefore).
  exists e1. split; [done|]. split; [lia|]. split; [done|]. split; [done|].
  intros j Aj Hj. destruct (decide (j = s)) as [->|Hjs]; [done|].
  destruct (Z.lt_ge_cases j nx).
  - rewrite Gnx in Aj; [done | lia].
  - apply Hbefore; [done | lia].
Qed.

(** The union of the endpoints of an edge of the skip-list, and what it
    leaves of the driver's knowledge of the sizes. *)
Lemma merge_edge_alive g alive i e u v lastm :
  denoise_index_rev g = dir →
  tree_state K (elem_u ind dir) (elem_v ind dir) M N (ds g) alive i →
  0 ≤ i < N - 1 → alive e = true →
  vget dir u = Ok (elem_u ind dir e) → vget dir v = Ok (elem_v ind dir e) →
  (∀ x, 0 ≤ x < N → lastm ≤ set_size (ds g) x) →
  ∃ d', merge_edge g u v = Ok (set_ds g d') ∧
    tree_state K (elem_u ind dir) (elem_v ind dir) M N d' (without alive e) (i + 1) ∧
    (∀ x, 0 ≤ x < N → lastm ≤ set_size d' x) ∧
    (∀ j, K j = true →
       set_size (ds g) (elem_u ind dir j) ≠ lastm ∧
       set_size (ds g) (elem_v ind dir j) ≠ lastm →
       set_size d' (elem_u ind dir j) ≠ lastm ∧
       set_size d' (elem_v ind dir j) ≠ lastm).
Proof.
  intros Hdir Hst Hi Ae Ea Eb Hlow.
  destruct (tree_state_merge K _ _ M N K_range K_elems K_joins _ _ _ Hst Hi e Ae)
    as (d' & r & Hm & Hst').
  destruct Hst as (Hwf & Hn & _ & Hsub & _).
  destruct (K_elems e (Hsub e Ae)) as [Ha Hb].
  exists d'. unfold merge_edge. rewrite Hdir, Ea, Eb. cbn [bind].
  unfold GiniDisjointSets.merge. rewrite Hm. split; [done|]. split; [done|]. split.
  - intros x Hx. pose proof (Hlow x Hx).
    pose proof (SizeFacts.set_size_merge_le _ _ _ _ _ x Hwf Hm ltac:(lia)). lia.
  - intros j Kj [H1 H2].
    split; apply (SizeFacts.set_size_merge_ne _ _ _ _ _ _ _ Hwf Hm);
      (done || by apply Hlow).
Qed.

(** The single-linkage branch consumes the first edge of the skip-list. *)
Lemma single_linkage_step g lastm i :
  genie_inv ind dir K M N g lastm i → 0 ≤ i < N - 1 →
  ∃ i1 i2 g1 g2,
    single_linkage_branch g lastm = Ok (i1, i2, g1, lastm) ∧
    merge_edge g1 i1 i2 = Ok g2 ∧
    genie_inv ind dir K M N g2 lastm (i + 1).
Proof.
  intros (Hind & Hdir & alive & Hst & Hsk & Hlow & Hlast) Hi.
  pose proof Hst as (Hwf & Hn & Hsets & Hsub & Hcnt & Hdead).
  destruct (count_range_exists alive 0 M ltac:(lia)) as (e0 & He0 & Ae0).
  destruct (skip_head_alive _ _ _ _ _ _ Hsk Ae0) as (_ & HcM & Ac).
  destruct (skip_remove_head _ _ _ _ _ Hsk Ac) as (nx & Enx & Hnx & Anx & Hsk').
  destruct (K_reads _ (Hsub _ Ac)) as (u & v & Eu & Ev & Ea & Eb & Ha & Hb).
  set (g1 := set_skiplist g (next_edge g) (prev_edge g) nx (lastidx g)).
  destruct (merge_edge_alive g1 alive i (curidx g) u v lastm Hdir Hst Hi Ac Ea Eb Hlow)
    as (d' & Hm & Hst' & Hlow' & Hkeep).
  exists u, v, g1, (set_ds g1 d'). split.
  { unfold single_linkage_branch. rewrite Hind, Eu, Ev. cbn [bind].
    rewrite Enx. done. }
  split; [done|].
  split; [done|]. split; [done|]. exists (without alive (curidx g)).
  cbn [ds next_edge prev_edge curidx lastidx set_ds set_skiplist g1].
  split; [done|]. split; [done|]. split; [done|].
  destruct (Z.lt_ge_cases (lastidx g) nx) as [|Hge]; [by left|]. right.
  destruct Hlast as [|(HlM & Al & Hbefore)]; [lia|].
  split; [done|]. split.
  { intros Hlt. unfold without. rewrite Al by done.
    apply andb_true_iff. split; [done|]. apply negb_true_iff, Z.eqb_neq. lia. }
  intros j [Aj _]%andb_true_iff Hj. apply Hkeep; [by apply Hsub|].
  by apply Hbefore.
Qed.

(** The Genie branch finds an edge at a set of the smallest size, takes
    it out of the skip-list and merges its endpoints. *)
Lemma genie_step g lastm i :
  genie_inv ind dir K M N g lastm i → 0 ≤ i < N - 1 →
  ∃ e i1 i2 g1 g2,
    K e = true ∧ edge_u ind e = Ok i1 ∧ edge_v ind e = Ok i2 ∧
    genie_branch g lastm
      = Ok (i1, i2, g1, GiniDisjointSets.get_smallest_count (ds g)) ∧
    merge_edge g1 i1 i2 = Ok g2 ∧
    genie_inv ind dir K M N g2 (GiniDisjointSets.get_smallest_count (ds g)) (i + 1).
Proof.
  intros (Hind & Hdir & alive & Hst & Hsk & Hlow & Hlast) Hi.
  pose proof Hst as (Hwf & Hn & Hsets & Hsub & Hcnt & Hdead).
  pose proof Hsk as (Hl1 & Hl2 & Hr & Hc & Hbelow & Hcur & Hnxt & Hprv).
  set (m := GiniDisjointSets.get_smallest_count (ds g)).
  assert (∀ x, 0 ≤ x < N → m ≤ set_size (ds g) x) as Hmin.
  { intros x Hx. apply SizeFacts.get_smallest_count_le_size; [done | lia]. }
  destruct (alive_edge_at_smallest_set K _ _ M N K_range K_joins _ _ _ Hst Hi)
    as (e & Ae & Hm). fold m in Hm.
  destruct (skip_head_alive _ _ _ _ _ _ Hsk Ae) as (Hce & HcM & Ac).
  set (s := if negb (m =? lastm) || (lastidx g <? curidx g) then curidx g
            else lastidx g).
  assert (s ≤ M ∧ (s < M → alive s = true) ∧
          ∀ j, alive j = true → j < s →
            set_size (ds g) (elem_u ind dir j) ≠ m ∧
            set_size (ds g) (elem_v ind dir j) ≠ m) as (HsM & As & Hbefore).
  { unfold s. destruct (Z.eqb_spec m lastm) as [Hml|]; cbn [negb orb].
    2:{ split; [lia|]. split; [done|]. intros j Aj Hj.
        rewrite Hbelow in Aj; [done | lia]. }
    destruct (Z.ltb_spec (lastidx g) (curidx g)).
    { split; [lia|]. split; [done|]. intros j Aj Hj.
      rewrite Hbelow in Aj; [done | lia]. }
    destruct Hlast as [|(HlM & Al & Hb)]; [lia|]. rewrite Hml.
    split; [done|]. split; [done|]. done. }
  assert (s ≤ e) as Hse.
  { destruct (Z.le_gt_cases s e); [done|].
    destruct (Hbefore e Ae ltac:(lia)) as [H1 H2]. destruct Hm; done. }
  pose proof (Hr e Ae) as He.
  specialize (As ltac:(lia)). pose proof (Hr s As) as Hs.
  destruct (genie_walk_finds g alive m (S (length (next_edge g))) s e
              Hind Hdir Hn Hsub Hsk As Ae Hse Hm ltac:(lia))
    as (e1 & Hwalk & He1 & Ae1 & Hm1 & Hwalked).
  assert (∀ j, alive j = true → j < e1 →
            set_size (ds g) (elem_u ind dir j) ≠ m ∧
            set_size (ds g) (elem_v ind dir j) ≠ m) as Hbefore1.
  { intros j Aj Hj. destruct (Z.lt_ge_cases j s); [by apply Hbefore|].
    apply Hwalked; [done | lia]. }
  destruct (K_reads _ (Hsub _ Ae1)) as (u & v & Eu & Ev & Ea & Eb & Ha & Hb).
  exists e1, u, v. pose proof (Hsub _ Ae1) as Ke1.
  unfold genie_branch. fold m. fold s. rewrite Hwalk. cbn [bind].
  rewrite Hind, Eu, Ev. cbn [bind].
  destruct (Z.eqb_spec e1 (curidx g)) as [->|Hne].
  - destruct (skip_remove_head _ _ _ _ _ Hsk Ac) as (nx & Enx & Hnx & Anx & Hsk').
    rewrite Enx. cbn [bind].
    set (g1 := set_skiplist g (next_edge g) (prev_edge g) nx nx).
    destruct (merge_edge_alive g1 alive i (curidx g) u v m Hdir Hst Hi Ac Ea Eb Hmin)
      as (d' & Hmerge & Hst' & Hlow' & Hkeep).
    exists g1, (set_ds g1 d'). repeat (split; [done|]).
    exists (without alive (curidx g)).
    cbn [ds next_edge prev_edge curidx lastidx set_ds set_skiplist g1].
    split; [done|]. split; [done|]. split; [done|]. right.
    split; [lia|]. split.
    { intros Hlt. unfold without. rewrite Anx by done.
      apply andb_true_iff. split; [done|]. apply negb_true_iff, Z.eqb_neq. lia. }
    intros j Aj Hj. destruct Hsk' as (_ & _ & _ & _ & Hbelow' & _).
    rewrite Hbelow' in Aj; [done | lia].
  - destruct (skip_remove_inner _ _ _ _ _ _ Hsk Ae1 Hne)
      as (p & q & Ep & Eq & Sn & Sp & Hq & HqM & Aq & Gq & Hsk').
    rewrite Ep. cbn [bind]. rewrite Eq. cbn [bind]. rewrite Sn. cbn [bind].
    rewrite Sp. cbn [bind].
    set (g1 := set_skiplist g (upd (next_edge g) p q) (upd (prev_edge g) q p)
                 (curidx g) q).
    destruct (merge_edge_alive g1 alive i e1 u v m Hdir Hst Hi Ae1 Ea Eb Hmin)
      as (d' & Hmerge & Hst' & Hlow' & Hkeep).
    exists g1, (set_ds g1 d'). repeat (split; [done|]).
    exists (without alive e1).
    cbn [ds next_edge prev_edge curidx lastidx set_ds set_skiplist g1].
    split; [done|]. split; [done|]. split; [done|]. right.
    split; [done|]. split.
    { intros Hlt. unfold without. rewrite Aq by done.
      apply andb_true_iff. split; [done|]. apply negb_true_iff, Z.eqb_neq. lia. }
    intros j [Aj Hje%negb_true_iff%Z.eqb_neq]%andb_true_iff Hj.
    apply Hkeep; [by apply Hsub|]. apply Hbefore1; [done|].
    destruct (Z.lt_ge_cases j e1); [done|]. rewrite Gq in Aj; [done | lia].
Qed.

(** Every iteration of the loop of [do_genie] on a tree completes and
    keeps the invariant. *)
Lemma genie_iteration_total g lastm i th :
  genie_inv ind dir K M N g lastm i → 0 ≤ i < N - 1 →
  ∃ g2 lastm2, genie_iteration th (g, lastm) = Ok (g2, lastm2) ∧
    genie_inv ind dir K M N g2 lastm2 (i + 1).
Proof.
  intros Hinv Hi. unfold genie_iteration.
  destruct (Qgt_bool _ _).
  - destruct (genie_step g lastm i Hinv Hi)
      as (e & i1 & i2 & g1 & g2 & _ & _ & _ & -> & Hm & Hinv').
    cbn [bind]. rewrite Hm. cbn [bind]. eauto.
  - destruct (single_linkage_step g lastm i Hinv Hi)
      as (i1 & i2 & g1 & g2 & -> & Hm & Hinv').
    cbn [bind]. rewrite Hm. cbn [bind]. eauto.
Qed.

(** The loop of [do_genie] on a tree comes back after any number of
    iterations that leaves two sets or more to merge. *)
Lemma genie_loop_total g lastm th i :
  genie_inv ind dir K M N g lastm 0 → 0 ≤ i ≤ N - 1 →
  ∃ gi lastmi,
    for_range 0 i (λ _ st, genie_iteration th st) (g, lastm) = Ok (gi, lastmi) ∧
    genie_inv ind dir K M N gi lastmi i.
Proof.
  intros Hinv Hi.
  destruct (for_range_inv
    (λ j (st : CGenie * Z), genie_inv ind dir K M N st.1 st.2 j)
    0 i (λ _ st, genie_iteration th st) (g, lastm))
    as ([gi lastmi] & Hloop & Hinv'); [lia | done | | by eauto].
  intros j [g0 l0] Hj Hinv0. cbn [fst snd] in *.
  destruct (genie_iteration_total g0 l0 j th Hinv0 ltac:(lia))
    as (g2 & l2 & Hit & Hinv2).
  exists (g2, l2). done.
Qed.

End Driver.

(** ** The tree of a constructed engine *)

Lemma tree_edge_true nl dg ind n j :
  tree_edge nl dg ind n j = true ↔ 0 ≤ j < n - 1 ∧ kept_edge nl dg ind j = true.
Proof.
  unfold tree_edge. rewrite !andb_true_iff, Z.leb_le, Z.ltb_lt. tauto.
Qed.

Section Engine.
Context {T : Type} (T_gt : T → T → bool).
Implicit Type g : @CGenie T.

(** [skiplist_init] on a constructed engine threads the kept edges. *)
Lemma skiplist_init_skip_inv g :
  1 ≤ n g → edges_in_range (mst_i g) (n g) →
  Z.of_nat (length (deg g)) = n g →
  Z.of_nat (length (next_edge g)) = n g →
  Z.of_nat (length (prev_edge g)) = n g →
  (∃ e, tree_edge (noise_leaves g) (deg g) (mst_i g) (n g) e = true) →
  ∃ g1, skiplist_init g = Ok g1 ∧ lastidx g1 = curidx g1 ∧
    skip_inv (n g - 1) (tree_edge (noise_leaves g) (deg g) (mst_i g) (n g))
      (next_edge g1) (prev_edge g1) (curidx g1).
Proof.
  intros Hn He Hdeg Hnx Hpv (e0 & [He0 Ke0]%tree_edge_true).
  unfold skiplist_init. destruct (noise_leaves g) eqn:Enl.
  - cbn [kept_edge] in Ke0.
    destruct (skiplist_noise_loop_links g Hn He Hdeg Hnx Hpv)
      as (cur & last & nxt & prv & Hloop & Hl & Hcase).
    assert (Z.of_nat (length prv) = n g) as Hlp.
    { unfold skiplist_noise_loop, for_range in Hloop.
      apply (for_count_preserves
        (λ st : Z * Z * list Z * list Z, Z.of_nat (length st.2) = n g)) in Hloop;
        [done | | done].
      intros i [[[c0 l0] n0] p0] [[[c1 l1] n1] p1] Hstep Hlen. cbn [snd] in *.
      apply bind_Ok in Hstep as (i1 & _ & (i2 & _ & (d1 & _ & (both & _ & Hstep)
        %bind_Ok)%bind_Ok)%bind_Ok).
      destruct both; [|by injection Hstep as <- <- <- <-].
      destruct (c0 <? 0).
      - apply bind_Ok in Hstep as (p' & [_ ->]%vset_Ok & [= <- <- <- <-]).
        by rewrite length_upd.
      - apply bind_Ok in Hstep as (n' & _ & (p' & [_ ->]%vset_Ok & [= <- <- <- <-])
          %bind_Ok). by rewrite length_upd. }
    destruct Hcase as [(_ & _ & Hgap)|
      (Hc & Hlast & Icur & Ilast & G0 & G1 & Pcur & Hnxt & Hprv)].
    { rewrite Hgap in Ke0; [done | lia]. }
    rewrite Hloop. cbn [bind]. rewrite vset_total by lia. cbn [bind].
    eexists. split; [done|]. cbn [lastidx curidx next_edge prev_edge set_skiplist].
    split; [done|].
    assert (∀ j, tree_edge true (deg g) (mst_i g) (n g) j = true →
              cur ≤ j ≤ last ∧ inner_edge (deg g) (mst_i g) j = true) as Hin.
    { intros j [Hj Kj]%tree_edge_true. cbn [kept_edge] in Kj. split; [|done]. split.
      - destruct (Z.le_gt_cases cur j); [done|]. rewrite G0 in Kj; [done | lia].
      - destruct (Z.le_gt_cases j last); [done|]. rewrite G1 in Kj; [done | lia]. }
    assert (∀ j, 0 ≤ j < n g - 1 → inner_edge (deg g) (mst_i g) j = true →
              tree_edge true (deg g) (mst_i g) (n g) j = true) as Hout.
    { intros j Hj Ij. by apply tree_edge_true. }
    assert (∀ j, inner_edge (deg g) (mst_i g) j = false →
              tree_edge true (deg g) (mst_i g) (n g) j = false) as Hno.
    { intros j Ij. unfold tree_edge. cbn [kept_edge]. rewrite Ij.
      by rewrite andb_false_r. }
    split; [rewrite length_upd; lia|]. split; [lia|]. split.
    { intros j [Hj _]%tree_edge_true. done. }
    split; [lia|]. split.
    { intros j Hj. destruct (Z.lt_ge_cases j 0).
      - unfold tree_edge. destruct (Z.leb_spec 0 j); [lia | done].
      - apply Hno, G0. lia. }
    split; [intros _; apply Hout; [lia | done]|]. split.
    + intros e [Hel Ie]%Hin. destruct (decide (e = last)) as [->|Hne].
      * exists (n g - 1). rewrite vget_upd_eq by lia.
        split; [done|]. split; [lia|]. split; [|lia].
        intros j Hj. apply Hno, G1. lia.
      * destruct (Hnxt e ltac:(lia) Ie) as (e' & E' & He' & Ie' & Ge').
        exists e'. rewrite vget_upd_ne by lia. split; [done|]. split; [lia|].
        split; [intros j Hj; apply Hno, Ge'; lia|].
        intros _. apply Hout; [lia | done].
    + intros e [Hel Ie]%Hin Hlt.
      destruct (Hprv e ltac:(lia) Ie) as (e' & E' & He' & Ie' & Ge').
      exists e'. split; [done|]. split; [done|].
      split; [apply Hout; [lia | done]|].
      intros j Hj. apply Hno, Ge'. lia.
  - destruct (skiplist_chain_loop_spec g ltac:(lia) Hnx Hpv)
      as (nxt & prv & Hloop & Hl1 & Hl2 & Hv & _).
    rewrite Hloop. cbn [bind]. eexists. split; [done|].
    cbn [lastidx curidx next_edge prev_edge set_skiplist]. split; [done|].
    assert (∀ j, tree_edge false (deg g) (mst_i g) (n g) j = true ↔ 0 ≤ j < n g - 1)
      as Hk.
    { intros j. rewrite tree_edge_true. cbn [kept_edge]. tauto. }
    assert (∀ j, ¬ 0 ≤ j < n g - 1 →
              tree_edge false (deg g) (mst_i g) (n g) j = false) as Hno.
    { intros j Hj. destruct (tree_edge _ _ _ _ j) eqn:E; [|done].
      apply Hk in E. lia. }
    split; [lia|]. split; [lia|]. split; [by intros j ?%Hk|].
    split; [lia|]. split; [intros j Hj; apply Hno; lia|].
    split; [intros Hlt; apply Hk; lia|]. split.
    + intros e He'%Hk. exists (e + 1). destruct (Hv e He') as [-> _].
      split; [done|]. split; [lia|]. split; [intros j Hj; lia|].
      intros Hlt. apply Hk. lia.
    + intros e He'%Hk Hlt. exists (e - 1). destruct (Hv e He') as [_ ->].
      split; [done|]. split; [lia|]. split; [apply Hk; lia|]. intros j Hj. lia.
Qed.

End Engine.

(** The pair that an iteration in the Genie branch merges. *)
Lemma genie_iteration_smallest {T : Type} (g g2 : @CGenie T)
    (gini_threshold : Q) (lastm lastm2 : Z) :
  DisjointSets.wf (ds g) →
  Qgt_bool (GiniDisjointSets.get_gini (ds g)) gini_threshold = true →
  genie_iteration gini_threshold (g, lastm) = Ok (g2, lastm2) →
  ∃ i1 i2 g1 a b ca cb r,
    genie_branch g lastm = Ok (i1, i2, g1, lastm2) ∧
    vget (denoise_index_rev g) i1 = Ok a ∧
    vget (denoise_index_rev g) i2 = Ok b ∧
    GiniDisjointSets.merge (ds g) a b = (ds g2, Ok r) ∧
    GiniDisjointSets.get_count (ds g) a = Ok ca ∧
    GiniDisjointSets.get_count (ds g) b = Ok cb ∧
    Z.min ca cb = GiniDisjointSets.get_smallest_count (ds g) ∧
    lastm2 = GiniDisjointSets.get_smallest_count (ds g).
Proof.
  intros Hwf Hgini. unfold genie_iteration. rewrite Hgini.
  intros ([[[i1 i2] g1] m] & Hb & (g' & Hm & [= <- <-])%bind_Ok)%bind_Ok.
  destruct (genie_branch_inv _ _ _ _ _ _ Hb) as (Hsm & Hds & Hrev & _ & Hc).
  unfold merge_edge in Hm. rewrite Hrev, Hds in Hm.
  apply bind_Ok in Hm as (a & Ea & (b & Eb & Hm)%bind_Ok).
  destruct (GiniDisjointSets.merge (ds g) a b) as [d [r|]] eqn:Emerge; [|done].
  injection Hm as <-.
  destruct (DisjointSetsFacts.merge_Ok_inv _ _ _ _ _ Hwf Emerge) as (Ha & Hb' & _).
  pose proof (GiniFacts.get_count_total (ds g) a Ha) as Ca.
  pose proof (GiniFacts.get_count_total (ds g) b Hb') as Cb.
  pose proof (GiniFacts.get_smallest_count_le _ _ _ Hwf Ca) as La.
  pose proof (GiniFacts.get_smallest_count_le _ _ _ Hwf Cb) as Lb.
  exists i1, i2, g1, a, b. eexists _, _, r.
  repeat (split; [done|]). split; [|done].
  unfold count_of in Hc. rewrite Ea, Eb in Hc. cbn [bind] in Hc.
  rewrite Ca, Cb, Hsm in Hc. destruct Hc as [[= Hc]|[= Hc]]; lia.
Qed.

Module TreeFacts.
Import DisjointSets DisjointSetsFacts DisjointSetsMore SizeFacts.

(** With one set, any two elements have the same root. *)
Lemma set_count_1_roots d x y :
  wf d → set_count d ≤ 1 →
  0 ≤ x < DisjointSets.n d → 0 ≤ y < DisjointSets.n d →
  root (par d) x = root (par d) y.
Proof.
  intros [Hlen Hw] Hone Hx Hy.
  pose proof (root_bounds (par d) x Hw ltac:(lia)) as Bx.
  pose proof (root_bounds (par d) y Hw ltac:(lia)) as By.
  destruct (decide (root (par d) x = root (par d) y)) as [|Hne]; [done|].
  exfalso. unfold set_count in Hone.
  pose proof (count_range_remove (λ r, root (par d) r =? r) 0 (DisjointSets.n d)
                (root (par d) x) ltac:(lia)) as Hrem.
  destruct (decide (0 ≤ root (par d) x < 0 + DisjointSets.n d)); [|lia].
  rewrite root_root, Z.eqb_refl in Hrem by (done || lia).
  pose proof (count_range_pos
    (λ i, (root (par d) i =? i) && negb (i =? root (par d) x))
    0 (DisjointSets.n d) (root (par d) y) ltac:(lia)) as Hpos.
  cbn beta in Hpos. rewrite root_root, Z.eqb_refl in Hpos by (done || lia). cbn [andb] in Hpos.
  specialize (Hpos ltac:(apply negb_true_iff, Z.eqb_neq; congruence)). lia.
Qed.

(** Merging the edges of a forest in their order never fails. *)
Lemma all_edges_partition ind n0 (m : nat) :
  1 ≤ n0 → edges_in_range ind n0 → forest ind n0 → Z.of_nat m ≤ n0 - 1 →
  ∃ d, partition_of ind (Z.of_nat m) d n0 ∧ set_count d = n0 - Z.of_nat m.
Proof.
  intros Hn He Hf. induction m as [|m IH]; intros Hm.
  - exists (new n0). split; [apply partition_new; lia|].
    rewrite SetCount.set_count_new by lia. lia.
  - destruct IH as (d & Hp & Hc); [lia|].
    destruct (He (Z.of_nat m) ltac:(lia)) as (u & v & Eu & Ev & _).
    destruct (partition_step ind n0 (Z.of_nat m) d u v He Hf ltac:(lia) Eu Ev Hp)
      as (d' & r & Hmerge & Hp').
    exists d'. replace (Z.of_nat (S m)) with (Z.of_nat m + 1) by lia.
    split; [done|]. destruct Hp as (Hwf & _).
    rewrite (SetCount.set_count_merge_Ok _ _ _ _ _ Hwf Hmerge). lia.
Qed.

(** The edges of a spanning tree join all the points: a function that
    agrees on the two ends of every edge is constant. *)
Lemma forest_joins ind n0 (f : Z → Z) :
  1 ≤ n0 → edges_in_range ind n0 → forest ind n0 →
  (∀ j u v, 0 ≤ j < n0 - 1 → edge_u ind j = Ok u → edge_v ind j = Ok v →
     f u = f v) →
  ∀ x y, 0 ≤ x < n0 → 0 ≤ y < n0 → f x = f y.
Proof.
  intros Hn He Hf Hedges x y Hx Hy.
  destruct (all_edges_partition ind n0 (Z.to_nat (n0 - 1)) Hn He Hf ltac:(lia))
    as (d & (Hwf & Hnd & _ & Hrc) & Hone).
  rewrite Z2Nat.id in Hrc, Hone by lia.
  apply (connected_respects f ind (n0 - 1)); [done|].
  apply Hrc; [done | done |].
  apply set_count_1_roots; [done | lia | lia | lia].
Qed.

(** An element that no attempted edge touches stays alone in its set. *)
Lemma merge_upto_untouched K ea eb N x (m : nat) :
  0 ≤ N →
  (∀ j, K j = true → 0 ≤ j < Z.of_nat m → ea j ≠ x ∧ eb j ≠ x) →
  let d' := merge_upto K ea eb (new N) m in
  wf d' ∧ root (par d') x = x ∧ ∀ z, root (par d') z = x → z = x.
Proof.
  intros HN. induction m as [|m IH]; intros Hfree.
  - cbn [merge_upto]. cbn zeta. split; [by apply wf_new|]. rewrite root_new.
    split; [done|]. intros z. by rewrite root_new.
  - cbn [merge_upto]. cbn zeta in IH.
    destruct IH as (Hwf & Hx & Honly); [intros j Kj Hj; apply Hfree; [done | lia]|].
    set (d1 := merge_upto K ea eb (new N) m) in *.
    destruct (K (Z.of_nat m)) eqn:Ek; [|done].
    destruct (Hfree _ Ek ltac:(lia)) as [Ha Hb].
    set (a := ea (Z.of_nat m)) in *. set (b := eb (Z.of_nat m)) in *.
    destruct (merge_cases d1 a b Hwf) as (Hwf' & _ & Hc).
    split; [done|].
    destruct Hc as [(_ & _ & _ & Hr)|[(_ & _ & _ & _ & _ & Hr)|
      (_ & _ & _ & _ & _ & Hr)]].
    + split; [by rewrite Hr|]. intros z. rewrite Hr. apply Honly.
    + split; [by rewrite Hr|]. intros z. rewrite Hr. apply Honly.
    + assert (root (par d1) a ≠ x) as Hra by (intros E; by apply Honly in E).
      assert (root (par d1) b ≠ x) as Hrb by (intros E; by apply Honly in E).
      split.
      * rewrite Hr, Hx. destruct (decide _); [lia | done].
      * intros z. rewrite Hr. destruct (decide _); [lia|]. apply Honly.
Qed.

Lemma tree_state_ext K ea eb M N d alive alive' i :
  (∀ j, alive j = alive' j) →
  tree_state K ea eb M N d alive i → tree_state K ea eb M N d alive' i.
Proof.
  intros Hext (Hwf & Hn & Hsets & Hsub & Hcnt & Hdead).
  split; [done|]. split; [done|]. split; [done|]. split.
  { intros j. rewrite <- Hext. apply Hsub. }
  split.
  { rewrite <- Hcnt. apply count_range_ext. intros j _. by rewrite Hext. }
  intros j Kj. rewrite <- Hext. by apply Hdead.
Qed.

End TreeFacts.

Section Leaves.
Import DisjointSets DisjointSetsFacts DisjointSetsMore SizeFacts TreeFacts.

Variables (ind dg : list Z) (n0 : Z).
Hypothesis Hn : 1 ≤ n0.
Hypothesis He : edges_in_range ind n0.
Hypothesis Hf : forest ind n0.
Hypothesis Hdeg :
  ∀ x, 0 ≤ x < n0 → vget dg x = Ok (incident_count ind x 0 (n0 - 1)).

Lemma edge_ends j :
  0 ≤ j < n0 - 1 →
  edge_u ind j = Ok (end_u ind j) ∧ edge_v ind j = Ok (end_v ind j) ∧
  0 ≤ end_u ind j < n0 ∧ 0 ≤ end_v ind j < n0 ∧ end_u ind j ≠ end_v ind j.
Proof.
  intros Hj. destruct (He j Hj) as (u & v & Eu & Ev & Hu & Hv & Hne).
  unfold end_u, end_v. rewrite Eu, Ev. done.
Qed.

Lemma edge_touches_ends j x :
  0 ≤ j < n0 - 1 →
  edge_touches ind x j = (end_u ind j =? x) || (end_v ind j =? x).
Proof.
  intros Hj. destruct (edge_ends j Hj) as (Eu & Ev & Hu & Hv & _).
  unfold edge_touches, edge_absent. rewrite Eu, Ev.
  destruct (Z.ltb_spec (end_u ind j) 0); [lia|].
  destruct (Z.ltb_spec (end_v ind j) 0); [lia|]. done.
Qed.

(** The end of an edge has a degree of 1 at least. *)
Lemma end_degree j x :
  0 ≤ j < n0 - 1 → edge_touches ind x j = true → 0 ≤ x < n0 →
  1 ≤ incident_count ind x 0 (n0 - 1).
Proof.
  intros Hj Ht Hx. apply (count_range_pos _ _ _ j); [lia | done].
Qed.

Lemma end_not_inner_is_leaf j x :
  0 ≤ j < n0 - 1 → edge_touches ind x j = true → 0 ≤ x < n0 →
  is_inner dg x = negb (is_leaf dg x).
Proof.
  intros Hj Ht Hx. pose proof (end_degree j x Hj Ht Hx).
  unfold is_inner, is_leaf. rewrite (Hdeg x Hx).
  destruct (Z.ltb_spec 1 (incident_count ind x 0 (n0 - 1))),
    (Z.eqb_spec (incident_count ind x 0 (n0 - 1)) 1); (done || lia).
Qed.

(** A leaf is at the end of one edge only. *)
Lemma leaf_one_edge x j j' :
  0 ≤ x < n0 → is_leaf dg x = true →
  0 ≤ j < n0 - 1 → 0 ≤ j' < n0 - 1 →
  edge_touches ind x j = true → edge_touches ind x j' = true → j = j'.
Proof.
  intros Hx Hl Hj Hj' Ht Ht'. unfold is_leaf in Hl. rewrite (Hdeg x Hx) in Hl.
  apply Z.eqb_eq in Hl. unfold incident_count in Hl.
  destruct (decide (j = j')) as [|Hne]; [done|]. exfalso.
  pose proof (count_range_remove (edge_touches ind x) 0 (n0 - 1) j ltac:(lia))
    as Hrem.
  destruct (decide (0 ≤ j < 0 + (n0 - 1))); [|lia]. rewrite Ht in Hrem.
  pose proof (count_range_pos (λ i, edge_touches ind x i && negb (i =? j))
    0 (n0 - 1) j' ltac:(lia)) as Hpos.
  cbn beta in Hpos. rewrite Ht' in Hpos. cbn [andb] in Hpos.
  specialize (Hpos ltac:(apply negb_true_iff, Z.eqb_neq; congruence)). lia.
Qed.

Lemma touching_finds x (m : nat) j :
  0 ≤ j < Z.of_nat m → edge_touches ind x j = true →
  ∃ j', touching ind x m = Some j' ∧ 0 ≤ j' < Z.of_nat m ∧
    edge_touches ind x j' = true.
Proof.
  induction m as [|m IH]; intros Hj Ht; [lia|]. cbn [touching].
  destruct (edge_touches ind x (Z.of_nat m)) eqn:E.
  - exists (Z.of_nat m). split; [done|]. split; [lia | done].
  - destruct IH as (j' & -> & Hj' & Ht'); [|done|].
    + destruct (decide (j = Z.of_nat m)) as [->|]; [congruence | lia].
    + exists j'. split; [done|]. split; [lia | done].
Qed.

Lemma touching_leaf x j :
  0 ≤ x < n0 → is_leaf dg x = true → 0 ≤ j < n0 - 1 →
  edge_touches ind x j = true →
  touching ind x (Z.to_nat (n0 - 1)) = Some j.
Proof.
  intros Hx Hl Hj Ht.
  destruct (touching_finds x (Z.to_nat (n0 - 1)) j ltac:(lia) Ht)
    as (j' & -> & Hj' & Ht').
  f_equal. apply (leaf_one_edge x); (done || lia).
Qed.

(** The edges between inner vertices join all the points that are no
    leaves. *)
Lemma inner_joins (f : Z → Z) :
  (∀ j, 0 ≤ j < n0 - 1 → inner_edge dg ind j = true →
     f (end_u ind j) = f (end_v ind j)) →
  ∀ x y, 0 ≤ x < n0 → 0 ≤ y < n0 →
    is_leaf dg x = false → is_leaf dg y = false → f x = f y.
Proof.
  intros Hfe x y Hx Hy Lx Ly.
  set (f' := extend_to_leaves f dg ind (Z.to_nat (n0 - 1))).
  assert (f' x = f' y) as Heq.
  { apply (forest_joins ind n0 f' Hn He Hf); [|done|done].
    intros j u v Hj Eu Ev.
    destruct (edge_ends j Hj) as (Eu' & Ev' & Hu & Hv & _).
    rewrite Eu in Eu'. rewrite Ev in Ev'. injection Eu' as Eu'. injection Ev' as Ev'.
    assert (edge_touches ind u j = true) as Tu
      by (rewrite edge_touches_ends, <- Eu', Z.eqb_refl by done; done).
    assert (edge_touches ind v j = true) as Tv
      by (rewrite edge_touches_ends, <- Ev', Z.eqb_refl, orb_true_r by done; done).
    rewrite <- Eu' in Hu. rewrite <- Ev' in Hv.
    unfold f', extend_to_leaves.
    destruct (is_leaf dg u) eqn:Lu; destruct (is_leaf dg v) eqn:Lv.
    - rewrite (touching_leaf u j), (touching_leaf v j) by done.
      by rewrite <- Eu', <- Ev', Lu, Lv.
    - rewrite (touching_leaf u j) by done. by rewrite <- Eu', <- Ev', Lu, Lv.
    - rewrite (touching_leaf v j) by done. by rewrite <- Eu', <- Ev', Lu, Lv.
    - rewrite Eu', Ev'. apply Hfe; [done|]. unfold inner_edge. rewrite Eu, Ev.
      rewrite (end_not_inner_is_leaf j u), (end_not_inner_is_leaf j v) by done.
      by rewrite Lu, Lv. }
  unfold f', extend_to_leaves in Heq. by rewrite Lx, Ly in Heq.
Qed.

(** The tree of all the edges, as the merges see it. *)
Lemma all_range j : tree_edge false dg ind n0 j = true → 0 ≤ j < n0 - 1.
Proof. by intros [Hj _]%tree_edge_true. Qed.

Lemma all_elems j :
  tree_edge false dg ind n0 j = true →
  0 ≤ end_u ind j < n0 ∧ 0 ≤ end_v ind j < n0.
Proof.
  intros Hj%all_range. by destruct (edge_ends j Hj) as (_ & _ & ? & ? & _).
Qed.

Lemma all_joins (f : Z → Z) :
  (∀ j, tree_edge false dg ind n0 j = true → f (end_u ind j) = f (end_v ind j)) →
  ∀ x y, 0 ≤ x < n0 → 0 ≤ y < n0 → f x = f y.
Proof.
  intros Hfe. apply (forest_joins ind n0 f Hn He Hf).
  intros j u v Hj Eu Ev. destruct (edge_ends j Hj) as (Eu' & Ev' & _).
  rewrite Eu in Eu'. rewrite Ev in Ev'. injection Eu' as ->. injection Ev' as ->.
  apply Hfe. by apply tree_edge_true.
Qed.

(** Merging the edges between inner vertices, in their order, never
    fails. *)
Lemma inner_merges_state (m : nat) :
  Z.of_nat m ≤ n0 - 1 →
  tree_state (tree_edge false dg ind n0) (end_u ind) (end_v ind) (n0 - 1) n0
    (merge_upto (tree_edge true dg ind n0) (end_u ind) (end_v ind) (new n0) m)
    (but_below (tree_edge false dg ind n0) (tree_edge true dg ind n0) (Z.of_nat m))
    (count_range (tree_edge true dg ind n0) 0 (Z.of_nat m)).
Proof.
  set (A := tree_edge false dg ind n0). set (K := tree_edge true dg ind n0).
  assert (∀ j, K j = true → A j = true) as HKA.
  { intros j [Hj _]%tree_edge_true. by apply tree_edge_true. }
  induction m as [|m IH]; intros Hm.
  - cbn [merge_upto]. apply (tree_state_ext _ _ _ _ _ _ A).
    { intros j. unfold but_below. destruct (Z.ltb_spec j (Z.of_nat 0)).
      - destruct (A j) eqn:Aj; [|done]. apply all_range in Aj. lia.
      - by rewrite andb_false_r, andb_true_r. }
    split; [apply wf_new; lia|]. split; [done|]. split.
    { rewrite SetCount.set_count_new by lia. unfold count_range. simpl. lia. }
    split; [done|]. split.
    { unfold count_range at 2. simpl. rewrite Z.sub_0_r.
      rewrite count_range_all; [lia | lia |].
      intros j Hj. by apply tree_edge_true. }
    intros j Aj Aj'. congruence.
  - specialize (IH ltac:(lia)). cbn [merge_upto].
    set (d1 := merge_upto K (end_u ind) (end_v ind) (new n0) m) in *.
    replace (Z.of_nat (S m)) with (Z.of_nat m + 1) by lia.
    rewrite count_range_snoc, Z.add_0_l by lia.
    destruct (K (Z.of_nat m)) eqn:Ek.
    + assert (but_below A K (Z.of_nat m) (Z.of_nat m) = true) as Am.
      { unfold but_below. rewrite (HKA _ Ek), Ek.
        destruct (Z.ltb_spec (Z.of_nat m) (Z.of_nat m)); [lia | done]. }
      assert (0 ≤ count_range K 0 (Z.of_nat m) < n0 - 1) as Hi.
      { pose proof (count_range_bounds K 0 (Z.of_nat m) ltac:(lia)).
        destruct IH as (_ & _ & _ & _ & Hcnt & _).
        pose proof (count_range_pos (but_below A K (Z.of_nat m)) 0 (n0 - 1)
                      (Z.of_nat m) ltac:(lia) Am). lia. }
      destruct (tree_state_merge A _ _ (n0 - 1) n0 all_range all_elems all_joins
                  _ _ _ IH Hi (Z.of_nat m) Am) as (d' & r & Hmerge & Hst).
      rewrite Hmerge. cbn [fst].
      eapply tree_state_ext; [|exact Hst].
      intros j. unfold without, but_below.
      destruct (Z.eqb_spec j (Z.of_nat m)) as [->|Hne].
      * rewrite Ek. destruct (Z.ltb_spec (Z.of_nat m) (Z.of_nat m + 1)); [|lia].
        destruct (A (Z.of_nat m)), (Z.of_nat m <? Z.of_nat m); done.
      * destruct (Z.ltb_spec j (Z.of_nat m)), (Z.ltb_spec j (Z.of_nat m + 1));
          try lia; destruct (A j), (K j); done.
    + rewrite Z.add_0_r. eapply tree_state_ext; [|exact IH].
      intros j. unfold but_below.
      destruct (decide (j = Z.of_nat m)) as [->|Hne]; [by rewrite Ek|].
      destruct (Z.ltb_spec j (Z.of_nat m)), (Z.ltb_spec j (Z.of_nat m + 1));
        (done || lia).
Qed.

(** There is one edge between inner vertices fewer than points that are
    no leaves. *)
Lemma inner_edges_count :
  1 ≤ n0 - leaf_count dg n0 →
  count_range (tree_edge true dg ind n0) 0 (n0 - 1) = n0 - leaf_count dg n0 - 1.
Proof.
  intros Hsome.
  set (K := tree_edge true dg ind n0).
  pose proof (inner_merges_state (Z.to_nat (n0 - 1)) ltac:(lia)) as Hst.
  rewrite Z2Nat.id in Hst by lia. fold K in Hst.
  set (d := merge_upto K (end_u ind) (end_v ind) (new n0) (Z.to_nat (n0 - 1))) in *.
  destruct Hst as (Hwf & Hnd & Hsets & _).
  assert (∀ j, K j = true →
            0 ≤ j < n0 - 1 ∧ is_leaf dg (end_u ind j) = false ∧
            is_leaf dg (end_v ind j) = false) as Hinner.
  { intros j [Hj Kj]%tree_edge_true. split; [done|]. cbn [kept_edge] in Kj.
    destruct (edge_ends j Hj) as (Eu & Ev & Hu & Hv & _).
    unfold inner_edge in Kj. rewrite Eu, Ev in Kj.
    apply andb_true_iff in Kj as [Iu Iv].
    rewrite (end_not_inner_is_leaf j) in Iu, Iv;
      [|done|by rewrite edge_touches_ends, Z.eqb_refl, orb_true_r|done
       |done|by rewrite edge_touches_ends, Z.eqb_refl|done].
    by apply negb_true_iff in Iu, Iv. }
  assert (∀ x, 0 ≤ x < n0 → is_leaf dg x = true →
            root (par d) x = x ∧ ∀ z, root (par d) z = x → z = x) as Hleaf.
  { intros x Hx Lx.
    destruct (merge_upto_untouched K (end_u ind) (end_v ind) n0 x
                (Z.to_nat (n0 - 1)) ltac:(lia)) as (_ & ? & ?); [|done].
    intros j Kj _. destruct (Hinner j Kj) as (_ & Lu & Lv).
    split; intros E; congruence. }
  destruct (merge_upto_spec K (end_u ind) (end_v ind) n0
              (λ j Kj, all_elems j ltac:(apply tree_edge_true;
                 apply tree_edge_true in Kj as [? _]; done))
              (new n0) (Z.to_nat (n0 - 1)) ltac:(apply wf_new; lia) eq_refl)
    as (_ & _ & _ & Hdone & _).
  fold d in Hdone. rewrite Z2Nat.id in Hdone by lia.
  assert (∀ x y, 0 ≤ x < n0 → 0 ≤ y < n0 →
            is_leaf dg x = false → is_leaf dg y = false →
            root (par d) x = root (par d) y) as Hone.
  { apply inner_joins. intros j Hj Ij. apply Hdone; [done|]. by apply tree_edge_true. }
  destruct Hwf as [Hlen Hw].
  assert (count_range (λ x, negb (is_leaf dg x) && (root (par d) x =? x)) 0 n0 = 1)
    as Hroot.
  { apply Z.le_antisymm.
    - apply count_range_le_1; [lia|].
      intros i j Hi Hj [Li Ri%Z.eqb_eq]%andb_true_iff [Lj Rj%Z.eqb_eq]%andb_true_iff.
      apply negb_true_iff in Li, Lj. rewrite <- Ri, <- Rj. apply Hone; (done || lia).
    - destruct (count_range_exists (λ x, negb (is_leaf dg x)) 0 n0)
        as (a & Ha & La).
      { rewrite count_range_negb by lia. unfold leaf_count in Hsome. lia. }
      apply negb_true_iff in La.
      pose proof (root_bounds (par d) a Hw ltac:(lia)) as Br.
      apply (count_range_pos _ _ _ (root (par d) a)); [lia|].
      rewrite root_root, Z.eqb_refl, andb_true_r by (done || lia).
      apply negb_true_iff. destruct (is_leaf dg (root (par d) a)) eqn:Lr; [|done].
      destruct (Hleaf (root (par d) a) ltac:(lia) Lr) as [_ Honly].
      rewrite <- (Honly a eq_refl) in Lr. congruence. }
  assert (set_count d = leaf_count dg n0 + 1) as Hcount.
  { unfold set_count. rewrite Hnd, <- Hroot. unfold leaf_count.
    rewrite <- count_range_or.
    - apply count_range_ext. intros x Hx. destruct (is_leaf dg x) eqn:Lx; [|done].
      destruct (Hleaf x ltac:(lia) Lx) as [-> _]. by rewrite Z.eqb_refl.
    - intros x _ ->. done. }
  lia.
Qed.

End Leaves.

Section EngineTree.
Context {T : Type} (T_gt : T → T → bool).
Implicit Type g : @CGenie T.

(** The tree that a constructed engine works on: the edges that
    [skiplist_init] threads are one fewer than the elements of the
    union-find, their ends are elements, and they join all the elements. *)
Lemma tree_of_engine (d : list T) ind n0 nl g :
  CGenie_new T_gt d ind n0 nl = Ok g →
  edges_in_range ind n0 → forest ind n0 →
  1 ≤ n0 - noise_count g →
  let K := tree_edge nl (deg g) ind n0 in
  let dir := denoise_index_rev g in
  let N := n0 - noise_count g in
  (∀ j, K j = true → 0 ≤ j < n0 - 1) ∧
  (∀ j, K j = true →
     ∃ u v a b, edge_u ind j = Ok u ∧ edge_v ind j = Ok v ∧
       vget dir u = Ok a ∧ vget dir v = Ok b ∧ 0 ≤ a < N ∧ 0 ≤ b < N) ∧
  (∀ f : Z → Z,
     (∀ j, K j = true → f (elem_u ind dir j) = f (elem_v ind dir j)) →
     ∀ x y, 0 ≤ x < N → 0 ≤ y < N → f x = f y) ∧
  count_range K 0 (n0 - 1) = N - 1.
Proof.
  intros Hnew He Hf HN K dir N.
  destruct (CGenie_new_inv _ _ _ _ _ _ Hnew)
    as (Hn & _ & Hdeg & _ & Hi & Hng & Hnl & Hnx & Hpv & Hmode).
  assert (0 ≤ noise_count g) as Hnc.
  { destruct nl; [destruct Hmode as (j & _ & ? & _); lia | destruct Hmode; lia]. }
  assert (1 ≤ n0) as Hn1 by lia.
  assert (∀ x, 0 ≤ x < n0 →
            vget (deg g) x = Ok (incident_count ind x 0 (n0 - 1))) as Hdegs.
  { destruct (Cget_graph_node_degrees_spec ind (n0 - 1) n0
                (replicate (Z.to_nat n0) 0)) as [_ Hok];
      [lia | rewrite length_replicate; lia | lia |
       by apply edges_in_range_length |].
    destruct Hok as (dg & Hdg & _ & Hv).
    { intros j Hj. by apply edges_in_range_not_rejected. }
    rewrite Hdeg in Hdg. by injection Hdg as <-. }
  apply Cget_graph_node_degrees_length in Hdeg.
  rewrite length_replicate in Hdeg.
  set (kp := λ v, if nl then negb (is_leaf (deg g) v) else true).
  assert ((∀ v, 0 ≤ v < n0 → kp v = true → ∃ a, vget dir v = Ok a ∧ 0 ≤ a < N) ∧
          (∀ a, 0 ≤ a < N → ∃ v, 0 ≤ v < n0 ∧ kp v = true ∧ vget dir v = Ok a) ∧
          (nl = true → noise_count g = leaf_count (deg g) n0))
    as (Hto & Hfrom & Hleaves).
  { unfold N, dir, kp. destruct nl.
    - destruct Hmode as (j & Hloop & _ & _).
      destruct (denoise_loop_tables (deg g) n0 Hn ltac:(lia))
        as (di & dir' & Hloop' & Hv & Hd & Hsur).
      rewrite Hloop in Hloop'. injection Hloop' as -> _ _ ->.
      split; [|split; [|done]].
      + intros v Hv0 Kv. apply negb_true_iff in Kv.
        exists (v - leaf_count (deg g) v). rewrite (Hv v Hv0), Kv.
        split; [done|]. by destruct (Hd v Hv0 Kv).
      + intros a Ha. destruct (Hsur a Ha) as (v & Hv0 & Lv & <-).
        exists v. split; [done|]. rewrite Lv. split; [done|].
        by rewrite (Hv v Hv0), Lv.
    - destruct Hmode as (-> & Hloop).
      destruct (identity_loop_spec n0 Hn) as (di & dir' & Hloop' & _ & _ & Hid).
      rewrite Hloop in Hloop'. injection Hloop' as _ ->.
      rewrite Z.sub_0_r. split; [|split; [|done]].
      + intros v Hv0 _. exists v. by destruct (Hid v Hv0).
      + intros a Ha. exists a. split; [done|]. split; [done|]. by destruct (Hid a Ha). }
  assert (∀ j, K j = true →
            0 ≤ j < n0 - 1 ∧
            edge_u ind j = Ok (end_u ind j) ∧ edge_v ind j = Ok (end_v ind j) ∧
            0 ≤ end_u ind j < n0 ∧ 0 ≤ end_v ind j < n0 ∧
            kp (end_u ind j) = true ∧ kp (end_v ind j) = true) as Hends.
  { intros j [Hj Kj]%tree_edge_true. split; [done|].
    destruct (edge_ends ind n0 He j Hj) as (Eu & Ev & Hu & Hv & _).
    repeat (split; [done|]). unfold kp. destruct nl; [|done].
    cbn [kept_edge] in Kj. unfold inner_edge in Kj. rewrite Eu, Ev in Kj.
    apply andb_true_iff in Kj as [Iu Iv].
    rewrite (end_not_inner_is_leaf ind (deg g) n0 Hdegs j) in Iu, Iv;
      [|done|by rewrite (edge_touches_ends ind n0 He), Z.eqb_refl, orb_true_r
       |done|done|by rewrite (edge_touches_ends ind n0 He), Z.eqb_refl|done].
    done. }
  assert (∀ j, K j = true →
            edge_u ind j = Ok (end_u ind j) ∧ edge_v ind j = Ok (end_v ind j) ∧
            vget dir (end_u ind j) = Ok (elem_u ind dir j) ∧
            vget dir (end_v ind j) = Ok (elem_v ind dir j) ∧
            0 ≤ elem_u ind dir j < N ∧ 0 ≤ elem_v ind dir j < N) as Helems.
  { intros j Kj. destruct (Hends j Kj) as (Hj & Eu & Ev & Hu & Hv & Pu & Pv).
    destruct (Hto _ Hu Pu) as (a & Ea & Ha). destruct (Hto _ Hv Pv) as (b & Eb & Hb).
    unfold elem_u, elem_v. rewrite Eu, Ev, Ea, Eb. done. }
  split; [by intros j [Hj _]%tree_edge_true|]. split.
  { intros j Kj. destruct (Helems j Kj) as (Eu & Ev & Ea & Eb & Ha & Hb).
    by exists (end_u ind j), (end_v ind j), (elem_u ind dir j), (elem_v ind dir j). }
  split.
  - intros f Hfe x y Hx Hy.
    destruct (Hfrom x Hx) as (vx & Hvx & Px & Ex).
    destruct (Hfrom y Hy) as (vy & Hvy & Py & Ey).
    set (f' := λ v, match vget dir v with Ok a => f a | Err _ => 0 end).
    assert (∀ j, K j = true → f' (end_u ind j) = f' (end_v ind j)) as Hfe'.
    { intros j Kj. destruct (Helems j Kj) as (_ & _ & Ea & Eb & _).
      unfold f'. rewrite Ea, Eb. by apply Hfe. }
    assert (f' vx = f' vy) as Hxy.
    { unfold K, kp in *. destruct nl.
      - apply (inner_joins ind (deg g) n0 Hn1 He Hf Hdegs f'); [|done|done|
          by apply negb_true_iff|by apply negb_true_iff].
        intros j Hj Ij. apply Hfe'. by apply tree_edge_true.
      - by apply (all_joins ind (deg g) n0 Hn1 He Hf f'). }
    unfold f' in Hxy. by rewrite Ex, Ey in Hxy.
  - unfold K, N. destruct nl.
    + rewrite (Hleaves eq_refl).
      apply (inner_edges_count ind (deg g) n0 Hn1 He Hf Hdegs). rewrite <- Hleaves; done.
    + destruct Hmode as (-> & _). rewrite Z.sub_0_r.
      apply count_range_all; [lia|]. intros j Hj. by apply tree_edge_true.
Qed.

(** The loop of [do_genie] on a constructed engine comes back after any
    number of iterations that leaves two sets or more to merge, with the
    invariant. *)
Lemma do_genie_loop_on_tree (d : list T) ind n0 nl g th i :
  CGenie_new T_gt d ind n0 nl = Ok g →
  edges_in_range ind n0 → forest ind n0 →
  2 ≤ n0 - noise_count g → 0 ≤ i ≤ n0 - noise_count g - 1 →
  ∃ g1 gi lastm,
    skiplist_init g = Ok g1 ∧
    for_range 0 i (λ _ st, genie_iteration th st)
      (set_ds g1 (GiniDisjointSets.new (n0 - noise_count g)), 0) = Ok (gi, lastm) ∧
    genie_inv ind (denoise_index_rev g) (tree_edge nl (deg g) ind n0)
      (n0 - 1) (n0 - noise_count g) gi lastm i.
Proof.
  intros Hnew He Hf HN Hi.
  destruct (tree_of_engine d ind n0 nl g Hnew He Hf ltac:(lia))
    as (K_range & K_edges & K_joins & K_count).
  destruct (CGenie_new_inv _ _ _ _ _ _ Hnew)
    as (Hn & _ & Hdeg & _ & Hind & Hng & Hnl & Hnx & Hpv & Hmode).
  apply Cget_graph_node_degrees_length in Hdeg.
  rewrite length_replicate in Hdeg.
  assert (0 ≤ noise_count g) as Hnc.
  { destruct nl; [destruct Hmode as (j & _ & ? & _); lia | destruct Hmode; lia]. }
  destruct (skiplist_init_skip_inv g) as (g1 & Hinit & Hlast & Hsk);
    [lia | by rewrite Hind, Hng | lia | rewrite Hnx, length_replicate; lia |
     rewrite Hpv, length_replicate; lia | |].
  { rewrite Hnl, Hind, Hng.
    destruct (count_range_exists (tree_edge nl (deg g) ind n0) 0 (n0 - 1))
      as (e & _ & Ke); [lia | by exists e]. }
  rewrite Hnl, Hind, Hng in Hsk.
  destruct (skiplist_init_fields g g1 Hinit)
    as (_ & Hi1 & _ & _ & _ & _ & _ & Hdr1 & _).
  set (N := n0 - noise_count g) in *.
  set (K := tree_edge nl (deg g) ind n0) in *.
  destruct (genie_loop_total ind (denoise_index_rev g) K (n0 - 1) N
              K_range K_edges K_joins
              (set_ds g1 (GiniDisjointSets.new N)) 0 th i)
    as (gi & lastm & Hloop & Hinv); [|done|by exists g1, gi, lastm].
  split; [cbn; congruence|]. split; [cbn; congruence|]. exists K.
  cbn [ds next_edge prev_edge curidx lastidx set_ds].
  assert (DisjointSets.wf (GiniDisjointSets.new N)) as Hwf
    by (apply DisjointSetsFacts.wf_new; lia).
  split.
  { split; [done|]. split; [done|]. split.
    - unfold GiniDisjointSets.new. rewrite SetCount.set_count_new by lia. lia.
    - split; [done|]. split; [lia|]. intros j Kj Kj'. congruence. }
  split; [done|]. split.
  { intros x Hx. pose proof (SizeFacts.set_size_pos (GiniDisjointSets.new N) x Hwf).
    cbn in *. lia. }
  right. destruct Hsk as (_ & _ & _ & Hc & Hbelow & Hcur & _).
  rewrite Hlast. split; [lia|]. split; [done|].
  intros j Kj Hj. rewrite Hbelow in Kj; done.
Qed.

(** [do_genie] returns on every spanning tree, for any threshold and any
    number of clusters below the number of points that are no noise. *)
Lemma do_genie_total (d : list T) ind n0 nl g th k :
  CGenie_new T_gt d ind n0 nl = Ok g →
  edges_in_range ind n0 → forest ind n0 →
  1 ≤ k < n0 - noise_count g →
  ∃ g1 g2, skiplist_init g = Ok g1 ∧ do_genie g1 k th = Ok g2.
Proof.
  intros Hnew He Hf Hk.
  destruct (do_genie_loop_on_tree d ind n0 nl g th (n0 - noise_count g - k)
              Hnew He Hf ltac:(lia) ltac:(lia))
    as (g1 & gi & lastm & Hinit & Hloop & _).
  destruct (CGenie_new_inv _ _ _ _ _ _ Hnew) as (_ & _ & _ & _ & _ & Hng & _).
  destruct (skiplist_init_fields g g1 Hinit)
    as (_ & _ & Hn1 & _ & _ & Hnc1 & _).
  exists g1, gi. split; [done|]. unfold do_genie. rewrite Hn1, Hnc1, Hng.
  destruct (Z.leb_spec (n0 - noise_count g - k) 0); [lia|].
  by rewrite Hloop.
Qed.

End EngineTree.

(** C3.  On every valid input, a sorted spanning tree given to the
    constructor with or without noise leaves, every iteration of the loop
    of [do_genie] completes, for any threshold and any number of clusters:
    [do_genie] returns, the state [gi] before iteration [i] exists, and
    iteration [i] returns.  Whenever this iteration takes the Genie branch
    (the Gini index exceeds the threshold), the walk finds an edge of the
    tree, and of the two sets [A] and [B] that are merged, the smaller one
    has the smallest size that was present before the merge:
    [min(|A|,|B|) = get_smallest_count()]. *)
Theorem genie_branch_merges_a_smallest_cluster {T : Type} (T_gt : T → T → bool)
    (d : list T) (ind : list Z) (n0 : Z) (nl : bool) (g : @CGenie T)
    (n_clusters : Z) (gini_threshold : Q) (i : Z) :
  CGenie_new T_gt d ind n0 nl = Ok g →
  edges_in_range ind n0 → forest ind n0 →
  1 ≤ n_clusters → 0 ≤ i < n0 - noise_count g - n_clusters →
  ∃ g1 gf gi lastm g2 lastm2,
    skiplist_init g = Ok g1 ∧
    do_genie g1 n_clusters gini_threshold = Ok gf ∧
    for_range 0 i (λ _ st, genie_iteration gini_threshold st)
      (set_ds g1 (GiniDisjointSets.new (n0 - noise_count g)), 0) = Ok (gi, lastm) ∧
    genie_iteration gini_threshold (gi, lastm) = Ok (g2, lastm2) ∧
    (Qgt_bool (GiniDisjointSets.get_gini (ds gi)) gini_threshold = true →
     ∃ e i1 i2 a b ca cb r,
       0 ≤ e < n0 - 1 ∧
       edge_u ind e = Ok i1 ∧ edge_v ind e = Ok i2 ∧
       vget (denoise_index_rev g) i1 = Ok a ∧
       vget (denoise_index_rev g) i2 = Ok b ∧
       GiniDisjointSets.merge (ds gi) a b = (ds g2, Ok r) ∧
       GiniDisjointSets.get_count (ds gi) a = Ok ca ∧
       GiniDisjointSets.get_count (ds gi) b = Ok cb ∧
       Z.min ca cb = GiniDisjointSets.get_smallest_count (ds gi) ∧
       lastm2 = GiniDisjointSets.get_smallest_count (ds gi)).
Proof.
  intros Hnew He Hf Hk Hi.
  destruct (do_genie_total T_gt d ind n0 nl g gini_threshold n_clusters
              Hnew He Hf ltac:(lia)) as (g1 & gf & Hinit & Hrun).
  destruct (do_genie_loop_on_tree T_gt d ind n0 nl g gini_threshold i
              Hnew He Hf ltac:(lia) ltac:(lia))
    as (g1' & gi & lastm & Hinit' & Hloop & Hinv).
  rewrite Hinit in Hinit'. injection Hinit' as <-.
  destruct (tree_of_engine T_gt d ind n0 nl g Hnew He Hf ltac:(lia))
    as (K_range & K_edges & K_joins & _).
  destruct (genie_iteration_total ind (denoise_index_rev g) _ (n0 - 1)
              (n0 - noise_count g) K_range K_edges K_joins gi lastm i
              gini_threshold Hinv ltac:(lia)) as (g2 & lastm2 & Hit & _).
  exists g1, gf, gi, lastm, g2, lastm2. repeat (split; [done|]).
  intros Hgini.
  destruct (genie_step ind (denoise_index_rev g) _ (n0 - 1)
              (n0 - noise_count g) K_range K_edges K_joins gi lastm i
              Hinv ltac:(lia))
    as (e & i1 & i2 & g1e & g2e & Ke & E1 & E2 & Hbranch & _).
  destruct Hinv as (Hind & Hdir & alive & (Hwf & _) & _).
  destruct (genie_iteration_smallest gi g2 gini_threshold lastm lastm2 Hwf Hgini Hit)
    as (i1' & i2' & g1' & a & b & ca & cb & r & Hbranch' & H).
  rewrite Hbranch in Hbranch'. injection Hbranch' as <- <- <- _.
  exists e, i1, i2, a, b, ca, cb, r. rewrite <- Hdir.
  split; [by apply K_range|]. done.
Qed.

Lemma middle_last_in_range : edges_in_range [0; 1; 2; 3; 1; 2; 3; 4] 5.
Proof.
  intros j Hj.
  assert (j = 0 ∨ j = 1 ∨ j = 2 ∨ j = 3) as [-> | [-> | [-> | ->] ] ] by lia;
    eexists _, _; (split; [reflexivity|]); (split; [reflexivity|]); lia.
Qed.

Lemma middle_last_forest : forest [0; 1; 2; 3; 1; 2; 3; 4] 5.
Proof.
  intros j u v Hj Eu Ev Hc.
  apply (connected_respects
    (λ x, if j =? 0 then x
          else if j =? 1 then (if x <=? 1 then 0 else x)
          else if j =? 2 then (if x <=? 1 then 0 else if x <=? 3 then 2 else x)
          else (if x <=? 3 then 0 else x))) in Hc.
  - assert (j = 0 ∨ j = 1 ∨ j = 2 ∨ j = 3) as [-> | [-> | [-> | ->] ] ] by lia;
      injection Eu as <-; injection Ev as <-; discriminate.
  - intros i x y Hi Ex Ey.
    assert (i = 0 ∨ i = 1 ∨ i = 2) as [-> | [-> | ->] ] by lia;
      injection Ex as <-; injection Ey as <-;
      assert (j = 1 ∨ j = 2 ∨ j = 3) as [-> | [-> | ->] ] by lia;
      (reflexivity || lia).
Qed.

Lemma genie_branch_merges_a_smallest_cluster_witness :
  ∃ g,
    CGenie_new Z.gtb [1; 2; 3; 4] [0; 1; 2; 3; 1; 2; 3; 4] 5 false = Ok g ∧
    skiplist_init g = Ok path5_middle_last ∧
    for_range 0 2 (λ _ st, genie_iteration 0 st)
      (set_ds path5_middle_last (GiniDisjointSets.new 5), 0)
      = Ok (path5_two_pairs, 1) ∧
    Qgt_bool (GiniDisjointSets.get_gini (ds path5_two_pairs)) 0 = true ∧
    genie_iteration 0 (path5_two_pairs, 1) = Ok (path5_pair_and_triple, 1) ∧
    ∃ e i1 i2 a b ca cb r,
      0 ≤ e < 5 - 1 ∧
      edge_u [0; 1; 2; 3; 1; 2; 3; 4] e = Ok i1 ∧
      edge_v [0; 1; 2; 3; 1; 2; 3; 4] e = Ok i2 ∧
      vget (denoise_index_rev g) i1 = Ok a ∧
      vget (denoise_index_rev g) i2 = Ok b ∧
      GiniDisjointSets.merge (ds path5_two_pairs) a b
        = (ds path5_pair_and_triple, Ok r) ∧
      GiniDisjointSets.get_count (ds path5_two_pairs) a = Ok ca ∧
      GiniDisjointSets.get_count (ds path5_two_pairs) b = Ok cb ∧
      Z.min ca cb = GiniDisjointSets.get_smallest_count (ds path5_two_pairs) ∧
      1 = GiniDisjointSets.get_smallest_count (ds path5_two_pairs).
Proof.
  eexists.
  match goal with |- ?A ∧ _ =>
    assert (Hnew : A) by (vm_compute; reflexivity)
  end.
  destruct (genie_branch_merges_a_smallest_cluster Z.gtb [1; 2; 3; 4]
              [0; 1; 2; 3; 1; 2; 3; 4] 5 false _ 2 0 2 Hnew
              middle_last_in_range middle_last_forest ltac:(lia) ltac:(cbn; lia))
    as (g1 & gf & gi & lastm & g2 & lastm2 & Hinit & _ & Hloop & Hit & Hprop).
  split; [exact Hnew|].
  vm_compute in Hinit. injection Hinit as <-.
  vm_compute in Hloop. injection Hloop as <- <-.
  vm_compute in Hit. injection Hit as <- <-.
  split; [vm_compute; reflexivity|]. split; [vm_compute; reflexivity|].
  assert (Hgini : Qgt_bool (GiniDisjointSets.get_gini (ds path5_two_pairs)) 0 = true)
    by (vm_compute; reflexivity).
  split; [exact Hgini|]. split; [vm_compute; reflexivity|].
  exact (Hprop Hgini).
Defined.

(** * The whole run on a spanning tree *)

(** X17.  [do_genie] returns on every valid input.  On an engine
    constructed, with or without noise leaves, from an edge list that is
    a spanning tree, [skiplist_init] returns, and for any threshold and
    any number of clusters from 1 to below the number of points that are
    no noise, [do_genie] returns; the union-find it leaves is well formed
    over these points and has exactly [n_clusters] sets. *)
Theorem do_genie_returns_on_trees {T : Type} (T_gt : T → T → bool)
    (d : list T) (ind : list Z) (n0 : Z) (nl : bool) (g : @CGenie T)
    (n_clusters : Z) (gini_threshold : Q) :
  CGenie_new T_gt d ind n0 nl = Ok g →
  edges_in_range ind n0 → forest ind n0 →
  1 ≤ n_clusters < n0 - noise_count g →
  ∃ g1 g2,
    skiplist_init g = Ok g1 ∧
    do_genie g1 n_clusters gini_threshold = Ok g2 ∧
    DisjointSets.wf (ds g2) ∧
    DisjointSets.n (ds g2) = n0 - noise_count g ∧
    set_count (ds g2) = n_clusters.
Proof.
  intros Hnew He Hf Hk.
  destruct (do_genie_total T_gt d ind n0 nl g gini_threshold n_clusters
              Hnew He Hf Hk) as (g1 & g2 & Hinit & Hrun).
  destruct (CGenie_new_inv _ _ _ _ _ _ Hnew) as (_ & _ & _ & _ & _ & Hng & _).
  destruct (skiplist_init_fields g g1 Hinit)
    as (_ & _ & Hn1 & _ & _ & Hnc1 & _).
  destruct (do_genie_set_count g1 g2 n_clusters gini_threshold)
    as (Hwf & Hnd & Hsets); [lia | done |].
  exists g1, g2. rewrite Hn1, Hnc1, Hng in Hnd. done.
Qed.

Lemma do_genie_returns_on_trees_witness :
  ∃ g g1 g2,
    CGenie_new Z.gtb [1; 2; 3; 4] path5 5 true = Ok g ∧
    noise_count g = 2 ∧
    skiplist_init g = Ok g1 ∧
    do_genie g1 2 0 = Ok g2 ∧
    DisjointSets.n (ds g2) = 3 ∧ set_count (ds g2) = 2.
Proof.
  eexists.
  match goal with |- ∃ _ _, ?A ∧ _ =>
    assert (Hnew : A) by (vm_compute; reflexivity)
  end.
  destruct (do_genie_returns_on_trees Z.gtb [1; 2; 3; 4] path5 5 true _ 2 0
              Hnew path5_in_range path5_forest ltac:(cbn; lia))
    as (g1 & g2 & Hinit & Hrun & _ & Hn & Hsets).
  exists g1, g2. split; [exact Hnew|]. split; [reflexivity|].
  split; [exact Hinit|]. split; [exact Hrun|]. split; [exact Hn | exact Hsets].
Defined.

(** X18.  [apply_genie] returns on every valid input without noise
    leaves, for any threshold.  On an engine constructed from an edge
    list that is a spanning tree, with a buffer of [n] cells and
    [1 ≤ n_clusters < n]: when an [int] can count the clusters,
    [n_clusters ≤ INT_MAX], [apply_genie] returns labels that number
    exactly [n_clusters] clusters, every label in [0, ..., n_clusters-1]
    and every such label used; for a larger [n_clusters] the label
    counter of [get_labels] overflows. *)
Theorem apply_genie_returns_on_trees {T : Type} (T_gt : T → T → bool)
    (d : list T) (ind : list Z) (n0 : Z) (g : @CGenie T)
    (n_clusters : Z) (gini_threshold : Q) (res : list Z) :
  CGenie_new T_gt d ind n0 false = Ok g →
  edges_in_range ind n0 → forest ind n0 →
  1 ≤ n_clusters < n0 → Z.of_nat (length res) = n0 →
  (n_clusters ≤ INT_MAX →
   ∃ labels, apply_genie g n_clusters gini_threshold res = Ok labels ∧
     Z.of_nat (length labels) = n0 ∧
     (∀ a, 0 ≤ a < n0 → ∃ l, vget labels a = Ok l ∧ 0 ≤ l < n_clusters) ∧
     (∀ l, 0 ≤ l < n_clusters → ∃ a, 0 ≤ a < n0 ∧ vget labels a = Ok l)) ∧
  (INT_MAX < n_clusters →
   apply_genie g n_clusters gini_threshold res = Err int_overflow).
Proof.
  intros Hnew He Hf Hk Hres.
  destruct (CGenie_new_inv _ _ _ _ _ _ Hnew)
    as (Hn & _ & _ & _ & _ & Hng & _ & _ & _ & Hnc & Hloop).
  destruct (identity_loop_spec n0 Hn) as (di & dir & Hloop' & _ & _ & Hid).
  rewrite Hloop in Hloop'. injection Hloop' as <- <-.
  destruct (do_genie_total T_gt d ind n0 false g gini_threshold n_clusters
              Hnew He Hf ltac:(lia)) as (g1 & g2 & Hinit & Hrun).
  destruct (skiplist_init_fields g g1 Hinit)
    as (_ & _ & Hn1 & _ & _ & Hnc1 & Hdi1 & Hdr1 & _).
  destruct (do_genie_set_count g1 g2 n_clusters gini_threshold)
    as (Hwf & Hnd & Hsets); [lia | done |].
  destruct (do_genie_fields g1 g2 _ _ Hrun) as (_ & Hn2 & _ & _ & Hdi2 & Hdr2).
  destruct (get_labels_canonical g2 res) as [Hok Hover];
    [lia | done | lia | lia | |].
  { intros x Hx. rewrite Hdi2, Hdr2, Hdi1, Hdr1. apply Hid. lia. }
  rewrite Hsets in Hok, Hover. unfold apply_genie. rewrite Hinit. cbn [bind].
  rewrite Hrun. cbn [bind]. split.
  - intros Hint.
    destruct (Hok Hint) as (g3 & labels & -> & Hlen & Hrange & _ & Hfirst & _).
    cbn [bind snd]. exists labels. split; [done|].
    rewrite Hn2, Hn1, Hng in Hlen, Hrange, Hfirst.
    split; [done|]. split; [done|].
    intros l Hl. destruct (Hfirst l Hl) as (a & Ha & Ea & _). by exists a.
  - intros Hbig. by rewrite (Hover Hbig).
Qed.

Lemma apply_genie_returns_on_trees_witness :
  ∃ g labels,
    CGenie_new Z.gtb [1; 2; 3; 4] [0; 1; 2; 3; 1; 2; 3; 4] 5 false = Ok g ∧
    apply_genie g 2 0 [9; 9; 9; 9; 9] = Ok labels ∧
    labels = [0; 0; 1; 1; 1] ∧
    ∀ l, 0 ≤ l < 2 → ∃ a, 0 ≤ a < 5 ∧ vget labels a = Ok l.
Proof.
  eexists.
  match goal with |- ∃ _, ?A ∧ _ =>
    assert (Hnew : A) by (vm_compute; reflexivity)
  end.
  destruct (apply_genie_returns_on_trees Z.gtb [1; 2; 3; 4]
              [0; 1; 2; 3; 1; 2; 3; 4] 5 _ 2 0 [9; 9; 9; 9; 9] Hnew
              middle_last_in_range middle_last_forest ltac:(lia) eq_refl)
    as [Hok _].
  destruct Hok as (labels & Hrun & _ & _ & Hused); [by vm_compute|].
  exists labels. split; [exact Hnew|]. split; [exact Hrun|]. split; [|exact Hused].
  vm_compute in Hrun. by injection Hrun as <-.
Defined.
